(** * Batch execution engine of the Sora 2 MCP server

    A shallow embedding of [src/utils/batch-manager.ts] together with the
    parts of [types/tools.ts], [types/batch.ts], [utils/batch-config.ts] and
    [utils/path.ts] that it calls, followed by the properties of the batch
    engine that the specification states.

    Conventions of the embedding:
    - a JavaScript [number] that takes part in cost arithmetic is a binary64
      float ([PrimFloat]); counters, array indices and millisecond values
      are integers ([nat] or [Z]);
    - a JavaScript string is a [string] of bytes, and [toLowerCase] acts on
      the ASCII letters only;
    - an optional field [f?: T] is an [option T];
    - a function that may [throw] returns a [Result];
    - the asynchronous code of [executeBatch] is a transition system over
      the state of the event loop, one transition per task that the loop
      runs (a microtask or a timer / I/O callback), on a logical clock. *)

From Stdlib Require Import PrimFloat ZArith Ascii String.
From stdpp Require Import gmap strings list pretty sorting.

#[local] Set Warnings "-inexact-float".
#[local] Open Scope Z_scope.

(** ** JavaScript primitives used by the sources *)

(** The outcome of a call that may [throw new Error(message)]. *)
Inductive Result (A : Type) : Type :=
| Ok (value : A)
| Throw (message : string).
Arguments Ok {A} value.
Arguments Throw {A} message.

(** [x ?? d] *)
Definition nullish {A : Type} (x : option A) (d : A) : A :=
  match x with
  | Some v => v
  | None => d
  end.

(** Truthiness of a string that may be [undefined]. *)
Definition truthy_string (x : option string) : bool :=
  match x with
  | Some EmptyString => false
  | Some _ => true
  | None => false
  end.

(** Truthiness of a number: neither [0], [-0] nor [NaN]. *)
Definition truthy_number (x : float) : bool :=
  negb (PrimFloat.is_zero x) && negb (PrimFloat.is_nan x).

(** [x || d] on an optional number of the cost arithmetic. *)
Definition or_number (x : option float) (d : float) : float :=
  match x with
  | Some v => if truthy_number v then v else d
  | None => d
  end.

(** [x || d] on an optional integer setting. *)
Definition or_int (x : option Z) (d : Z) : Z :=
  match x with
  | Some v => if v =? 0 then d else v
  | None => d
  end.

(** [x || d] on an optional string. *)
Definition or_string (x : option string) (d : string) : string :=
  match x with
  | Some v => if truthy_string x then v else d
  | None => d
  end.

(** [x || d] on an optional value all of whose inhabitants are truthy
    (the non-empty string literals of an enumeration). *)
Definition or_enum {A : Type} (x : option A) (d : A) : A :=
  match x with
  | Some v => v
  | None => d
  end.

Definition ascii_toLowerCase (c : ascii) : ascii :=
  let n := nat_of_ascii c in
  if ((65 <=? n) && (n <=? 90))%nat then ascii_of_nat (n + 32) else c.

Fixpoint toLowerCase (s : string) : string :=
  match s with
  | EmptyString => EmptyString
  | String c rest => String (ascii_toLowerCase c) (toLowerCase rest)
  end.

(** [s.startsWith(p)] *)
Fixpoint startsWith (s p : string) {struct p} : bool :=
  match p, s with
  | EmptyString, _ => true
  | String a p', String b s' => if Ascii.eqb a b then startsWith s' p' else false
  | String _ _, EmptyString => false
  end.

(** [s.includes(needle)] *)
Fixpoint includes (s needle : string) : bool :=
  startsWith s needle ||
  match s with
  | EmptyString => false
  | String _ rest => includes rest needle
  end.

(** The delay that Node's [setTimeout] really arms: a delay below 1 or above
    2147483647 is replaced by 1. *)
Definition setTimeout_delay (ms : Z) : Z :=
  if (ms <? 1) || (2147483647 <? ms) then 1 else ms.

(** ** [types/tools.ts] *)

Inductive Model : Set :=
| sora_2
| sora_2_pro.

Inductive Size : Set :=
| size_1920x1080
| size_1280x720
| size_1080x1920
| size_720x1280
| size_1080x1080
| size_480x480.

(** The string literal that each [Size] is at run time. *)
Definition Size_literal (size : Size) : string :=
  match size with
  | size_1920x1080 => "1920x1080"
  | size_1280x720 => "1280x720"
  | size_1080x1920 => "1080x1920"
  | size_720x1280 => "720x1280"
  | size_1080x1080 => "1080x1080"
  | size_480x480 => "480x480"
  end.

Definition DEFAULT_MODEL : Model := sora_2.
Definition DEFAULT_SIZE : Size := size_1280x720.
Definition DEFAULT_SECONDS : float := 4%float.

(** One row of the [PRICING] table; [sora-2] has no ['1024p'] entry. *)
Record PricingRow : Set := {
  price_720p : float;
  price_1024p : option float;
  price_default : float
}.

Definition PRICING (model : Model) : PricingRow :=
  match model with
  | sora_2 =>
      {| price_720p := 0.1%float; price_1024p := None;
         price_default := 0.1%float |}
  | sora_2_pro =>
      {| price_720p := 0.3%float; price_1024p := Some 0.5%float;
         price_default := 0.3%float |}
  end.

Definition pricePerSecond (model : Model) (size : Size) : float :=
  let pricing := PRICING model in
  let is720p :=
    includes (Size_literal size) "720" || includes (Size_literal size) "480" in
  if is720p then price_720p pricing
  else or_number (price_1024p pricing) (price_default pricing).

Definition calculateCost (model : Model) (seconds : float) (size : Size)
  : float :=
  (pricePerSecond model size * seconds)%float.

(** The result of one call of the Job Executor. *)
Module VideoGenerationResult.
Record t : Set := {
  success : bool;
  video_id : option string;
  video_url : option string;
  output_path : option string;
  duration : option float;
  error : option string
}.
End VideoGenerationResult.

(** ** [types/batch.ts] *)

Module BatchJobConfig.
Record t : Set := {
  prompt : string;
  output_path : option string;
  model : option Model;
  size : option Size;
  seconds : option float;
  input_reference : option string;
  remix_video_id : option string
}.
End BatchJobConfig.

Module RetryPolicy.
Record t : Set := {
  max_retries : option Z;
  retry_delay_ms : option Z;
  retry_on_errors : option (list string)
}.
End RetryPolicy.

Module BatchConfig.
Record t : Set := {
  jobs : list BatchJobConfig.t;
  output_dir : option string;
  max_concurrent : option Z;
  timeout : option Z;
  poll_interval : option Z;
  max_poll_attempts : option Z;
  retry_policy : option RetryPolicy.t;
  default_model : option Model;
  default_size : option Size;
  default_seconds : option float
}.
End BatchConfig.

(** Of [BatchExecutionOptions] the batch manager reads [allowAnyPath] only. *)
Module BatchExecutionOptions.
Record t : Set := {
  allowAnyPath : option bool
}.
End BatchExecutionOptions.

Inductive JobStatus : Set :=
| completed
| failed
| cancelled.

Module BatchJobResult.
Record t : Set := {
  index : nat;
  prompt : string;
  status : JobStatus;
  output_path : option string;
  video_url : option string;
  video_id : option string;
  error : option string;
  duration_ms : option Z;
  video_duration : option float;
  is_remix : option bool;
  is_image_to_video : option bool
}.
End BatchJobResult.

(** [started_at] and [finished_at] hold the instant in milliseconds; their
    rendering by [toISOString] is not modelled. *)
Module BatchResult.
Record t : Set := {
  total : nat;
  succeeded : nat;
  failed : nat;
  cancelled : nat;
  results : list BatchJobResult.t;
  started_at : Z;
  finished_at : Z;
  total_duration_ms : Z;
  estimated_cost : float
}.
End BatchResult.

Inductive JobKind : Set :=
| text_to_video
| image_to_video
| remix.

Module CostBreakdownItem.
Record t : Set := {
  type : JobKind;
  count : nat;
  estimated_cost : float
}.
End CostBreakdownItem.

Module CostEstimate.
Record t : Set := {
  total_jobs : nat;
  estimated_min : float;
  estimated_max : float;
  breakdown : list CostBreakdownItem.t
}.
End CostEstimate.

Module BATCH_DEFAULTS.
Definition max_concurrent : Z := 2.
Definition timeout : Z := 1800000.
Definition poll_interval : Z := 15000.
Definition max_poll_attempts : Z := 120.
Definition retry_max_retries : Z := 2.
Definition retry_delay_ms : Z := 1000.
Definition retry_on_errors : list string :=
  ["rate_limit"; "timeout"; "429"; "503"; "500"].
End BATCH_DEFAULTS.

(** ** [utils/batch-manager.ts]: the semaphore *)

(** The [queue] holds the [resolve] callbacks of the suspended [acquire]
    calls; a callback is identified by the task that waits on it. *)
Module Semaphore.
Record t : Set := {
  permits : Z;
  queue : list nat
}.

Definition new (permits : Z) : t :=
  {| permits := permits; queue := [] |}.

(** [acquire]: the flag tells whether the returned promise is already
    resolved ([true]) or the caller stays suspended in the queue. *)
Definition acquire (caller : nat) (s : t) : t * bool :=
  if 0 <? permits s
  then ({| permits := permits s - 1; queue := queue s |}, true)
  else ({| permits := permits s; queue := queue s ++ [caller] |}, false).

(** [release]: the task whose [resolve] was called, if any. *)
Definition release (s : t) : t * option nat :=
  match queue s with
  | next :: rest => ({| permits := permits s; queue := rest |}, Some next)
  | [] => ({| permits := permits s + 1; queue := [] |}, None)
  end.
End Semaphore.

(** ** Node's [path] module and the file system *)

(** The functions of Node's [path] module that the sources call; [resolve]
    depends on the working directory of the process. *)
Class PathLib : Type := {
  path_isAbsolute : string -> bool;
  path_resolve : string -> string;
  path_join : string -> string -> string;
  path_dirname : string -> string;
  path_extname : string -> string;
  path_basename : string -> string -> string
}.

(** The paths that [fs.access] finds. *)
Definition fileExists (fs : gset string) (filePath : string) : bool :=
  bool_decide (filePath ∈ fs).

Section Paths.
Context `{PathLib}.

(** ** [utils/batch-config.ts]: [resolveOutputPath] *)
Definition resolveOutputPath (job : BatchJobConfig.t) (index : nat)
    (outputDir : string) (allowAnyPath : bool) : Result string :=
  if truthy_string (BatchJobConfig.output_path job) then
    let output_path := nullish (BatchJobConfig.output_path job) "" in
    if path_isAbsolute output_path then
      if negb allowAnyPath
         && negb (startsWith output_path (path_resolve outputDir))
      then Throw ("Job " +:+ pretty (index + 1)%nat +:+
                  ": absolute output_path must be within output_dir. Use --allow-any-path to override.")
      else Ok output_path
    else Ok (path_join outputDir output_path)
  else
    let prefix :=
      if truthy_string (BatchJobConfig.remix_video_id job) then "remixed"
      else if truthy_string (BatchJobConfig.input_reference job)
           then "animated"
           else "generated" in
    Ok (path_join outputDir
          (prefix +:+ "_" +:+ pretty (index + 1)%nat +:+ ".mp4")).

(** ** [utils/path.ts]: [generateUniqueFilePath] *)

(** [path.join(dir, `${baseName}_${counter}${ext}`)] *)
Definition candidatePath (filePath : string) (counter : nat) : string :=
  let dir := path_dirname filePath in
  let ext := path_extname filePath in
  let baseName := path_basename filePath ext in
  path_join dir (baseName +:+ "_" +:+ pretty counter +:+ ext).

(** The [while] loop; [None] when the given number of probes found
    existing files only. *)
Fixpoint probeCounter (fs : gset string) (filePath : string)
    (probes : nat) (counter : nat) : option string :=
  match probes with
  | O => None
  | S probes' =>
      let uniquePath := candidatePath filePath counter in
      if fileExists fs uniquePath
      then probeCounter fs filePath probes' (counter + 1)%nat
      else Some uniquePath
  end.

(** The file system is read as one snapshot.  The loop is given one probe
    more than there are existing paths; [None] stands for a loop that
    never leaves. *)
Definition generateUniqueFilePath (fs : gset string) (filePath : string)
  : option string :=
  if negb (fileExists fs filePath) then Some filePath
  else probeCounter fs filePath (S (size fs)) 1%nat.
End Paths.

(** ** [utils/batch-manager.ts]: retry *)

(** An [Error] is represented by its [message]. *)
Definition shouldRetry (error : string) (patterns : list string) : bool :=
  let errorMessage := toLowerCase error in
  existsb (fun pattern => includes errorMessage (toLowerCase pattern))
          patterns.

(** The effective retry policy that [executeBatch] builds. *)
Record EffectiveRetryPolicy : Set := {
  maxRetries : Z;
  retryDelay : Z;
  retryPatterns : list string
}.

Definition effectiveRetryPolicy (config : BatchConfig.t)
  : EffectiveRetryPolicy :=
  let rp := BatchConfig.retry_policy config in
  {| maxRetries :=
       nullish (rp ≫= RetryPolicy.max_retries)
               BATCH_DEFAULTS.retry_max_retries;
     retryDelay :=
       nullish (rp ≫= RetryPolicy.retry_delay_ms)
               BATCH_DEFAULTS.retry_delay_ms;
     retryPatterns :=
       nullish (rp ≫= RetryPolicy.retry_on_errors)
               BATCH_DEFAULTS.retry_on_errors |}.

(** The call that one attempt makes to the Job Executor. *)
Inductive ExecutorCall : Set :=
| remixVideo (prompt remix_video_id output_path : string)
    (pollInterval maxPollAttempts : Z)
| generateVideo (prompt : string) (model : Model) (size : Size)
    (seconds : float) (input_reference : option string)
    (output_path : string) (pollInterval maxPollAttempts : Z).

(** What the environment answers to one call. *)
Inductive CallOutcome : Set :=
| Returns (result : VideoGenerationResult.t)
| Throws (message : string).

Record Attempt : Set := {
  elapsed : Z;
  outcome : CallOutcome
}.

(** The Job Executor as the job sees it: the answer to its [n]-th call. *)
Definition Executor : Set := ExecutorCall -> nat -> Attempt.

(** How one attempt ends inside the [try] block: with a successful result,
    or in the [catch] clause with the message of the error caught there
    (the one thrown by the call, or [result.error || 'Unknown error']). *)
Definition attemptSettled (o : CallOutcome)
  : VideoGenerationResult.t + string :=
  match o with
  | Returns result =>
      if VideoGenerationResult.success result then inl result
      else inr (or_string (VideoGenerationResult.error result)
                          "Unknown error")
  | Throws message => inr message
  end.

(** What a run of [executeJobWithRetry] did, in order. *)
Inductive JobAction : Set :=
| Invoked (call : ExecutorCall) (attempt : nat) (started finished : Z)
| Slept (ms : Z) (started finished : Z).

Record JobRun : Set := {
  run_result : BatchJobResult.t;
  run_finished : Z;
  run_actions : list JobAction
}.

Definition effectiveModel (job : BatchJobConfig.t) (config : BatchConfig.t)
  : Model :=
  or_enum (BatchJobConfig.model job)
          (or_enum (BatchConfig.default_model config) DEFAULT_MODEL).

Definition effectiveSize (job : BatchJobConfig.t) (config : BatchConfig.t)
  : Size :=
  or_enum (BatchJobConfig.size job)
          (or_enum (BatchConfig.default_size config) DEFAULT_SIZE).

Definition effectiveSeconds (job : BatchJobConfig.t) (config : BatchConfig.t)
  : float :=
  or_number (BatchJobConfig.seconds job)
            (or_number (BatchConfig.default_seconds config) DEFAULT_SECONDS).

Section ExecuteJobWithRetry.
Variables (job : BatchJobConfig.t) (index : nat) (outputPath : string)
          (config : BatchConfig.t) (pollInterval maxPollAttempts : Z)
          (retryPolicy : EffectiveRetryPolicy) (executor : Executor)
          (jobStartTime : Z).

Definition executorCall : ExecutorCall :=
  if truthy_string (BatchJobConfig.remix_video_id job) then
    remixVideo (BatchJobConfig.prompt job)
               (nullish (BatchJobConfig.remix_video_id job) "")
               outputPath pollInterval maxPollAttempts
  else
    generateVideo (BatchJobConfig.prompt job)
                  (effectiveModel job config) (effectiveSize job config)
                  (effectiveSeconds job config)
                  (BatchJobConfig.input_reference job)
                  outputPath pollInterval maxPollAttempts.

Definition completedResult (result : VideoGenerationResult.t) (now : Z)
  : BatchJobResult.t :=
  {| BatchJobResult.index := index + 1;
     BatchJobResult.prompt := BatchJobConfig.prompt job;
     BatchJobResult.status := completed;
     BatchJobResult.output_path := VideoGenerationResult.output_path result;
     BatchJobResult.video_url := VideoGenerationResult.video_url result;
     BatchJobResult.video_id := VideoGenerationResult.video_id result;
     BatchJobResult.error := None;
     BatchJobResult.duration_ms := Some (now - jobStartTime);
     BatchJobResult.video_duration := VideoGenerationResult.duration result;
     BatchJobResult.is_remix :=
       Some (truthy_string (BatchJobConfig.remix_video_id job));
     BatchJobResult.is_image_to_video :=
       Some (truthy_string (BatchJobConfig.input_reference job)) |}.

Definition failedResult (message : string) (now : Z) : BatchJobResult.t :=
  {| BatchJobResult.index := index + 1;
     BatchJobResult.prompt := BatchJobConfig.prompt job;
     BatchJobResult.status := failed;
     BatchJobResult.output_path := None;
     BatchJobResult.video_url := None;
     BatchJobResult.video_id := None;
     BatchJobResult.error := Some message;
     BatchJobResult.duration_ms := Some (now - jobStartTime);
     BatchJobResult.video_duration := None;
     BatchJobResult.is_remix :=
       Some (truthy_string (BatchJobConfig.remix_video_id job));
     BatchJobResult.is_image_to_video :=
       Some (truthy_string (BatchJobConfig.input_reference job)) |}.

(** The result after the loop ("should not reach here"). *)
Definition exhaustedResult (now : Z) : BatchJobResult.t :=
  {| BatchJobResult.index := index + 1;
     BatchJobResult.prompt := BatchJobConfig.prompt job;
     BatchJobResult.status := failed;
     BatchJobResult.output_path := None;
     BatchJobResult.video_url := None;
     BatchJobResult.video_id := None;
     BatchJobResult.error := Some "Max retries exceeded";
     BatchJobResult.duration_ms := Some (now - jobStartTime);
     BatchJobResult.video_duration := None;
     BatchJobResult.is_remix := None;
     BatchJobResult.is_image_to_video := None |}.

(** The [for] loop from [attempt] on, entered at instant [now];
    [iterations] is the number of values of [attempt] for which
    [attempt <= maxRetries] still holds, so that [O] is the exit of the
    loop. *)
Fixpoint retryLoop (iterations : nat) (attempt : nat) (now : Z) : JobRun :=
  match iterations with
  | O =>
      {| run_result := exhaustedResult now;
         run_finished := now;
         run_actions := [] |}
  | S iterations' =>
      let answer := executor executorCall attempt in
      let finished := now + elapsed answer in
      let invoked := Invoked executorCall attempt now finished in
      match attemptSettled (outcome answer) with
      | inl result =>
          {| run_result := completedResult result finished;
             run_finished := finished;
             run_actions := [invoked] |}
      | inr message =>
          if (Z.of_nat attempt <? maxRetries retryPolicy)
             && shouldRetry message (retryPatterns retryPolicy)
          then
            let woken :=
              finished + setTimeout_delay (retryDelay retryPolicy) in
            let later := retryLoop iterations' (attempt + 1)%nat woken in
            {| run_result := run_result later;
               run_finished := run_finished later;
               run_actions :=
                 invoked :: Slept (retryDelay retryPolicy) finished woken
                         :: run_actions later |}
          else
            {| run_result := failedResult message finished;
               run_finished := finished;
               run_actions := [invoked] |}
      end
  end.

Definition executeJobWithRetry : JobRun :=
  retryLoop (Z.to_nat (maxRetries retryPolicy + 1)) 0%nat jobStartTime.
End ExecuteJobWithRetry.

(** ** [utils/batch-manager.ts]: costs *)

Definition jobKind (job : BatchJobConfig.t) : JobKind :=
  if truthy_string (BatchJobConfig.remix_video_id job) then remix
  else if truthy_string (BatchJobConfig.input_reference job)
       then image_to_video
       else text_to_video.

(** The six counters of [estimateBatchCost]. *)
Record CostTally : Set := {
  textToVideoCount : nat;
  imageToVideoCount : nat;
  remixCount : nat;
  textToVideoCost : float;
  imageToVideoCost : float;
  remixCost : float
}.

(** The body of the [for ... of config.jobs] loop. *)
Definition tallyJob (config : BatchConfig.t) (tally : CostTally)
    (job : BatchJobConfig.t) : CostTally :=
  let model := effectiveModel job config in
  let size := effectiveSize job config in
  let seconds := effectiveSeconds job config in
  let cost := calculateCost model seconds size in
  if truthy_string (BatchJobConfig.remix_video_id job) then
    {| textToVideoCount := textToVideoCount tally;
       imageToVideoCount := imageToVideoCount tally;
       remixCount := remixCount tally + 1;
       textToVideoCost := textToVideoCost tally;
       imageToVideoCost := imageToVideoCost tally;
       remixCost := (remixCost tally + cost)%float |}
  else if truthy_string (BatchJobConfig.input_reference job) then
    {| textToVideoCount := textToVideoCount tally;
       imageToVideoCount := imageToVideoCount tally + 1;
       remixCount := remixCount tally;
       textToVideoCost := textToVideoCost tally;
       imageToVideoCost := (imageToVideoCost tally + cost)%float;
       remixCost := remixCost tally |}
  else
    {| textToVideoCount := textToVideoCount tally + 1;
       imageToVideoCount := imageToVideoCount tally;
       remixCount := remixCount tally;
       textToVideoCost := (textToVideoCost tally + cost)%float;
       imageToVideoCost := imageToVideoCost tally;
       remixCost := remixCost tally |}.

Definition emptyTally : CostTally :=
  {| textToVideoCount := 0; imageToVideoCount := 0; remixCount := 0;
     textToVideoCost := 0%float; imageToVideoCost := 0%float;
     remixCost := 0%float |}.

Definition breakdownItem (kind : JobKind) (count : nat) (cost : float)
  : list CostBreakdownItem.t :=
  if (0 <? count)%nat
  then [ {| CostBreakdownItem.type := kind;
            CostBreakdownItem.count := count;
            CostBreakdownItem.estimated_cost := cost |} ]
  else [].

Definition estimateBatchCost (config : BatchConfig.t) : CostEstimate.t :=
  let tally := fold_left (tallyJob config) (BatchConfig.jobs config)
                         emptyTally in
  let breakdown :=
    breakdownItem text_to_video (textToVideoCount tally)
                  (textToVideoCost tally)
    ++ breakdownItem image_to_video (imageToVideoCount tally)
                     (imageToVideoCost tally)
    ++ breakdownItem remix (remixCount tally) (remixCost tally) in
  let totalEstimate :=
    (textToVideoCost tally + imageToVideoCost tally + remixCost tally)%float in
  {| CostEstimate.total_jobs := length (BatchConfig.jobs config);
     CostEstimate.estimated_min := (totalEstimate * 0.9)%float;
     CostEstimate.estimated_max := (totalEstimate * 1.2)%float;
     CostEstimate.breakdown := breakdown |}.

(** [config.jobs[result.index - 1]]; reading a field of [undefined]
    throws a [TypeError]. *)
Definition jobOfResult (config : BatchConfig.t) (result : BatchJobResult.t)
  : option BatchJobConfig.t :=
  match BatchJobResult.index result with
  | O => None
  | S i => BatchConfig.jobs config !! i
  end.

Definition calculateTotalCost (results : list BatchJobResult.t)
    (config : BatchConfig.t) : Result float :=
  fold_left
    (fun (total : Result float) (result : BatchJobResult.t) =>
       match total with
       | Throw message => Throw message
       | Ok total =>
           match BatchJobResult.status result,
                 BatchJobResult.video_duration result with
           | completed, Some video_duration =>
               if truthy_number video_duration then
                 match jobOfResult config result with
                 | Some job =>
                     Ok (total + calculateCost (effectiveModel job config)
                                   video_duration
                                   (effectiveSize job config))%float
                 | None =>
                     Throw "Cannot read properties of undefined (reading 'model')"
                 end
               else Ok total
           | _, _ => Ok total
           end
       end)
    results (Ok 0%float).

(** ** [utils/batch-manager.ts]: [executeBatch] on the event loop *)

(** Where the task of one job stands. *)
Inductive Phase : Set :=
| Waiting
    (** suspended in [acquire], its callback in the semaphore's queue *)
| Granted
    (** holds a permit; its continuation is a queued microtask *)
| Resolving (outputPath : string)
    (** awaits [generateUniqueFilePath(outputPath)] *)
| Executing (uniquePath : string) (jobStartTime : Z)
    (** awaits [executeJobWithRetry], entered at [jobStartTime] *)
| Fulfilled
| Rejected (message : string).

(** Where [executeBatch] itself stands. *)
Inductive Coordinator : Set :=
| Racing                          (** awaits [Promise.race] *)
| Grace                           (** awaits [sleep(5000)] *)
| Returned (result : BatchResult.t)
    (** the value of the batch result at the instant of the [return] *)
| Threw (message : string).

(** The state of the event loop.  [results] is the one array that every
    job task pushes to and that the returned [BatchResult] refers to. *)
Record State : Type := {
  now : Z;
  fs : gset string;
  semaphore : Semaphore.t;
  microtasks : list nat;
  phases : list Phase;
  results : list BatchJobResult.t;
  timedOut : bool;
  deadlineTimer : option Z;
  graceTimer : option Z;
  coordinator : Coordinator
}.

(** A task that the event loop runs.  [RunMicrotask] resumes the job at
    the head of the microtask queue; the others are callbacks of the timer
    and I/O phases, which run only when no microtask is queued. *)
Inductive Event : Type :=
| RunMicrotask
| PathResolved (index : nat) (instant : Z)
| JobSettled (index : nat) (executor : Executor)
| DeadlineFired
| GraceElapsed.

#[global] Instance JobStatus_eq_dec : EqDecision JobStatus.
Proof. solve_decision. Defined.

Definition isFulfilled (phase : Phase) : bool :=
  match phase with
  | Fulfilled => true
  | _ => false
  end.

(** [results.sort((a, b) => a.index - b.index)], a stable sort. *)
Fixpoint insertByIndex (x : BatchJobResult.t) (sorted : list BatchJobResult.t)
  : list BatchJobResult.t :=
  match sorted with
  | [] => [x]
  | y :: rest =>
      if (BatchJobResult.index x <=? BatchJobResult.index y)%nat
      then x :: y :: rest
      else y :: insertByIndex x rest
  end.

Definition sortByIndex (results : list BatchJobResult.t)
  : list BatchJobResult.t :=
  foldr insertByIndex [] results.

Definition countStatus (status : JobStatus) (results : list BatchJobResult.t)
  : nat :=
  length (filter (fun r => BatchJobResult.status r = status) results).

Definition cancelledResult (index : nat) (prompt error : string)
  : BatchJobResult.t :=
  {| BatchJobResult.index := index + 1;
     BatchJobResult.prompt := prompt;
     BatchJobResult.status := cancelled;
     BatchJobResult.output_path := None;
     BatchJobResult.video_url := None;
     BatchJobResult.video_id := None;
     BatchJobResult.error := Some error;
     BatchJobResult.duration_ms := None;
     BatchJobResult.video_duration := None;
     BatchJobResult.is_remix := None;
     BatchJobResult.is_image_to_video := None |}.

(** The loop "mark any remaining jobs as cancelled", from job [i] on. *)
Fixpoint cancelRemaining (processedIndices : gset nat) (i : nat)
    (jobs : list BatchJobConfig.t) : list BatchJobResult.t :=
  match jobs with
  | [] => []
  | job :: rest =>
      (if bool_decide ((i + 1)%nat ∈ processedIndices) then []
       else [cancelledResult i (BatchJobConfig.prompt job)
                             "Batch timed out or cancelled"])
      ++ cancelRemaining processedIndices (i + 1) rest
  end.

Section ExecuteBatch.
Context `{PathLib}.
Variables (config : BatchConfig.t) (options : BatchExecutionOptions.t).
(** The instant of the call and the paths that exist then. *)
Variables (startedAt : Z) (files : gset string).

Definition maxConcurrent : Z :=
  or_int (BatchConfig.max_concurrent config) BATCH_DEFAULTS.max_concurrent.
Definition timeout : Z :=
  or_int (BatchConfig.timeout config) BATCH_DEFAULTS.timeout.
Definition pollInterval : Z :=
  or_int (BatchConfig.poll_interval config) BATCH_DEFAULTS.poll_interval.
Definition maxPollAttempts : Z :=
  or_int (BatchConfig.max_poll_attempts config)
         BATCH_DEFAULTS.max_poll_attempts.
Definition outputDir : string :=
  or_string (BatchConfig.output_dir config) "./output".
Definition allowAnyPath : bool :=
  nullish (BatchExecutionOptions.allowAnyPath options) false.

(** Everything after the [try ... catch] around [Promise.race]. *)
Definition finalize (s : State) : State :=
  let processedIndices : gset nat :=
    list_to_set (map BatchJobResult.index (results s)) in
  let results' :=
    sortByIndex
      (results s
       ++ cancelRemaining processedIndices 0 (BatchConfig.jobs config)) in
  let finishedAt := now s in
  {| now := now s; fs := fs s; semaphore := semaphore s;
     microtasks := microtasks s; phases := phases s;
     results := results';
     timedOut := timedOut s;
     deadlineTimer := deadlineTimer s; graceTimer := graceTimer s;
     coordinator :=
       match calculateTotalCost results' config with
       | Ok cost =>
           Returned
             {| BatchResult.total := length (BatchConfig.jobs config);
                BatchResult.succeeded := countStatus completed results';
                BatchResult.failed := countStatus failed results';
                BatchResult.cancelled := countStatus cancelled results';
                BatchResult.results := results';
                BatchResult.started_at := startedAt;
                BatchResult.finished_at := finishedAt;
                BatchResult.total_duration_ms := finishedAt - startedAt;
                BatchResult.estimated_cost := cost |}
       | Throw message => Threw message
       end |}.

Definition setCoordinator (c : Coordinator) (s : State) : State :=
  {| now := now s; fs := fs s; semaphore := semaphore s;
     microtasks := microtasks s; phases := phases s;
     results := results s; timedOut := timedOut s;
     deadlineTimer := deadlineTimer s; graceTimer := graceTimer s;
     coordinator := c |}.

(** The [finally] block of a job task: [semaphore.release()], which may
    resolve the [acquire] of the first waiter; the task then ends in
    [phase]. *)
Definition releaseSlot (index : nat) (phase : Phase) (s : State) : State :=
  let (semaphore', next) := Semaphore.release (semaphore s) in
  let phases1 := <[index := phase]> (phases s) in
  {| now := now s; fs := fs s; semaphore := semaphore';
     microtasks :=
       match next with
       | Some waiter => microtasks s ++ [waiter]
       | None => microtasks s
       end;
     phases :=
       match next with
       | Some waiter => <[waiter := Granted]> phases1
       | None => phases1
       end;
     results := results s; timedOut := timedOut s;
     deadlineTimer := deadlineTimer s; graceTimer := graceTimer s;
     coordinator := coordinator s |}.

(** The end of a job task: after the [finally] block the job's promise
    settles as [phase] says, and with it [Promise.all] and the race if
    they are still pending. *)
Definition settleJob (index : nat) (phase : Phase) (s : State) : State :=
  let s1 := releaseSlot index phase s in
  match coordinator s1 with
  | Racing =>
      match phase with
      | Rejected message => setCoordinator (Threw message) s1
      | _ => if forallb isFulfilled (phases s1) then finalize s1 else s1
      end
  | _ => s1
  end.

Definition pushResult (result : BatchJobResult.t) (s : State) : State :=
  {| now := now s; fs := fs s; semaphore := semaphore s;
     microtasks := microtasks s; phases := phases s;
     results := results s ++ [result];
     timedOut := timedOut s;
     deadlineTimer := deadlineTimer s; graceTimer := graceTimer s;
     coordinator := coordinator s |}.

Definition setPhase (index : nat) (phase : Phase) (s : State) : State :=
  {| now := now s; fs := fs s; semaphore := semaphore s;
     microtasks := microtasks s; phases := <[index := phase]> (phases s);
     results := results s; timedOut := timedOut s;
     deadlineTimer := deadlineTimer s; graceTimer := graceTimer s;
     coordinator := coordinator s |}.

Definition advanceTo (instant : Z) (s : State) : State :=
  {| now := instant; fs := fs s; semaphore := semaphore s;
     microtasks := microtasks s; phases := phases s;
     results := results s; timedOut := timedOut s;
     deadlineTimer := deadlineTimer s; graceTimer := graceTimer s;
     coordinator := coordinator s |}.

(** A callback of the timer or I/O phase may run at [instant] when no
    microtask is queued, the clock does not go back, and no armed timer
    is due earlier. *)
Definition mayRunAt (instant : Z) (s : State) : bool :=
  match microtasks s with
  | [] =>
      (now s <=? instant)
      && match deadlineTimer s with
         | Some due => instant <=? due
         | None => true
         end
      && match graceTimer s with
         | Some due => instant <=? due
         | None => true
         end
  | _ :: _ => false
  end.

(** The body of a job task after [await semaphore.acquire()], up to its
    next [await]. *)
Definition resumeJob (index : nat) (job : BatchJobConfig.t) (s : State)
  : State :=
  if timedOut s then
    settleJob index Fulfilled
      (pushResult
         (cancelledResult index (BatchJobConfig.prompt job)
                          "Batch timed out before job started") s)
  else
    match resolveOutputPath job index outputDir allowAnyPath with
    | Throw message => settleJob index (Rejected message) s
    | Ok outputPath => setPhase index (Resolving outputPath) s
    end.

(** The microtask at the head of the queue is taken off. *)
Definition dequeue (rest : list nat) (s : State) : State :=
  {| now := now s; fs := fs s; semaphore := semaphore s;
     microtasks := rest; phases := phases s;
     results := results s; timedOut := timedOut s;
     deadlineTimer := deadlineTimer s; graceTimer := graceTimer s;
     coordinator := coordinator s |}.

(** The file that a completed job has written. *)
Definition written (result : BatchJobResult.t) : gset string :=
  match BatchJobResult.status result, BatchJobResult.output_path result with
  | completed, Some path => {[ path ]}
  | _, _ => ∅
  end.

Definition writeFiles (paths : gset string) (s : State) : State :=
  {| now := now s; fs := fs s ∪ paths; semaphore := semaphore s;
     microtasks := microtasks s; phases := phases s;
     results := results s; timedOut := timedOut s;
     deadlineTimer := deadlineTimer s; graceTimer := graceTimer s;
     coordinator := coordinator s |}.

(** The callback of the deadline timer: [timedOut = true; reject(...)].
    If the race is still pending, [executeBatch] goes on in its [catch]
    clause and arms the timer of [sleep(5000)]. *)
Definition fireDeadline (due : Z) (s : State) : State :=
  {| now := due; fs := fs s; semaphore := semaphore s;
     microtasks := microtasks s; phases := phases s;
     results := results s;
     timedOut := true;
     deadlineTimer := None;
     graceTimer :=
       match coordinator s with
       | Racing => Some (due + setTimeout_delay 5000)
       | _ => graceTimer s
       end;
     coordinator :=
       match coordinator s with
       | Racing => Grace
       | c => c
       end |}.

(** The timer of [sleep(5000)] fires. *)
Definition endGrace (due : Z) (s : State) : State :=
  {| now := due; fs := fs s; semaphore := semaphore s;
     microtasks := microtasks s; phases := phases s;
     results := results s; timedOut := timedOut s;
     deadlineTimer := deadlineTimer s;
     graceTimer := None;
     coordinator := coordinator s |}.

(** One task of the event loop; [None] when the event loop cannot run
    that task in that state. *)
Definition step (e : Event) (s : State) : option State :=
  match e with
  | RunMicrotask =>
      match microtasks s with
      | [] => None
      | index :: rest =>
          match phases s !! index, BatchConfig.jobs config !! index with
          | Some Granted, Some job =>
              Some (resumeJob index job (dequeue rest s))
          | _, _ => None
          end
      end
  | PathResolved index instant =>
      match phases s !! index with
      | Some (Resolving outputPath) =>
          if mayRunAt instant s then
            match generateUniqueFilePath (fs s) outputPath with
            | Some uniquePath =>
                Some (setPhase index (Executing uniquePath instant)
                        (advanceTo instant s))
            | None => None
            end
          else None
      | _ => None
      end
  | JobSettled index executor =>
      match phases s !! index, BatchConfig.jobs config !! index with
      | Some (Executing uniquePath jobStartTime), Some job =>
          let run :=
            executeJobWithRetry job index uniquePath config pollInterval
              maxPollAttempts (effectiveRetryPolicy config) executor
              jobStartTime in
          if mayRunAt (run_finished run) s then
            Some (settleJob index Fulfilled
                    (pushResult (run_result run)
                       (writeFiles (written (run_result run))
                          (advanceTo (run_finished run) s))))
          else None
      | _, _ => None
      end
  | DeadlineFired =>
      match deadlineTimer s with
      | Some due => if mayRunAt due s then Some (fireDeadline due s) else None
      | None => None
      end
  | GraceElapsed =>
      match graceTimer s with
      | Some due =>
          if mayRunAt due s then Some (finalize (endGrace due s)) else None
      | None => None
      end
  end.

(** The [for] loop that creates the job tasks: each task runs up to its
    [await semaphore.acquire()]. *)
Definition launchJob
    (acc : Semaphore.t * list nat * list Phase) (index : nat)
  : Semaphore.t * list nat * list Phase :=
  let '(sem, micro, phs) := acc in
  let (sem', granted) := Semaphore.acquire index sem in
  if granted then (sem', micro ++ [index], phs ++ [Granted])
  else (sem', micro, phs ++ [Waiting]).

Definition launch : Semaphore.t * list nat * list Phase :=
  fold_left launchJob (seq 0 (length (BatchConfig.jobs config)))
            (Semaphore.new maxConcurrent, [], []).

(** The state in which [executeBatch] first yields to the event loop:
    all job tasks are created and the deadline timer is armed.  With no
    job at all [Promise.all] is fulfilled at once. *)
Definition initial : State :=
  let '(sem, micro, phs) := launch in
  let s :=
    {| now := startedAt; fs := files; semaphore := sem;
       microtasks := micro; phases := phs; results := [];
       timedOut := false;
       deadlineTimer := Some (startedAt + setTimeout_delay timeout);
       graceTimer := None;
       coordinator := Racing |} in
  if forallb isFulfilled phs then finalize s else s.

(** The state after the event loop ran the given tasks in order. *)
Fixpoint runFrom (s : State) (trace : list Event) : option State :=
  match trace with
  | [] => Some s
  | e :: rest =>
      match step e s with
      | Some s' => runFrom s' rest
      | None => None
      end
  end.

Definition run (trace : list Event) : option State := runFrom initial trace.

(** Jobs that hold a permit: acquired and not yet released. *)
Definition holdsPermit (phase : Phase) : bool :=
  match phase with
  | Granted | Resolving _ | Executing _ _ => true
  | Waiting | Fulfilled | Rejected _ => false
  end.

(** Jobs inside [executeJobWithRetry], where the Job Executor is called. *)
Definition isExecuting (phase : Phase) : bool :=
  match phase with
  | Executing _ _ => true
  | _ => false
  end.

Definition inFlight (s : State) : nat :=
  length (filter (fun p => holdsPermit p = true) (phases s)).

Definition executing (s : State) : nat :=
  length (filter (fun p => isExecuting p = true) (phases s)).
End ExecuteBatch.

(** ** A sample of Node's POSIX [path] module

    Used to evaluate the model on concrete batches.  It agrees with Node on
    paths without [..] segments, doubled or trailing slashes, for a process
    whose working directory is [/work]. *)

(** The part of [s] after the last occurrence of [c]. *)
Fixpoint afterLast (c : ascii) (s : string) : option string :=
  match s with
  | EmptyString => None
  | String a rest =>
      match afterLast c rest with
      | Some tail => Some tail
      | None => if Ascii.eqb a c then Some rest else None
      end
  end.

(** The part of [s] before the last occurrence of [c]. *)
Fixpoint beforeLast (c : ascii) (s : string) : option string :=
  match s with
  | EmptyString => None
  | String a rest =>
      match beforeLast c rest with
      | Some head => Some (String a head)
      | None => if Ascii.eqb a c then Some EmptyString else None
      end
  end.

Definition stripDotSlash (s : string) : string :=
  match s with
  | String "." (String "/" rest) => rest
  | _ => s
  end.

Definition sample_basename (p : string) : string :=
  nullish (afterLast "/" p) p.

Definition sample_extname (p : string) : string :=
  let b := sample_basename p in
  match beforeLast "." b, afterLast "." b with
  | Some (String _ _), Some e => "." +:+ e
  | _, _ => ""
  end.

Definition sample_join (a b : string) : string :=
  match stripDotSlash a with
  | EmptyString => b
  | String "." EmptyString => b
  | a' => a' +:+ "/" +:+ b
  end.

#[global] Instance posixSample : PathLib := {|
  path_isAbsolute p := startsWith p "/";
  path_resolve p :=
    if startsWith p "/" then p else sample_join "/work" (stripDotSlash p);
  path_join := sample_join;
  path_dirname p :=
    match beforeLast "/" p with
    | Some EmptyString => "/"
    | Some d => d
    | None => "."
    end;
  path_extname := sample_extname;
  path_basename p ext :=
    let b := sample_basename p in
    match ext with
    | EmptyString => b
    | _ =>
        let n := (String.length b - String.length ext)%nat in
        if String.eqb (String.substring n (String.length ext) b) ext
           && (0 <? n)%nat
        then String.substring 0 n b
        else b
    end
|}.

(** ** Notions that the properties are stated with *)

Definition isInvoked (a : JobAction) : bool :=
  match a with
  | Invoked _ _ _ _ => true
  | Slept _ _ _ => false
  end.

(** The number of calls of the Job Executor in a run. *)
Definition invocations (r : JobRun) : nat :=
  length (filter (fun a => isInvoked a = true) (run_actions r)).

Section RetrySchedule.
Variables (call : ExecutorCall) (executor : Executor)
          (retryDelay : Z) (jobStartTime : Z).

(** The instant at which attempt [a] starts when every earlier attempt
    was followed by the retry delay. *)
Fixpoint attemptStart (a : nat) : Z :=
  match a with
  | O => jobStartTime
  | S a' =>
      attemptStart a' + elapsed (executor call a')
      + setTimeout_delay retryDelay
  end.

Definition attemptFinish (a : nat) : Z :=
  attemptStart a + elapsed (executor call a).

(** The actions of a run that makes [S retries] calls from attempt [a]
    on: every call but the last is followed by a sleep of [retryDelay]. *)
Fixpoint retrySchedule (retries : nat) (a : nat) : list JobAction :=
  match retries with
  | O => [Invoked call a (attemptStart a) (attemptFinish a)]
  | S retries' =>
      Invoked call a (attemptStart a) (attemptFinish a)
      :: Slept retryDelay (attemptFinish a) (attemptStart (S a))
      :: retrySchedule retries' (S a)
  end.
End RetrySchedule.

#[global] Instance JobKind_eq_dec : EqDecision JobKind.
Proof. solve_decision. Defined.

(** The nominal cost of one job: price per second times duration. *)
Definition nominalCost (config : BatchConfig.t) (job : BatchJobConfig.t)
  : float :=
  (pricePerSecond (effectiveModel job config) (effectiveSize job config)
   * effectiveSeconds job config)%float.

(** The nominal costs of the jobs of one kind, added up in batch order. *)
Definition kindSubtotal (config : BatchConfig.t) (kind : JobKind) : float :=
  fold_left (fun total job => (total + nominalCost config job)%float)
            (filter (fun job => jobKind job = kind) (BatchConfig.jobs config))
            0%float.

Definition nominalTotal (config : BatchConfig.t) : float :=
  (kindSubtotal config text_to_video + kindSubtotal config image_to_video
   + kindSubtotal config remix)%float.

(** ** Sample data

    Concrete jobs, batches and executors on which the properties below are
    evaluated. *)

Definition sampleJob (prompt : string) (output_path : option string)
  : BatchJobConfig.t :=
  {| BatchJobConfig.prompt := prompt;
     BatchJobConfig.output_path := output_path;
     BatchJobConfig.model := None;
     BatchJobConfig.size := None;
     BatchJobConfig.seconds := None;
     BatchJobConfig.input_reference := None;
     BatchJobConfig.remix_video_id := None |}.

Definition sampleBatch (jobs : list BatchJobConfig.t)
    (max_concurrent timeout : option Z) : BatchConfig.t :=
  {| BatchConfig.jobs := jobs;
     BatchConfig.output_dir := Some "out";
     BatchConfig.max_concurrent := max_concurrent;
     BatchConfig.timeout := timeout;
     BatchConfig.poll_interval := None;
     BatchConfig.max_poll_attempts := None;
     BatchConfig.retry_policy := None;
     BatchConfig.default_model := None;
     BatchConfig.default_size := None;
     BatchConfig.default_seconds := None |}.

Definition sampleOptions : BatchExecutionOptions.t :=
  {| BatchExecutionOptions.allowAnyPath := None |}.

Definition outputPathOf (call : ExecutorCall) : string :=
  match call with
  | remixVideo _ _ output_path _ _ => output_path
  | generateVideo _ _ _ _ _ output_path _ _ => output_path
  end.

Definition succeededWith (call : ExecutorCall) : CallOutcome :=
  Returns
    {| VideoGenerationResult.success := true;
       VideoGenerationResult.video_id := Some "video_1";
       VideoGenerationResult.video_url := None;
       VideoGenerationResult.output_path := Some (outputPathOf call);
       VideoGenerationResult.duration := Some 4%float;
       VideoGenerationResult.error := None |}.

Definition failedWith (error : string) : CallOutcome :=
  Returns
    {| VideoGenerationResult.success := false;
       VideoGenerationResult.video_id := None;
       VideoGenerationResult.video_url := None;
       VideoGenerationResult.output_path := None;
       VideoGenerationResult.duration := None;
       VideoGenerationResult.error := Some error |}.

(** An executor whose every call takes [ms] and succeeds. *)
Definition steadyExecutor (ms : Z) : Executor :=
  fun call _ => {| elapsed := ms; outcome := succeededWith call |}.

(** An executor that is rate-limited twice and then succeeds; every call
    takes [ms]. *)
Definition rateLimitedTwice (ms : Z) : Executor :=
  fun call attempt =>
    {| elapsed := ms;
       outcome :=
         match attempt with
         | 0%nat => failedWith "API error: 429 - Too Many Requests"
         | 1%nat => failedWith "Rate limit exceeded. HTTP 429."
         | _ => succeededWith call
         end |}.

(** An executor that always fails with the given message. *)
Definition failingExecutor (ms : Z) (error : string) : Executor :=
  fun _ _ => {| elapsed := ms; outcome := failedWith error |}.

Definition defaultRetryPolicy : EffectiveRetryPolicy :=
  {| maxRetries := BATCH_DEFAULTS.retry_max_retries;
     retryDelay := BATCH_DEFAULTS.retry_delay_ms;
     retryPatterns := BATCH_DEFAULTS.retry_on_errors |}.

(** A batch whose retry policy has an explicitly empty pattern list. *)
Definition noRetryPatterns : RetryPolicy.t :=
  {| RetryPolicy.max_retries := Some 5;
     RetryPolicy.retry_delay_ms := None;
     RetryPolicy.retry_on_errors := Some [] |}.

Definition noRetryBatch : BatchConfig.t :=
  {| BatchConfig.jobs := [sampleJob "a cat" None];
     BatchConfig.output_dir := Some "out";
     BatchConfig.max_concurrent := None;
     BatchConfig.timeout := None;
     BatchConfig.poll_interval := None;
     BatchConfig.max_poll_attempts := None;
     BatchConfig.retry_policy := Some noRetryPatterns;
     BatchConfig.default_model := None;
     BatchConfig.default_size := None;
     BatchConfig.default_seconds := None |}.

(** The job of the cost example: [sora-2], 1280x720, 8 seconds. *)
Definition eightSecondJob : BatchJobConfig.t :=
  {| BatchJobConfig.prompt := "a cat";
     BatchJobConfig.output_path := None;
     BatchJobConfig.model := Some sora_2;
     BatchJobConfig.size := Some size_1280x720;
     BatchJobConfig.seconds := Some 8%float;
     BatchJobConfig.input_reference := None;
     BatchJobConfig.remix_video_id := None |}.

(** Three jobs without output paths, at most two at a time. *)
Definition threeJobs : BatchConfig.t :=
  sampleBatch [sampleJob "a cat" None; sampleJob "a dog" None;
               sampleJob "a bird" None] (Some 2) (Some 60000).

(** Two jobs that ask for the same output file, both at a time. *)
Definition sameOutput : BatchConfig.t :=
  sampleBatch [sampleJob "a cat" (Some "clip.mp4");
               sampleJob "a dog" (Some "clip.mp4")] (Some 2) (Some 60000).

(** A job that asks for a file outside the output directory, followed by a
    job that asks for nothing special. *)
Definition outsideOutput : BatchConfig.t :=
  sampleBatch [sampleJob "a cat" (Some "/etc/clip.mp4");
               sampleJob "a dog" None] (Some 1) (Some 60000).

(** Two jobs, one at a time, under a deadline of 100 ms. *)
Definition shortDeadline : BatchConfig.t :=
  sampleBatch [sampleJob "a cat" None; sampleJob "a dog" None]
              (Some 1) (Some 100).

(** A run of [threeJobs]: the second job finishes first, the first job
    fails, the third one starts when the second has finished. *)
Definition threeJobsTrace : list Event :=
  [RunMicrotask; RunMicrotask; PathResolved 0 3; PathResolved 1 4;
   JobSettled 1 (steadyExecutor 9000); RunMicrotask; PathResolved 2 9005;
   JobSettled 0 (failingExecutor 20000 "content policy violation");
   JobSettled 2 (steadyExecutor 30000)].

(** A run of [threeJobs] up to the point where two jobs are executing and
    the third one waits. *)
Definition twoExecuting : list Event :=
  [RunMicrotask; RunMicrotask; PathResolved 0 3; PathResolved 1 4].

(** A run of [sameOutput] up to the point where both jobs have their
    output path. *)
Definition bothResolved : list Event :=
  [RunMicrotask; RunMicrotask; PathResolved 0 3; PathResolved 1 4].

(** A run of [shortDeadline] in which the first job fails after the
    deadline, so that the second one is cancelled when it is resumed. *)
Definition cancelledOnResume : list Event :=
  [RunMicrotask; PathResolved 0 3; DeadlineFired;
   JobSettled 0 (failingExecutor 2000 "content policy violation");
   RunMicrotask].

(** A run of [shortDeadline] in which the first job is still executing,
    and the second one still waiting, when the grace window ends. *)
Definition deadlinePassed : list Event :=
  [RunMicrotask; PathResolved 0 3; DeadlineFired; GraceElapsed].

(** ** Invariants of the event loop *)

(** Jobs that hold a permit, counted over a list of phases. *)
Definition permitsHeld (phs : list Phase) : nat :=
  length (filter (fun p => holdsPermit p = true) phs).

(** The semaphore, the microtask queue and the phases fit together; the
    job [resumed], if any, is the one whose continuation is running: it is
    still [Granted] but no longer queued. *)
Definition coherent (maxConcurrent : Z) (jobCount : nat)
    (resumed : option nat)
    (sem : Semaphore.t) (micro : list nat) (phs : list Phase) : Prop :=
  length phs = jobCount /\
  NoDup micro /\
  (forall i, i ∈ micro <-> Some i <> resumed /\ phs !! i = Some Granted) /\
  NoDup (Semaphore.queue sem) /\
  (forall i, i ∈ Semaphore.queue sem <-> phs !! i = Some Waiting) /\
  Semaphore.permits sem + Z.of_nat (permitsHeld phs) = maxConcurrent /\
  (Semaphore.queue sem <> [] -> Semaphore.permits sem <= 0) /\
  (0 <= maxConcurrent -> 0 <= Semaphore.permits sem).

Definition structured (config : BatchConfig.t) (s : State) : Prop :=
  coherent (maxConcurrent config) (length (BatchConfig.jobs config)) None
           (semaphore s) (microtasks s) (phases s).

(** The order that [results.sort] establishes. *)
Definition byIndex (a b : BatchJobResult.t) : Prop :=
  (BatchJobResult.index a <= BatchJobResult.index b)%nat.

(** The results array while [executeBatch] has not finished: every entry
    belongs to a job whose task is fulfilled, and no job has two. *)
Definition recorded (s : State) : Prop :=
  NoDup (map BatchJobResult.index (results s)) /\
  forall r, r ∈ results s ->
    exists i, BatchJobResult.index r = (i + 1)%nat /\
              phases s !! i = Some Fulfilled.

(** The array that [finalize] leaves: the recorded outcomes and a
    cancellation for every other job, sorted. *)
Definition finalResults (config : BatchConfig.t) (s : State)
  : list BatchJobResult.t :=
  sortByIndex
    (results s
     ++ cancelRemaining
          (list_to_set (map BatchJobResult.index (results s))) 0
          (BatchConfig.jobs config)).

(** A batch result with one outcome per job, in the order of the jobs, and
    counts that add up. *)
Definition wellFormed (config : BatchConfig.t) (r : BatchResult.t) : Prop :=
  map BatchJobResult.index (BatchResult.results r)
  = seq 1 (length (BatchConfig.jobs config)) /\
  BatchResult.total r = length (BatchConfig.jobs config) /\
  BatchResult.succeeded r = countStatus completed (BatchResult.results r) /\
  BatchResult.failed r = countStatus failed (BatchResult.results r) /\
  BatchResult.cancelled r = countStatus cancelled (BatchResult.results r) /\
  (BatchResult.succeeded r + BatchResult.failed r + BatchResult.cancelled r
   = BatchResult.total r)%nat.

Section Accounting.
Context `{PathLib}.
Variables (config : BatchConfig.t) (options : BatchExecutionOptions.t).

(** [message] is the error that [resolveOutputPath] throws for a job of
    the batch. *)
Definition pathError (message : string) : Prop :=
  exists i job,
    BatchConfig.jobs config !! i = Some job /\
    resolveOutputPath job i (outputDir config) (allowAnyPath options)
    = Throw message.

(** What holds of the results at each stage of [executeBatch]. *)
Definition accounted (s : State) : Prop :=
  match coordinator s with
  | Racing | Grace => recorded s
  | Returned r => wellFormed config r
  | Threw message => pathError message
  end.

(** The timers that are armed at each stage of [executeBatch]. *)
Definition timed (s : State) : Prop :=
  match coordinator s with
  | Racing =>
      timedOut s = false /\ graceTimer s = None /\
      exists due, deadlineTimer s = Some due /\ now s <= due
  | Grace =>
      timedOut s = true /\ deadlineTimer s = None /\
      exists due, graceTimer s = Some due /\ now s <= due
  | Returned _ | Threw _ => graceTimer s = None
  end.

(** A job that awaits [generateUniqueFilePath] passed it the path that
    [resolveOutputPath] gave for it. *)
Definition resolvedPaths (s : State) : Prop :=
  forall i outputPath,
    phases s !! i = Some (Resolving outputPath) ->
    exists job,
      BatchConfig.jobs config !! i = Some job /\
      resolveOutputPath job i (outputDir config) (allowAnyPath options)
      = Ok outputPath.
End Accounting.

(** A cancelled outcome names no output path. *)
Definition cancelledUnnamed (r : BatchJobResult.t) : Prop :=
  BatchJobResult.status r = cancelled -> BatchJobResult.output_path r = None.

Definition noPathForCancelled (s : State) : Prop :=
  Forall cancelledUnnamed (results s) /\
  forall r, coordinator s = Returned r ->
            Forall cancelledUnnamed (BatchResult.results r).

(** Everything that holds of a state that the event loop can reach. *)
Definition sound `{PathLib} (config : BatchConfig.t)
    (options : BatchExecutionOptions.t) (s : State) : Prop :=
  structured config s /\
  timed s /\
  accounted config options s /\
  resolvedPaths config options s /\
  noPathForCancelled s.

(** The tasks that need no answer from the environment: microtasks and the
    two timers. *)
Definition isInternal (e : Event) : Prop :=
  match e with
  | RunMicrotask | DeadlineFired | GraceElapsed => True
  | PathResolved _ _ | JobSettled _ _ => False
  end.

(** Every call of the Job Executor that a settled job of the trace made
    took at least [ms]. *)
Definition slowExecutors (ms : Z) (trace : list Event) : Prop :=
  Forall (fun e => match e with
                   | JobSettled _ executor =>
                       forall call n, ms <= elapsed (executor call n)
                   | _ => True
                   end) trace.

(** The outcomes of a batch none of whose jobs has an outcome recorded. *)
Definition allCancelled (config : BatchConfig.t) : list BatchJobResult.t :=
  imap (fun i job => cancelledResult i (BatchJobConfig.prompt job)
                                     "Batch timed out or cancelled")
       (BatchConfig.jobs config).

(** What holds along a run under a deadline of 100 ms when every call of
    the Job Executor takes 10 s: nothing is recorded before the grace
    window has elapsed. *)
Definition quiet (config : BatchConfig.t) (startedAt : Z) (s : State)
  : Prop :=
  startedAt <= now s /\
  (forall i uniquePath jobStartTime,
     phases s !! i = Some (Executing uniquePath jobStartTime) ->
     startedAt <= jobStartTime) /\
  match coordinator s with
  | Racing =>
      results s = [] /\ deadlineTimer s = Some (startedAt + 100)
  | Grace =>
      results s = [] /\ microtasks s = [] /\
      graceTimer s = Some (startedAt + 100 + 5000)
  | Returned r =>
      BatchResult.results r = allCancelled config /\
      (BatchResult.finished_at r = startedAt + 100 + 5000 \/
       BatchConfig.jobs config = [])
  | Threw _ => True
  end.

From Stdlib Require SpecFloat FloatOps FloatAxioms QArith Qround.

(** ** Further notions: the semaphore under arbitrary use *)

(** One call of a method of the semaphore; [caller] names the task that
    awaits the promise of [acquire]. *)
Inductive SemaphoreCall : Set :=
| CallAcquire (caller : nat)
| CallRelease.

(** The semaphore after a series of calls, with the tasks whose [acquire]
    promise has been resolved, in the order of their resolution. *)
Record SemaphoreUse : Set := {
  used : Semaphore.t;
  resolved : list nat
}.

Definition semaphoreCall (u : SemaphoreUse) (c : SemaphoreCall)
  : SemaphoreUse :=
  match c with
  | CallAcquire caller =>
      let '(s, now) := Semaphore.acquire caller (used u) in
      {| used := s;
         resolved := if now then resolved u ++ [caller] else resolved u |}
  | CallRelease =>
      let '(s, next) := Semaphore.release (used u) in
      {| used := s;
         resolved := match next with
                     | Some waiter => resolved u ++ [waiter]
                     | None => resolved u
                     end |}
  end.

Definition semaphoreUse (permits : Z) (calls : list SemaphoreCall)
  : SemaphoreUse :=
  fold_left semaphoreCall calls
            {| used := Semaphore.new permits; resolved := [] |}.

(** The tasks that called [acquire], in the order of their calls. *)
Definition acquirers (calls : list SemaphoreCall) : list nat :=
  omap (fun c => match c with
                 | CallAcquire caller => Some caller
                 | CallRelease => None
                 end) calls.

Definition releases (calls : list SemaphoreCall) : list unit :=
  omap (fun c => match c with
                 | CallAcquire _ => None
                 | CallRelease => Some tt
                 end) calls.
(** ** [tools/generate.ts], [tools/remix.ts]: a request that is refused *)

(** What [JSON.parse(errorText)] followed by [errorJson.error?.message]
    gives: [None] when that throws (the body is no JSON text, or it is
    [null]), else the message found, if there is one. *)
Definition ErrorJson : Set := option (option string).

(** The error message for a response that is not [ok], before the status
    is looked at. *)
Definition errorMessage (status : nat) (errorText : string)
    (errorJson : ErrorJson) : string :=
  let errorMessage := "API error: " +:+ pretty status in
  match errorJson with
  | Some message =>
      if truthy_string message then nullish message "" else errorMessage
  | None => errorMessage +:+ " - " +:+ errorText
  end.

(** The message of the error that [generateVideo] throws, and reports in
    its result, for a response that is not [ok]. *)
Definition generateVideo_refused (status : nat) (errorText : string)
    (errorJson : ErrorJson) : string :=
  if (status =? 401)%nat
  then "Authentication failed. Please check your OPENAI_API_KEY."
  else if (status =? 403)%nat
  then "Access denied. Sora 2 requires Tier 2+ API access ($10+ credit purchase)."
  else if (status =? 429)%nat
  then "Rate limit exceeded. Please wait and try again."
  else errorMessage status errorText errorJson.

(** ** [utils/video.ts]: [pollVideoResult] *)

(** The fields of [SoraVideoResponse] that the sources read; [status] is
    whatever string the server sent. *)
Module SoraVideoResponse.
Record t : Set := {
  id : string;
  status : string;
  video_url : option string;
  duration : option float;
  error : option string;
  failure_reason : option string;
  n_seconds : option float
}.
End SoraVideoResponse.

Definition isCompleted (status : string) : bool :=
  String.eqb status "completed" || String.eqb status "succeeded".

Definition isFailed (status : string) : bool :=
  String.eqb status "failed" || String.eqb status "cancelled".

Definition isPending (status : string) : bool :=
  String.eqb status "queued" || String.eqb status "in_progress"
  || String.eqb status "running" || String.eqb status "preprocessing"
  || String.eqb status "processing".

(** What one [fetch] of the status endpoint comes to: the promise is
    rejected, or a response arrives, of which [text()] and [json()] may in
    turn fail. *)
Inductive PollAnswer : Set :=
| FetchRejected (message : string)
| Response (status : nat) (text : Result string)
    (json : Result SoraVideoResponse.t).

(** [response.ok] *)
Definition Response_ok (status : nat) : bool :=
  (200 <=? status)%nat && (status <=? 299)%nat.

(** The server as the poll loop sees it: the answer to its request number
    [attempt] (from 1). *)
Definition VideoServer : Set := nat -> PollAnswer.

Inductive PollAction : Set :=
| Requested (attempt : nat)
| Waited (ms : Z).

Record PollRun : Set := {
  poll_result : Result SoraVideoResponse.t;
  poll_actions : list PollAction
}.

(** How the [try] block of one attempt ends. *)
Inductive PollStep : Set :=
| PollReturn (result : SoraVideoResponse.t)
| PollThrow (message : string)
| PollContinue (slept : bool).

Section PollVideoResult.
Variables (server : VideoServer) (pollInterval maxAttempts : Z).

(** The [try] block, called without [onProgress]. *)
Definition pollOnce (attempt : nat) : PollStep :=
  match server attempt with
  | FetchRejected message => PollThrow message
  | Response status text json =>
      if (500 <=? status)%nat && (Z.of_nat attempt <? maxAttempts)
      then PollContinue true
      else if negb (Response_ok status) then
        match text with
        | Ok errorText =>
            PollThrow ("API error: " +:+ pretty status +:+ " - "
                       +:+ errorText)
        | Throw message => PollThrow message
        end
      else
        match json with
        | Throw message => PollThrow message
        | Ok result =>
            let status := SoraVideoResponse.status result in
            if isCompleted status then PollReturn result
            else if isFailed status then
              PollThrow
                ("Video generation failed: " +:+
                 or_string (SoraVideoResponse.failure_reason result)
                   (or_string (SoraVideoResponse.error result) status))
            else PollContinue
                   ((Z.of_nat attempt <? maxAttempts) && isPending status)
        end
  end.

(** [Math.round((maxAttempts * pollInterval) / 60000)] *)
Definition timeoutMinutes : Z :=
  (2 * (maxAttempts * pollInterval) + 60000) / 120000.

(** The [for] loop from [attempt] on; [iterations] is the number of values
    of [attempt] for which [attempt <= maxAttempts] still holds. *)
Fixpoint pollLoop (iterations : nat) (attempt : nat) : PollRun :=
  match iterations with
  | O =>
      {| poll_result :=
           Throw ("Video generation timed out after " +:+ pretty maxAttempts
                  +:+ " attempts (" +:+ pretty timeoutMinutes
                  +:+ " minutes)");
         poll_actions := [] |}
  | S iterations' =>
      let later := pollLoop iterations' (attempt + 1)%nat in
      match pollOnce attempt with
      | PollReturn result =>
          {| poll_result := Ok result;
             poll_actions := [Requested attempt] |}
      | PollContinue slept =>
          {| poll_result := poll_result later;
             poll_actions :=
               Requested attempt
               :: (if slept then [Waited pollInterval] else [])
               ++ poll_actions later |}
      | PollThrow message =>
          if Z.of_nat attempt =? maxAttempts then
            {| poll_result := Throw message;
               poll_actions := [Requested attempt] |}
          else
            {| poll_result := poll_result later;
               poll_actions :=
                 Requested attempt :: Waited pollInterval
                 :: poll_actions later |}
      end
  end.

Definition pollVideoResult : PollRun :=
  pollLoop (Z.to_nat maxAttempts) 1%nat.
End PollVideoResult.

Definition isRequested (a : PollAction) : bool :=
  match a with
  | Requested _ => true
  | Waited _ => false
  end.

(** The number of requests that a run of the poll loop made. *)
Definition requests (r : PollRun) : nat :=
  length (filter (fun a => isRequested a = true) (poll_actions r)).

Definition waits (r : PollRun) : nat :=
  length (filter (fun a => isRequested a = false) (poll_actions r)).


(** A server that answers 404 to the first request, reports the video as
    failed at the second and as completed from the third on. *)
Definition recoveringVideo : VideoServer :=
  fun attempt =>
    match attempt with
    | 1%nat => Response 404 (Ok "not found") (Throw "Unexpected token")
    | _ =>
        Response 200 (Ok "")
          (Ok {| SoraVideoResponse.id := "video_1";
                 SoraVideoResponse.status :=
                   if (attempt <=? 2)%nat then "failed" else "completed";
                 SoraVideoResponse.video_url := None;
                 SoraVideoResponse.duration := Some 8%float;
                 SoraVideoResponse.error := None;
                 SoraVideoResponse.failure_reason := None;
                 SoraVideoResponse.n_seconds := None |})
    end.
(** ** [types/tools.ts]: the validation helpers *)

(** The string literal that each [Model] is at run time. *)
Definition Model_literal (model : Model) : string :=
  match model with
  | sora_2 => "sora-2"
  | sora_2_pro => "sora-2-pro"
  end.

Definition MODELS : list string := ["sora-2"; "sora-2-pro"].

Definition SIZES : list string :=
  ["1920x1080"; "1280x720"; "1080x1920"; "720x1280"; "1080x1080";
   "480x480"].

Definition DURATIONS (model : Model) : list float :=
  match model with
  | sora_2 => [4; 8; 12]%float
  | sora_2_pro => [10; 15; 25]%float
  end.

Definition isValidModel (model : string) : bool :=
  existsb (String.eqb model) MODELS.

Definition isValidSize (size : string) : bool :=
  existsb (String.eqb size) SIZES.

(** [isValidDuration] on a number; a string would first go through
    [parseInt]. *)
Definition isValidDuration (model : Model) (seconds : float) : bool :=
  existsb (fun allowed => (allowed =? seconds)%float) (DURATIONS model).

Definition getValidDurations (model : Model) : list float :=
  DURATIONS model.

(** [DURATIONS[model][0]] *)
Definition getDefaultDuration (model : Model) : float :=
  match DURATIONS model with
  | first :: _ => first
  | [] => nan
  end.

(** ** [utils/batch-config.ts]: validation *)

(** The white space below 128 that [trim] removes. *)
Definition isWhiteSpace (c : ascii) : bool :=
  let n := nat_of_ascii c in
  ((9 <=? n) && (n <=? 13) || (n =? 32))%nat.

Fixpoint trimStart (s : string) : string :=
  match s with
  | EmptyString => EmptyString
  | String c rest => if isWhiteSpace c then trimStart rest else s
  end.

Fixpoint trimEnd (s : string) : string :=
  match s with
  | EmptyString => EmptyString
  | String c rest =>
      match trimEnd rest with
      | EmptyString => if isWhiteSpace c then EmptyString
                       else String c EmptyString
      | rest' => String c rest'
      end
  end.

(** [s.trim()], on strings of characters below 128. *)
Definition trim (s : string) : string := trimEnd (trimStart s).

(** A job as [JSON.parse] delivers it, before it is known to be a
    [BatchJobConfig]: each field is absent or holds a value of the
    primitive type that the interface declares, but a model or a size is
    any string. *)
Module LoadedJob.
Record t : Set := {
  prompt : option string;
  output_path : option string;
  model : option string;
  size : option string;
  seconds : option float;
  input_reference : option string;
  remix_video_id : option string
}.
End LoadedJob.

(** [jobs] is [None] when the field is absent or is no array. *)
Module LoadedConfig.
Record t : Set := {
  jobs : option (list LoadedJob.t);
  output_dir : option string;
  max_concurrent : option Z;
  timeout : option Z;
  poll_interval : option Z;
  max_poll_attempts : option Z;
  retry_policy : option RetryPolicy.t;
  default_model : option string;
  default_size : option string;
  default_seconds : option float
}.
End LoadedConfig.

Module BATCH_LIMITS.
Definition min_jobs : nat := 1.
Definition max_jobs : nat := 100.
Definition min_concurrent : Z := 1.
Definition max_concurrent : Z := 5.
Definition min_timeout : Z := 60000.
Definition max_timeout : Z := 3600000.
Definition min_poll_interval : Z := 5000.
Definition max_poll_interval : Z := 60000.
Definition min_retry : Z := 0.
Definition max_retry : Z := 5.
Definition min_retry_delay : Z := 100.
Definition max_retry_delay : Z := 60000.
End BATCH_LIMITS.

(** The errors that [validateJobConfig] throws, one for each [throw]
    statement, with the values that its message quotes. *)
Inductive JobConfigError : Set :=
| PromptRequired
| InvalidJobModel (model : string)
| InvalidJobSize (size : string)
| InvalidJobSeconds (seconds : float) (model : Model)
| RemixAndInputReference
| RemixWithSeconds
| RemixWithSize
| RemixWithModel.

(** The errors that [validateBatchConfig] throws; [index] counts the jobs
    from 0, the message says [Job (index + 1)]. *)
Inductive BatchConfigError : Set :=
| JobsNotArray
| TooFewJobs
| TooManyJobs
| InvalidJob (index : nat) (error : JobConfigError)
| MaxConcurrentOutOfRange
| TimeoutOutOfRange
| PollIntervalOutOfRange
| MaxRetriesOutOfRange
| RetryDelayOutOfRange
| InvalidDefaultModel (model : string)
| InvalidDefaultSize (size : string).

(** The cast of a string to [Model]: the value of the enumeration that
    has this literal. *)
Definition asModel (model : string) : option Model :=
  if String.eqb model "sora-2" then Some sora_2
  else if String.eqb model "sora-2-pro" then Some sora_2_pro
  else None.

Definition asSize (size : string) : option Size :=
  find (fun s => String.eqb size (Size_literal s))
       [size_1920x1080; size_1280x720; size_1080x1920; size_720x1280;
        size_1080x1080; size_480x480].

(** Statements that may each [throw], in sequence: the error of the first
    one that throws. *)
Definition orElse {E : Type} (first rest : option E) : option E :=
  match first with
  | Some error => Some error
  | None => rest
  end.
Infix ";;;" := orElse (at level 62, right associativity).

(** [if (condition) throw error] *)
Definition throwIf {E : Type} (condition : bool) (error : E) : option E :=
  if condition then Some error else None.

Definition isSome {A : Type} (x : option A) : bool :=
  match x with
  | Some _ => true
  | None => false
  end.

(** [validateJobConfig]: the error thrown, if any (the index of the job
    enters its message only).  The test [typeof job.prompt !== 'string']
    is settled by the type of the field. *)
Definition validateJobConfig (job : LoadedJob.t) : option JobConfigError :=
  let prompt := LoadedJob.prompt job in
  throwIf (negb (truthy_string prompt)
           || negb (truthy_string (Some (trim (nullish prompt "")))))
          PromptRequired ;;;
  match LoadedJob.model job with
  | Some model => throwIf (negb (isValidModel model)) (InvalidJobModel model)
  | None => None
  end ;;;
  match LoadedJob.size job with
  | Some size => throwIf (negb (isValidSize size)) (InvalidJobSize size)
  | None => None
  end ;;;
  match LoadedJob.seconds job with
  | Some seconds =>
      match asModel (or_string (LoadedJob.model job)
                               (Model_literal DEFAULT_MODEL)) with
      | Some model =>
          throwIf (negb (isValidDuration model seconds))
                  (InvalidJobSeconds seconds model)
      | None => None  (* not reached: the model has been validated *)
      end
  | None => None
  end ;;;
  throwIf (truthy_string (LoadedJob.remix_video_id job)
           && truthy_string (LoadedJob.input_reference job))
          RemixAndInputReference ;;;
  if truthy_string (LoadedJob.remix_video_id job) then
    throwIf (isSome (LoadedJob.seconds job)) RemixWithSeconds ;;;
    throwIf (isSome (LoadedJob.size job)) RemixWithSize ;;;
    throwIf (isSome (LoadedJob.model job)) RemixWithModel
  else None.

(** The loop over the jobs, from index [i] on. *)
Fixpoint validateJobs (jobs : list LoadedJob.t) (i : nat)
  : option BatchConfigError :=
  match jobs with
  | [] => None
  | job :: rest =>
      match validateJobConfig job with
      | Some error => Some (InvalidJob i error)
      | None => validateJobs rest (i + 1)%nat
      end
  end.

(** [if (x !== undefined) { if (x < low || x > high) throw error }] *)
Definition outOfRange {E : Type} (x : option Z) (low high : Z) (error : E)
  : option E :=
  match x with
  | Some v => throwIf ((v <? low) || (high <? v)) error
  | None => None
  end.

Definition validateBatchConfig (config : LoadedConfig.t)
  : option BatchConfigError :=
  match LoadedConfig.jobs config with
  | None => Some JobsNotArray
  | Some jobs =>
      throwIf (length jobs <? BATCH_LIMITS.min_jobs)%nat TooFewJobs ;;;
      throwIf (BATCH_LIMITS.max_jobs <? length jobs)%nat TooManyJobs ;;;
      validateJobs jobs 0 ;;;
      outOfRange (LoadedConfig.max_concurrent config)
        BATCH_LIMITS.min_concurrent BATCH_LIMITS.max_concurrent
        MaxConcurrentOutOfRange ;;;
      outOfRange (LoadedConfig.timeout config)
        BATCH_LIMITS.min_timeout BATCH_LIMITS.max_timeout
        TimeoutOutOfRange ;;;
      outOfRange (LoadedConfig.poll_interval config)
        BATCH_LIMITS.min_poll_interval BATCH_LIMITS.max_poll_interval
        PollIntervalOutOfRange ;;;
      match LoadedConfig.retry_policy config with
      | Some rp =>
          outOfRange (RetryPolicy.max_retries rp)
            BATCH_LIMITS.min_retry BATCH_LIMITS.max_retry
            MaxRetriesOutOfRange ;;;
          outOfRange (RetryPolicy.retry_delay_ms rp)
            BATCH_LIMITS.min_retry_delay BATCH_LIMITS.max_retry_delay
            RetryDelayOutOfRange
      | None => None
      end ;;;
      match LoadedConfig.default_model config with
      | Some model =>
          throwIf (negb (isValidModel model)) (InvalidDefaultModel model)
      | None => None
      end ;;;
      match LoadedConfig.default_size config with
      | Some size =>
          throwIf (negb (isValidSize size)) (InvalidDefaultSize size)
      | None => None
      end
  end.

(** The cast [as BatchConfig] of [loadBatchConfig]: the loaded value read
    at the types of the interface; [None] when a required field is
    missing or a string is no member of its enumeration. *)
Definition asOptional {A B : Type} (cast : A -> option B) (x : option A)
  : option (option B) :=
  match x with
  | Some v => Some <$> cast v
  | None => Some None
  end.

Definition asBatchJobConfig (job : LoadedJob.t) : option BatchJobConfig.t :=
  prompt ← LoadedJob.prompt job;
  model ← asOptional asModel (LoadedJob.model job);
  size ← asOptional asSize (LoadedJob.size job);
  Some {| BatchJobConfig.prompt := prompt;
          BatchJobConfig.output_path := LoadedJob.output_path job;
          BatchJobConfig.model := model;
          BatchJobConfig.size := size;
          BatchJobConfig.seconds := LoadedJob.seconds job;
          BatchJobConfig.input_reference := LoadedJob.input_reference job;
          BatchJobConfig.remix_video_id := LoadedJob.remix_video_id job |}.

Definition asBatchConfig (config : LoadedConfig.t) : option BatchConfig.t :=
  jobs ← LoadedConfig.jobs config;
  jobs ← mapM asBatchJobConfig jobs;
  default_model ← asOptional asModel (LoadedConfig.default_model config);
  default_size ← asOptional asSize (LoadedConfig.default_size config);
  Some {| BatchConfig.jobs := jobs;
          BatchConfig.output_dir := LoadedConfig.output_dir config;
          BatchConfig.max_concurrent := LoadedConfig.max_concurrent config;
          BatchConfig.timeout := LoadedConfig.timeout config;
          BatchConfig.poll_interval := LoadedConfig.poll_interval config;
          BatchConfig.max_poll_attempts :=
            LoadedConfig.max_poll_attempts config;
          BatchConfig.retry_policy := LoadedConfig.retry_policy config;
          BatchConfig.default_model := default_model;
          BatchConfig.default_size := default_size;
          BatchConfig.default_seconds :=
            LoadedConfig.default_seconds config |}.

(** ** [tools/generate.ts]: [validateParams] *)



(** ** [utils/batch-config.ts]: [mergeBatchConfig] *)

Inductive OutputFormat : Set :=
| format_text
| format_json.

(** [BatchExecutionOptions] as the command line fills it.  A numeric
    option is [None] when it is [undefined] or [NaN] (what [parseInt]
    gives for a value that is no number): [||] treats both alike, and
    nothing else reads these options. *)
Module CliOptions.
Record t : Set := {
  outputDir : option string;
  format : option OutputFormat;
  timeout : option Z;
  maxConcurrent : option Z;
  pollInterval : option Z;
  maxPollAttempts : option Z;
  estimateOnly : option bool;
  allowAnyPath : option bool
}.
End CliOptions.

(** The options as [executeBatch] reads them. *)
Definition executionOptions (options : CliOptions.t)
  : BatchExecutionOptions.t :=
  {| BatchExecutionOptions.allowAnyPath := CliOptions.allowAnyPath options |}.

(** The environment variables that [mergeBatchConfig] reads. *)
Module Env.
Record t : Set := {
  OUTPUT_DIR : option string;
  VIDEO_POLL_INTERVAL : option string;
  VIDEO_MAX_POLL_ATTEMPTS : option string
}.
End Env.

Section MergeBatchConfig.
(** [parseInt(s, 10)]; [None] for [NaN]. *)
Variable parseInt : string -> option Z.
Variable env : Env.t.

(** [process.env.X ? parseInt(process.env.X, 10) : undefined] *)
Definition envInt (x : option string) : option Z :=
  if truthy_string x then parseInt (nullish x "") else None.

Definition mergeBatchConfig (config : BatchConfig.t)
    (options : CliOptions.t) : BatchConfig.t :=
  let envPollInterval := envInt (Env.VIDEO_POLL_INTERVAL env) in
  let envMaxPollAttempts := envInt (Env.VIDEO_MAX_POLL_ATTEMPTS env) in
  let envOutputDir := Env.OUTPUT_DIR env in
  {| BatchConfig.jobs := BatchConfig.jobs config;
     BatchConfig.retry_policy := BatchConfig.retry_policy config;
     BatchConfig.output_dir :=
       Some (or_string (CliOptions.outputDir options)
               (or_string envOutputDir
                  (or_string (BatchConfig.output_dir config) "./output")));
     BatchConfig.max_concurrent :=
       Some (or_int (CliOptions.maxConcurrent options)
               (or_int (BatchConfig.max_concurrent config)
                       BATCH_DEFAULTS.max_concurrent));
     BatchConfig.timeout :=
       Some (or_int (CliOptions.timeout options)
               (or_int (BatchConfig.timeout config)
                       BATCH_DEFAULTS.timeout));
     BatchConfig.poll_interval :=
       Some (or_int (CliOptions.pollInterval options)
               (or_int envPollInterval
                  (or_int (BatchConfig.poll_interval config)
                          BATCH_DEFAULTS.poll_interval)));
     BatchConfig.max_poll_attempts :=
       Some (or_int (CliOptions.maxPollAttempts options)
               (or_int envMaxPollAttempts
                  (or_int (BatchConfig.max_poll_attempts config)
                          BATCH_DEFAULTS.max_poll_attempts)));
     BatchConfig.default_model :=
       Some (or_enum (BatchConfig.default_model config) DEFAULT_MODEL);
     BatchConfig.default_size :=
       Some (or_enum (BatchConfig.default_size config) DEFAULT_SIZE);
     BatchConfig.default_seconds :=
       Some (or_number (BatchConfig.default_seconds config)
                       DEFAULT_SECONDS) |}.
End MergeBatchConfig.

(** A loaded job without optional fields, and a loaded configuration
    without settings. *)
Definition loadedJob (prompt : string) (model : option string)
    (seconds : option float) : LoadedJob.t :=
  {| LoadedJob.prompt := Some prompt;
     LoadedJob.output_path := None;
     LoadedJob.model := model;
     LoadedJob.size := None;
     LoadedJob.seconds := seconds;
     LoadedJob.input_reference := None;
     LoadedJob.remix_video_id := None |}.

Definition loadedBatch (jobs : list LoadedJob.t)
    (default_model : option string) (max_concurrent : option Z)
  : LoadedConfig.t :=
  {| LoadedConfig.jobs := Some jobs;
     LoadedConfig.output_dir := None;
     LoadedConfig.max_concurrent := max_concurrent;
     LoadedConfig.timeout := None;
     LoadedConfig.poll_interval := None;
     LoadedConfig.max_poll_attempts := None;
     LoadedConfig.retry_policy := None;
     LoadedConfig.default_model := default_model;
     LoadedConfig.default_size := None;
     LoadedConfig.default_seconds := None |}.

Definition noCliOptions : CliOptions.t :=
  {| CliOptions.outputDir := None; CliOptions.format := None;
     CliOptions.timeout := None; CliOptions.maxConcurrent := None;
     CliOptions.pollInterval := None; CliOptions.maxPollAttempts := None;
     CliOptions.estimateOnly := None; CliOptions.allowAnyPath := None |}.

Definition emptyEnv : Env.t :=
  {| Env.OUTPUT_DIR := None; Env.VIDEO_POLL_INTERVAL := None;
     Env.VIDEO_MAX_POLL_ATTEMPTS := None |}.

(** ** Further invariants of the event loop *)

(** The timers are armed relative to the start of [executeBatch], and a
    result is returned no later than the deadline and the grace window
    allow. *)
Definition punctual (config : BatchConfig.t) (startedAt : Z) (s : State)
  : Prop :=
  let due := startedAt + setTimeout_delay (timeout config) in
  startedAt <= now s /\
  match coordinator s with
  | Racing => deadlineTimer s = Some due
  | Grace => graceTimer s = Some (due + 5000)
  | Returned r =>
      BatchResult.started_at r = startedAt /\
      startedAt <= BatchResult.finished_at r <= due + 5000 /\
      BatchResult.total_duration_ms r
      = BatchResult.finished_at r - startedAt
  | Threw _ => True
  end.

(** The tasks suspended in [acquire] are the last jobs of the batch, in
    the order of the batch. *)
Definition inOrder (config : BatchConfig.t) (s : State) : Prop :=
  exists m : nat,
    (m <= length (BatchConfig.jobs config))%nat /\
    Semaphore.queue (semaphore s)
    = seq m (length (BatchConfig.jobs config) - m).

(** ** Further notions: paths and costs *)

(** The name that [resolveOutputPath] gives to the output of a job
    without [output_path]. *)
Definition generatedName (job : BatchJobConfig.t) (index : nat) : string :=
  (if truthy_string (BatchJobConfig.remix_video_id job) then "remixed"
   else if truthy_string (BatchJobConfig.input_reference job)
        then "animated" else "generated")
  +:+ "_" +:+ pretty (index + 1)%nat +:+ ".mp4".

(** A job whose [output_path] is an absolute path. *)
Definition absoluteOutput `{PathLib} (job : BatchJobConfig.t) : bool :=
  truthy_string (BatchJobConfig.output_path job)
  && path_isAbsolute (nullish (BatchJobConfig.output_path job) "").


(** ** The batch command: how [main] ends after [executeBatch] *)

(** The exit code of the process once [executeBatch] has returned or
    thrown; [main] catches the error and exits with 1. *)
Definition exitCode (c : Coordinator) : option Z :=
  match c with
  | Returned result =>
      Some (if (0 <? BatchResult.failed result)%nat
               || (0 <? BatchResult.cancelled result)%nat
            then 1 else 0)
  | Threw _ => Some 1
  | Racing | Grace => None
  end.

(** No job has been given a slot, and nothing is recorded. *)
Definition idle (config : BatchConfig.t) (s : State) : Prop :=
  microtasks s = [] /\
  Forall (fun p => p = Waiting) (phases s) /\
  match coordinator s with
  | Racing | Grace => results s = []
  | Returned r => BatchResult.results r = allCancelled config
  | Threw _ => False
  end.

(** ** [executeJobWithRetry] with a [maxRetries] that is no whole number

    [validateBatchConfig] compares [max_retries] with the limits 0 and 5
    and asks nothing else of it, so that the loop may run with 1.5.
    Here [maxRetries] is a rational number, which every finite JavaScript
    number is; the counter [attempt] still takes whole values only. *)
Module Fractional.
Section ExecuteJobWithRetry.
Variables (job : BatchJobConfig.t) (index : nat) (outputPath : string)
          (config : BatchConfig.t) (pollInterval maxPollAttempts : Z)
          (maxRetries : QArith_base.Q) (retryDelay : Z)
          (retryPatterns : list string) (executor : Executor)
          (jobStartTime : Z).

(** [attempt <= retryPolicy.maxRetries] *)
Definition withinRetries (attempt : nat) : bool :=
  QArith_base.Qle_bool (QArith_base.inject_Z (Z.of_nat attempt)) maxRetries.

(** [attempt < retryPolicy.maxRetries] *)
Definition retriesLeft (attempt : nat) : bool :=
  negb (QArith_base.Qle_bool maxRetries
          (QArith_base.inject_Z (Z.of_nat attempt))).

(** The [for] loop from [attempt] on, entered at instant [now]; the test
    of the loop is made before every iteration, and [fuel] bounds the
    number of iterations. *)
Fixpoint retryLoop (fuel : nat) (attempt : nat) (now : Z) : option JobRun :=
  if withinRetries attempt then
    match fuel with
    | O => None
    | S fuel' =>
        let call :=
          executorCall job outputPath config pollInterval maxPollAttempts in
        let answer := executor call attempt in
        let finished := now + elapsed answer in
        let invoked := Invoked call attempt now finished in
        match attemptSettled (outcome answer) with
        | inl result =>
            Some {| run_result :=
                      completedResult job index jobStartTime result finished;
                    run_finished := finished;
                    run_actions := [invoked] |}
        | inr message =>
            if retriesLeft attempt && shouldRetry message retryPatterns
            then
              let woken := finished + setTimeout_delay retryDelay in
              later ← retryLoop fuel' (attempt + 1)%nat woken;
              Some {| run_result := run_result later;
                      run_finished := run_finished later;
                      run_actions :=
                        invoked :: Slept retryDelay finished woken
                                :: run_actions later |}
            else
              Some {| run_result :=
                        failedResult job index jobStartTime message finished;
                      run_finished := finished;
                      run_actions := [invoked] |}
        end
    end
  else
    Some {| run_result := exhaustedResult job index jobStartTime now;
            run_finished := now;
            run_actions := [] |}.

(** The values 0, 1, ... of [attempt] that pass the test of the loop. *)
Definition attempts : nat := Z.to_nat (Qround.Qfloor maxRetries + 1).

Definition executeJobWithRetry : option JobRun :=
  retryLoop attempts 0%nat jobStartTime.

(** The attempt [a] fails with an error that matches a retry pattern. *)
Definition failsRetryably (a : nat) : Prop :=
  exists message,
    attemptSettled
      (outcome
         (executor
            (executorCall job outputPath config pollInterval
               maxPollAttempts) a))
    = inr message /\
    shouldRetry message retryPatterns = true.
End ExecuteJobWithRetry.
End Fractional.

(** ** [cli/batch.ts]: the batch command *)

Module ParsedArgs.
Record t : Set := {
  configPath : option string;
  options : CliOptions.t;
  showHelp : bool;
  showVersion : bool
}.
End ParsedArgs.

(** How the command goes on: [process.exit(code)], or the
    [await manager.executeBatch(config, options)] of [main]. *)
Inductive Command (A : Type) : Type :=
| Exit (code : Z)
| Continue (value : A).
Arguments Exit {A} code.
Arguments Continue {A} value.

Definition withOptions (result : ParsedArgs.t) (options : CliOptions.t)
  : ParsedArgs.t :=
  {| ParsedArgs.configPath := ParsedArgs.configPath result;
     ParsedArgs.options := options;
     ParsedArgs.showHelp := ParsedArgs.showHelp result;
     ParsedArgs.showVersion := ParsedArgs.showVersion result |}.

Section ParseArgs.
(** [parseInt(s, 10)]; [None] for [NaN], which is also what
    [parseInt(undefined, 10)] gives. *)
Variable parseInt : string -> option Z.

(** The options that read [args[++i]]. *)
Definition takesValue (arg : string) : bool :=
  bool_decide (arg ∈ ["--output-dir"; "--format"; "--timeout";
                      "--max-concurrent"; "--poll-interval";
                      "--max-poll-attempts"]).

(** The [case] of an option that reads [args[++i]]; [value] is [None]
    when the option is the last argument ([args[++i]] is [undefined]). *)
Definition valueCase (arg : string) (value : option string)
    (result : ParsedArgs.t) : Command ParsedArgs.t :=
  let o := ParsedArgs.options result in
  if String.eqb arg "--output-dir" then
    Continue (withOptions result
      {| CliOptions.outputDir := value;
         CliOptions.format := CliOptions.format o;
         CliOptions.timeout := CliOptions.timeout o;
         CliOptions.maxConcurrent := CliOptions.maxConcurrent o;
         CliOptions.pollInterval := CliOptions.pollInterval o;
         CliOptions.maxPollAttempts := CliOptions.maxPollAttempts o;
         CliOptions.estimateOnly := CliOptions.estimateOnly o;
         CliOptions.allowAnyPath := CliOptions.allowAnyPath o |})
  else if String.eqb arg "--format" then
    match (if String.eqb (nullish value "") "text" then Some format_text
           else if String.eqb (nullish value "") "json"
                then Some format_json else None) with
    | None => Exit 1
    | Some format =>
        Continue (withOptions result
          {| CliOptions.outputDir := CliOptions.outputDir o;
             CliOptions.format := Some format;
             CliOptions.timeout := CliOptions.timeout o;
             CliOptions.maxConcurrent := CliOptions.maxConcurrent o;
             CliOptions.pollInterval := CliOptions.pollInterval o;
             CliOptions.maxPollAttempts := CliOptions.maxPollAttempts o;
             CliOptions.estimateOnly := CliOptions.estimateOnly o;
             CliOptions.allowAnyPath := CliOptions.allowAnyPath o |})
    end
  else if String.eqb arg "--timeout" then
    Continue (withOptions result
      {| CliOptions.outputDir := CliOptions.outputDir o;
         CliOptions.format := CliOptions.format o;
         CliOptions.timeout := value ≫= parseInt;
         CliOptions.maxConcurrent := CliOptions.maxConcurrent o;
         CliOptions.pollInterval := CliOptions.pollInterval o;
         CliOptions.maxPollAttempts := CliOptions.maxPollAttempts o;
         CliOptions.estimateOnly := CliOptions.estimateOnly o;
         CliOptions.allowAnyPath := CliOptions.allowAnyPath o |})
  else if String.eqb arg "--max-concurrent" then
    Continue (withOptions result
      {| CliOptions.outputDir := CliOptions.outputDir o;
         CliOptions.format := CliOptions.format o;
         CliOptions.timeout := CliOptions.timeout o;
         CliOptions.maxConcurrent := value ≫= parseInt;
         CliOptions.pollInterval := CliOptions.pollInterval o;
         CliOptions.maxPollAttempts := CliOptions.maxPollAttempts o;
         CliOptions.estimateOnly := CliOptions.estimateOnly o;
         CliOptions.allowAnyPath := CliOptions.allowAnyPath o |})
  else if String.eqb arg "--poll-interval" then
    Continue (withOptions result
      {| CliOptions.outputDir := CliOptions.outputDir o;
         CliOptions.format := CliOptions.format o;
         CliOptions.timeout := CliOptions.timeout o;
         CliOptions.maxConcurrent := CliOptions.maxConcurrent o;
         CliOptions.pollInterval := value ≫= parseInt;
         CliOptions.maxPollAttempts := CliOptions.maxPollAttempts o;
         CliOptions.estimateOnly := CliOptions.estimateOnly o;
         CliOptions.allowAnyPath := CliOptions.allowAnyPath o |})
  else
    Continue (withOptions result
      {| CliOptions.outputDir := CliOptions.outputDir o;
         CliOptions.format := CliOptions.format o;
         CliOptions.timeout := CliOptions.timeout o;
         CliOptions.maxConcurrent := CliOptions.maxConcurrent o;
         CliOptions.pollInterval := CliOptions.pollInterval o;
         CliOptions.maxPollAttempts := value ≫= parseInt;
         CliOptions.estimateOnly := CliOptions.estimateOnly o;
         CliOptions.allowAnyPath := CliOptions.allowAnyPath o |}).

(** The [case] of an argument that reads no value. *)
Definition flagCase (arg : string) (result : ParsedArgs.t)
  : Command ParsedArgs.t :=
  let o := ParsedArgs.options result in
  if String.eqb arg "--help" || String.eqb arg "-h" then
    Continue {| ParsedArgs.configPath := ParsedArgs.configPath result;
                ParsedArgs.options := o;
                ParsedArgs.showHelp := true;
                ParsedArgs.showVersion := ParsedArgs.showVersion result |}
  else if String.eqb arg "--version" || String.eqb arg "-v" then
    Continue {| ParsedArgs.configPath := ParsedArgs.configPath result;
                ParsedArgs.options := o;
                ParsedArgs.showHelp := ParsedArgs.showHelp result;
                ParsedArgs.showVersion := true |}
  else if String.eqb arg "--estimate-only" then
    Continue (withOptions result
      {| CliOptions.outputDir := CliOptions.outputDir o;
         CliOptions.format := CliOptions.format o;
         CliOptions.timeout := CliOptions.timeout o;
         CliOptions.maxConcurrent := CliOptions.maxConcurrent o;
         CliOptions.pollInterval := CliOptions.pollInterval o;
         CliOptions.maxPollAttempts := CliOptions.maxPollAttempts o;
         CliOptions.estimateOnly := Some true;
         CliOptions.allowAnyPath := CliOptions.allowAnyPath o |})
  else if String.eqb arg "--allow-any-path" then
    Continue (withOptions result
      {| CliOptions.outputDir := CliOptions.outputDir o;
         CliOptions.format := CliOptions.format o;
         CliOptions.timeout := CliOptions.timeout o;
         CliOptions.maxConcurrent := CliOptions.maxConcurrent o;
         CliOptions.pollInterval := CliOptions.pollInterval o;
         CliOptions.maxPollAttempts := CliOptions.maxPollAttempts o;
         CliOptions.estimateOnly := CliOptions.estimateOnly o;
         CliOptions.allowAnyPath := Some true |})
  else if startsWith arg "-" then Exit 1
  else
    Continue {| ParsedArgs.configPath := Some arg;
                ParsedArgs.options := o;
                ParsedArgs.showHelp := ParsedArgs.showHelp result;
                ParsedArgs.showVersion := ParsedArgs.showVersion result |}.

(** The [for] loop over [args], from the argument at [i] on. *)
Fixpoint parseArgs_loop (args : list string) (result : ParsedArgs.t)
  : Command ParsedArgs.t :=
  match args with
  | [] => Continue result
  | arg :: rest =>
      if takesValue arg then
        match rest with
        | [] => valueCase arg None result
        | value :: rest' =>
            match valueCase arg (Some value) result with
            | Exit code => Exit code
            | Continue result' => parseArgs_loop rest' result'
            end
        end
      else
        match flagCase arg result with
        | Exit code => Exit code
        | Continue result' => parseArgs_loop rest result'
        end
  end.

(** [args] is [process.argv.slice(2)]. *)
Definition parseArgs (args : list string) : Command ParsedArgs.t :=
  parseArgs_loop args
    {| ParsedArgs.configPath := None;
       ParsedArgs.options :=
         {| CliOptions.outputDir := None; CliOptions.format := None;
            CliOptions.timeout := None; CliOptions.maxConcurrent := None;
            CliOptions.pollInterval := None;
            CliOptions.maxPollAttempts := None;
            CliOptions.estimateOnly := None;
            CliOptions.allowAnyPath := None |};
       ParsedArgs.showHelp := false;
       ParsedArgs.showVersion := false |}.

Variable env : Env.t.

(** [options.estimateOnly] as a condition. *)
Definition estimateOnly (options : CliOptions.t) : bool :=
  nullish (CliOptions.estimateOnly options) false.

(** The [try] block of [main] up to the call of [executeBatch].
    [rawConfig] is what [loadBatchConfig] gave: the parsed JSON of the
    file, or the error of [fs.readFile] or [JSON.parse]; a file that
    holds [null], on which [validateBatchConfig] throws a [TypeError], is
    an error here as well.  [main] exits with 1 from its [catch] clause
    for an error thrown here. *)
Definition prepareBatch (rawConfig : Result LoadedConfig.t)
    (options : CliOptions.t)
  : Command (BatchConfig.t * BatchExecutionOptions.t) :=
  match rawConfig with
  | Throw _ => Exit 1
  | Ok rawConfig =>
      match validateBatchConfig rawConfig with
      | Some _ => Exit 1
      | None =>
          (* a validated file has the type that [loadBatchConfig] casts
             it to; the other branch is not reached *)
          match asBatchConfig rawConfig with
          | None => Exit 1
          | Some typed =>
              let config := mergeBatchConfig parseInt env typed options in
              if estimateOnly options then Exit 0
              else Continue (config, executionOptions options)
          end
      end
  end.

(** [main] up to its [await manager.executeBatch(config, options)].
    [apiKey] is [process.env.OPENAI_API_KEY]. *)
Definition main_start (args : list string) (apiKey : option string)
    (rawConfig : Result LoadedConfig.t)
  : Command (BatchConfig.t * BatchExecutionOptions.t) :=
  match parseArgs args with
  | Exit code => Exit code
  | Continue parsed =>
      if ParsedArgs.showVersion parsed then Exit 0
      else if ParsedArgs.showHelp parsed
              || negb (truthy_string (ParsedArgs.configPath parsed))
      then Exit (if ParsedArgs.showHelp parsed then 0 else 1)
      else if negb (truthy_string apiKey)
              && negb (estimateOnly (ParsedArgs.options parsed))
      then Exit 1
      else prepareBatch rawConfig (ParsedArgs.options parsed)
  end.

(** The exit code of [main]; [executed] is the state of the call of
    [executeBatch] that [main] awaits, and [None] says that the command
    is still waiting for it. *)
Definition main (args : list string) (apiKey : option string)
    (rawConfig : Result LoadedConfig.t) (executed : Coordinator)
  : option Z :=
  match main_start args apiKey rawConfig with
  | Exit code => Some code
  | Continue _ => exitCode executed
  end.
End ParseArgs.

(** ** [estimateBatchCost] as a procedure on the JavaScript heap

    Whether a call has side effects cannot be asked of a function of
    Rocq.  Here the method is embedded a second time, statement by
    statement, as a procedure on a world: the heap of the objects that
    the caller and the procedure share, and the log of what the process
    has done to its environment.  The configuration is an object on the
    heap, read where the source reads it, so that a write to it would
    show in a later read. *)
Module JS.

(** What the process does to its environment. *)
Inductive Effect : Set :=
| ClockRead                           (** [Date.now()], [new Date()] *)
| ConsoleWrite (text : string)        (** [console.log], [console.error] *)
| NetworkRequest (url : string)       (** [fetch] *)
| FileAccess (path : string).         (** [fs.*] *)

(** The objects that [estimateBatchCost] meets; an object is known by
    its address, a natural number.  A [BatchConfig] is one
    object together with its jobs: a write to the configuration or to one
    of its jobs is a write to this object. *)
Inductive Object : Set :=
| ConfigObject (config : BatchConfig.t)
| ArrayObject (items : list CostBreakdownItem.t)
| EstimateObject (total_jobs : nat) (estimated_min estimated_max : float)
    (breakdown : nat).

Record World : Set := {
  heap : list Object;
  effects : list Effect      (** the latest first *)
}.

(** A procedure: it may change the world, and it may throw. *)
Definition Procedure (A : Type) : Type := World -> Result (A * World).

Definition ret {A : Type} (x : A) : Procedure A := fun w => Ok (x, w).

Definition bind {A B : Type} (m : Procedure A) (f : A -> Procedure B)
  : Procedure B :=
  fun w =>
    match m w with
    | Ok (x, w') => f x w'
    | Throw message => Throw message
    end.

(** [throw new TypeError(...)], also the one of the engine. *)
Definition throw {A : Type} (message : string) : Procedure A :=
  fun _ => Throw message.

Notation "'let*' x := m 'in' f" := (bind m (fun x => f))
  (at level 10, x name, m at level 100, f at level 200,
   format "'[v' 'let*'  x  :=  m  'in' '/' f ']'").

(** An object or array literal: a new object at a new address. *)
Definition alloc (o : Object) : Procedure nat :=
  fun w =>
    Ok (length (heap w),
        {| heap := heap w ++ [o]; effects := effects w |}).

Definition load (a : nat) : Procedure Object :=
  fun w =>
    match heap w !! a with
    | Some o => Ok (o, w)
    | None => Throw "TypeError"
    end.

Definition store (a : nat) (o : Object) : Procedure unit :=
  fun w => Ok (tt, {| heap := <[a := o]> (heap w); effects := effects w |}).

Definition perform (e : Effect) : Procedure unit :=
  fun w => Ok (tt, {| heap := heap w; effects := e :: effects w |}).

(** Reading a field of the configuration. *)
Definition readConfig {A : Type} (config : nat)
    (field : BatchConfig.t -> A) : Procedure A :=
  let* o := load config in
  match o with
  | ConfigObject c => ret (field c)
  | _ => throw "TypeError"
  end.

(** [array.push(item)] *)
Definition push (array : nat) (item : CostBreakdownItem.t)
  : Procedure unit :=
  let* o := load array in
  match o with
  | ArrayObject items => store array (ArrayObject (items ++ [item]))
  | _ => throw "TypeError: push is not a function"
  end.

(** [for (const x of xs) { ... }], with the local variables that the
    body assigns as the state of the loop. *)
Fixpoint forOf {A S : Type} (xs : list A) (locals : S)
    (body : S -> A -> Procedure S) : Procedure S :=
  match xs with
  | [] => ret locals
  | x :: xs' =>
      let* locals' := body locals x in
      forOf xs' locals' body
  end.

(** [if (c) { m }] *)
Definition when (c : bool) (m : Procedure unit) : Procedure unit :=
  if c then m else ret tt.

(** [errorLog] of [utils/debug.ts] without [error], for comparison: a
    procedure that reads the clock and writes to the console. *)
Definition errorLog (message : string) : Procedure unit :=
  let* _ := perform ClockRead in
  perform (ConsoleWrite ("ERROR: " +:+ message)).

(** The body of the loop: the three reads of the configuration, the call
    of [calculateCost] and the update of the counters are those of
    [tallyJob]. *)
Definition tallyJob (config : nat) (tally : CostTally)
    (job : BatchJobConfig.t) : Procedure CostTally :=
  let* default_model := readConfig config BatchConfig.default_model in
  let* default_size := readConfig config BatchConfig.default_size in
  let* default_seconds := readConfig config BatchConfig.default_seconds in
  let model :=
    or_enum (BatchJobConfig.model job) (or_enum default_model DEFAULT_MODEL)
  in
  let size :=
    or_enum (BatchJobConfig.size job) (or_enum default_size DEFAULT_SIZE) in
  let seconds :=
    or_number (BatchJobConfig.seconds job)
              (or_number default_seconds DEFAULT_SECONDS) in
  let cost := calculateCost model seconds size in
  ret (if truthy_string (BatchJobConfig.remix_video_id job) then
         {| textToVideoCount := textToVideoCount tally;
            imageToVideoCount := imageToVideoCount tally;
            remixCount := remixCount tally + 1;
            textToVideoCost := textToVideoCost tally;
            imageToVideoCost := imageToVideoCost tally;
            remixCost := (remixCost tally + cost)%float |}
       else if truthy_string (BatchJobConfig.input_reference job) then
         {| textToVideoCount := textToVideoCount tally;
            imageToVideoCount := imageToVideoCount tally + 1;
            remixCount := remixCount tally;
            textToVideoCost := textToVideoCost tally;
            imageToVideoCost := (imageToVideoCost tally + cost)%float;
            remixCost := remixCost tally |}
       else
         {| textToVideoCount := textToVideoCount tally + 1;
            imageToVideoCount := imageToVideoCount tally;
            remixCount := remixCount tally;
            textToVideoCost := (textToVideoCost tally + cost)%float;
            imageToVideoCost := imageToVideoCost tally;
            remixCost := remixCost tally |}).

(** [estimateBatchCost(config)]; the result is the address of the object
    that the [return] statement builds. *)
Definition estimateBatchCost (config : nat) : Procedure nat :=
  let* breakdown := alloc (ArrayObject []) in
  let* jobs := readConfig config BatchConfig.jobs in
  let* tally := forOf jobs emptyTally (tallyJob config) in
  let* _ :=
    when (0 <? textToVideoCount tally)%nat
      (push breakdown
         {| CostBreakdownItem.type := text_to_video;
            CostBreakdownItem.count := textToVideoCount tally;
            CostBreakdownItem.estimated_cost := textToVideoCost tally |}) in
  let* _ :=
    when (0 <? imageToVideoCount tally)%nat
      (push breakdown
         {| CostBreakdownItem.type := image_to_video;
            CostBreakdownItem.count := imageToVideoCount tally;
            CostBreakdownItem.estimated_cost := imageToVideoCost tally |}) in
  let* _ :=
    when (0 <? remixCount tally)%nat
      (push breakdown
         {| CostBreakdownItem.type := remix;
            CostBreakdownItem.count := remixCount tally;
            CostBreakdownItem.estimated_cost := remixCost tally |}) in
  let totalEstimate :=
    (textToVideoCost tally + imageToVideoCost tally + remixCost tally)%float
  in
  let* jobs := readConfig config BatchConfig.jobs in
  alloc (EstimateObject (length jobs) (totalEstimate * 0.9)%float
           (totalEstimate * 1.2)%float breakdown).

(** The [CostEstimate] that is found at an address. *)
Definition estimateAt (w : World) (estimate : nat)
  : option CostEstimate.t :=
  match heap w !! estimate with
  | Some (EstimateObject total_jobs estimated_min estimated_max breakdown) =>
      match heap w !! breakdown with
      | Some (ArrayObject items) =>
          Some {| CostEstimate.total_jobs := total_jobs;
                  CostEstimate.estimated_min := estimated_min;
                  CostEstimate.estimated_max := estimated_max;
                  CostEstimate.breakdown := items |}
      | _ => None
      end
  | _ => None
  end.

(** A world in which one configuration is the only object. *)
Definition worldOf (config : BatchConfig.t) : World :=
  {| heap := [ConfigObject config]; effects := [] |}.
End JS.

(** * Properties *)

(** ** Strings *)

Lemma startsWith_app (p r : string) : startsWith (p +:+ r) p = true.
Proof.
  induction p as [|a p IH]; simpl; [done|].
  by rewrite Ascii.eqb_refl.
Qed.

Lemma startsWith_inv (s p : string) :
  startsWith s p = true -> exists r, s = p +:+ r.
Proof.
  revert s. induction p as [|a p IH]; intros s Hs.
  - by exists s.
  - destruct s as [|b s]; simpl in Hs; [done|].
    destruct (Ascii.eqb a b) eqn:Hab; [|done].
    apply Ascii.eqb_eq in Hab as ->.
    destruct (IH _ Hs) as [r ->]. by exists r.
Qed.

Lemma includes_unfold (s n : string) :
  includes s n =
  startsWith s n || match s with
                    | EmptyString => false
                    | String _ rest => includes rest n
                    end.
Proof. by destruct s. Qed.

Lemma includes_app (a n b : string) : includes (a +:+ n +:+ b) n = true.
Proof.
  induction a as [|c a IH].
  - change (includes (n +:+ b) n = true).
    by rewrite includes_unfold, startsWith_app.
  - change (includes (String c (a +:+ n +:+ b)) n = true).
    rewrite includes_unfold, IH. apply orb_true_r.
Qed.

Lemma includes_inv (s n : string) :
  includes s n = true -> exists a b, s = a +:+ n +:+ b.
Proof.
  induction s as [|c s IH]; rewrite includes_unfold; intros Hs.
  - rewrite orb_false_r in Hs. apply startsWith_inv in Hs as [r ->].
    by exists EmptyString, r.
  - apply orb_true_iff in Hs as [Hs|Hs].
    + apply startsWith_inv in Hs as [r ->]. by exists EmptyString, r.
    + destruct (IH Hs) as (a & b & ->). by exists (String c a), b.
Qed.

Lemma toLowerCase_app (a b : string) :
  toLowerCase (a +:+ b) = toLowerCase a +:+ toLowerCase b.
Proof.
  induction a as [|c a IH]; [done|].
  change (String (ascii_toLowerCase c) (toLowerCase (a +:+ b)) =
          String (ascii_toLowerCase c) (toLowerCase a +:+ toLowerCase b)).
  by rewrite IH.
Qed.

(** [shouldRetry] holds exactly when the lower-cased message contains one
    of the lower-cased patterns. *)
Lemma shouldRetry_iff (error : string) (patterns : list string) :
  shouldRetry error patterns = true <->
  exists pattern a b,
    In pattern patterns /\
    toLowerCase error = a +:+ toLowerCase pattern +:+ b.
Proof.
  unfold shouldRetry. rewrite existsb_exists. split.
  - intros (p & Hp & Hi). apply includes_inv in Hi as (a & b & E). eauto.
  - intros (p & a & b & Hp & E). exists p. split; [done|].
    rewrite E. apply includes_app.
Qed.

Lemma shouldRetry_nil (error : string) : shouldRetry error [] = false.
Proof. reflexivity. Qed.

(** ** The retry loop *)

Lemma setTimeout_delay_id (ms : Z) :
  1 <= ms <= 2147483647 -> setTimeout_delay ms = ms.
Proof.
  intros Hms. unfold setTimeout_delay.
  destruct (ms <? 1) eqn:E1; [lia|].
  destruct (2147483647 <? ms) eqn:E2; [lia|]. done.
Qed.

Lemma setTimeout_delay_ge (ms : Z) :
  ms <= 2147483647 -> ms <= setTimeout_delay ms.
Proof.
  intros Hms. unfold setTimeout_delay.
  destruct (ms <? 1) eqn:E1; simpl; [lia|].
  destruct (2147483647 <? ms) eqn:E2; lia.
Qed.

Lemma invocations_retrySchedule (call : ExecutorCall) (executor : Executor)
    (retryDelay jobStartTime : Z) (k a : nat) :
  length (filter (fun x => isInvoked x = true)
            (retrySchedule call executor retryDelay jobStartTime k a)) = S k.
Proof.
  revert a. induction k as [|k IH]; intros a; [done|].
  cbn [retrySchedule]. rewrite filter_cons_True by done.
  rewrite filter_cons_False by (cbn; congruence).
  cbn [length]. by rewrite IH.
Qed.

Section RetryLoopFacts.
Variables (job : BatchJobConfig.t) (index : nat) (outputPath : string)
          (config : BatchConfig.t) (pollInterval maxPollAttempts : Z)
          (retryPolicy : EffectiveRetryPolicy) (executor : Executor)
          (jobStartTime : Z).

Let call : ExecutorCall :=
  executorCall job outputPath config pollInterval maxPollAttempts.
Let start : nat -> Z :=
  attemptStart call executor (retryDelay retryPolicy) jobStartTime.
Let finish : nat -> Z :=
  attemptFinish call executor (retryDelay retryPolicy) jobStartTime.
Let settled (a : nat) : VideoGenerationResult.t + string :=
  attemptSettled (outcome (executor call a)).
Let loop : nat -> nat -> Z -> JobRun :=
  retryLoop job index outputPath config pollInterval maxPollAttempts
            retryPolicy executor jobStartTime.

Lemma retryLoop_unfold (iterations a : nat) (now : Z) :
  loop (S iterations) a now =
  let finished := now + elapsed (executor call a) in
  let invoked := Invoked call a now finished in
  match settled a with
  | inl result =>
      {| run_result :=
           completedResult job index jobStartTime result finished;
         run_finished := finished;
         run_actions := [invoked] |}
  | inr message =>
      if (Z.of_nat a <? maxRetries retryPolicy)
         && shouldRetry message (retryPatterns retryPolicy)
      then
        let woken :=
          finished + setTimeout_delay (retryDelay retryPolicy) in
        let later := loop iterations (a + 1)%nat woken in
        {| run_result := run_result later;
           run_finished := run_finished later;
           run_actions :=
             invoked :: Slept (retryDelay retryPolicy) finished woken
                     :: run_actions later |}
      else
        {| run_result :=
             failedResult job index jobStartTime message finished;
           run_finished := finished;
           run_actions := [invoked] |}
  end.
Proof. reflexivity. Qed.

(** How the loop entered at attempt [a] ends: after [k] retried attempts
    the attempt [a + k] is the last one. *)
Lemma retryLoop_schedule (iterations a : nat) :
  Z.of_nat a + Z.of_nat iterations = maxRetries retryPolicy ->
  exists k : nat,
    (k <= iterations)%nat /\
    run_actions (loop (S iterations) a (start a))
    = retrySchedule call executor (retryDelay retryPolicy) jobStartTime k a /\
    run_finished (loop (S iterations) a (start a)) = finish (a + k) /\
    (forall j : nat, (j < k)%nat ->
       exists message,
         settled (a + j) = inr message /\
         Z.of_nat (a + j) < maxRetries retryPolicy /\
         shouldRetry message (retryPatterns retryPolicy) = true) /\
    match settled (a + k) with
    | inl result =>
        run_result (loop (S iterations) a (start a))
        = completedResult job index jobStartTime result (finish (a + k))
    | inr message =>
        ((Z.of_nat (a + k) <? maxRetries retryPolicy)
         && shouldRetry message (retryPatterns retryPolicy)) = false /\
        run_result (loop (S iterations) a (start a))
        = failedResult job index jobStartTime message (finish (a + k))
    end.
Proof.
  revert a. induction iterations as [|iterations IH]; intros a Ha;
    rewrite retryLoop_unfold; cbv zeta;
    destruct (settled a) as [result|message] eqn:E.
  - exists 0%nat. rewrite Nat.add_0_r, E.
    repeat split; [lia..|intros j Hj; lia].
  - exists 0%nat. rewrite Nat.add_0_r, E.
    assert ((Z.of_nat a <? maxRetries retryPolicy) = false) as ->
      by (apply Z.ltb_ge; lia).
    repeat split; [lia..|intros j Hj; lia].
  - exists 0%nat. rewrite Nat.add_0_r, E.
    repeat split; [lia..|intros j Hj; lia].
  - destruct ((Z.of_nat a <? maxRetries retryPolicy)
              && shouldRetry message (retryPatterns retryPolicy)) eqn:R.
    + destruct (IH (S a)) as (k & Hk & Hact & Hfin & Hretried & Hlast);
        [lia|].
      exists (S k).
      replace (a + S k)%nat with (S a + k)%nat by lia.
      replace (a + 1)%nat with (S a) by lia.
      change (start a + elapsed (executor call a)
              + setTimeout_delay (retryDelay retryPolicy))
        with (start (S a)).
      cbn [run_actions run_finished run_result].
      split; [lia|]. split; [by rewrite Hact|]. split; [done|].
      split; [|done].
      intros [|j] Hj.
      * rewrite Nat.add_0_r. exists message.
        apply andb_true_iff in R as [R1 R2].
        apply Z.ltb_lt in R1. done.
      * replace (a + S j)%nat with (S a + j)%nat by lia.
        apply Hretried. lia.
    + exists 0%nat. rewrite Nat.add_0_r, E, R.
      repeat split; [lia..|intros j Hj; lia].
Qed.

(** The elapsed time of every outcome of the loop is counted from
    [jobStartTime]. *)
Lemma retryLoop_duration (iterations a : nat) (now : Z) :
  BatchJobResult.duration_ms (run_result (loop iterations a now))
  = Some (run_finished (loop iterations a now) - jobStartTime).
Proof.
  revert a now. subst loop.
  induction iterations as [|iterations IH]; intros a now; [done|].
  cbn [retryLoop].
  destruct (attemptSettled _) as [result|message]; [done|].
  destruct (_ && _); [apply IH | done].
Qed.

Lemma retryLoop_index (iterations a : nat) (now : Z) :
  BatchJobResult.index (run_result (loop iterations a now))
  = (index + 1)%nat.
Proof.
  revert a now. subst loop.
  induction iterations as [|iterations IH]; intros a now; [done|].
  cbn [retryLoop].
  destruct (attemptSettled _) as [result|message]; [done|].
  destruct (_ && _); [apply IH | done].
Qed.

Lemma retryLoop_status (iterations a : nat) (now : Z) :
  BatchJobResult.status (run_result (loop iterations a now)) <> cancelled.
Proof.
  revert a now. subst loop.
  induction iterations as [|iterations IH]; intros a now; [done|].
  cbn [retryLoop].
  destruct (attemptSettled _) as [result|message]; [done|].
  destruct (_ && _); [apply IH | done].
Qed.
End RetryLoopFacts.

(** C3.  [executeJobWithRetry] under a retry policy with [maxRetries] in
    0..5 and [retryDelay] in 100..60000: the run consists of [n] calls of
    the Job Executor, [1 <= n <= maxRetries + 1], each call but the last
    followed by a wait of exactly [retryDelay]; a failed attempt [a] is
    followed by another one exactly when [a < maxRetries] and the message of
    its error contains, after lower-casing both, one of the trigger
    patterns; the last attempt decides the outcome: [completed] if it
    succeeded, otherwise [failed] with the message of its error.  In
    particular a first failure that matches no pattern is final, and
    [maxRetries = 2] allows at most 3 attempts. *)
Theorem executeJobWithRetry_retry_policy
    (job : BatchJobConfig.t) (index : nat) (outputPath : string)
    (config : BatchConfig.t) (pollInterval maxPollAttempts : Z)
    (retryPolicy : EffectiveRetryPolicy) (executor : Executor)
    (jobStartTime : Z) :
  0 <= maxRetries retryPolicy <= 5 ->
  100 <= retryDelay retryPolicy <= 60000 ->
  let call :=
    executorCall job outputPath config pollInterval maxPollAttempts in
  let settled := fun a => attemptSettled (outcome (executor call a)) in
  let start :=
    attemptStart call executor (retryDelay retryPolicy) jobStartTime in
  let finish :=
    attemptFinish call executor (retryDelay retryPolicy) jobStartTime in
  let r :=
    executeJobWithRetry job index outputPath config pollInterval
      maxPollAttempts retryPolicy executor jobStartTime in
  let n := invocations r in
  (1 <= n <= Z.to_nat (maxRetries retryPolicy) + 1)%nat /\
  run_actions r
  = retrySchedule call executor (retryDelay retryPolicy) jobStartTime
      (n - 1) 0 /\
  (forall a : nat, start (S a) = finish a + retryDelay retryPolicy) /\
  (forall (a : nat) (message : string),
     (a < n)%nat -> settled a = inr message ->
     ((a + 1 < n)%nat <->
      Z.of_nat a < maxRetries retryPolicy /\
      shouldRetry message (retryPatterns retryPolicy) = true)) /\
  (forall a : nat, (a + 1 < n)%nat -> exists message, settled a = inr message) /\
  match settled (n - 1)%nat with
  | inl result => BatchJobResult.status (run_result r) = completed
  | inr message =>
      BatchJobResult.status (run_result r) = failed /\
      BatchJobResult.error (run_result r) = Some message
  end /\
  (forall message : string,
     shouldRetry message (retryPatterns retryPolicy) = true <->
     exists pattern a b,
       In pattern (retryPatterns retryPolicy) /\
       toLowerCase message = a +:+ toLowerCase pattern +:+ b) /\
  (forall message : string,
     settled 0%nat = inr message ->
     shouldRetry message (retryPatterns retryPolicy) = false ->
     n = 1%nat /\
     BatchJobResult.status (run_result r) = failed /\
     BatchJobResult.error (run_result r) = Some message) /\
  (maxRetries retryPolicy = 2 -> (n <= 3)%nat).
Proof.
  intros Hm Hd call settled start finish r n.
  destruct (retryLoop_schedule job index outputPath config pollInterval
              maxPollAttempts retryPolicy executor jobStartTime
              (Z.to_nat (maxRetries retryPolicy)) 0)
    as (k & Hk & Hact & Hfin & Hretried & Hlast); [lia|].
  cbn [attemptStart] in Hact, Hfin, Hlast.
  replace (S (Z.to_nat (maxRetries retryPolicy)))
    with (Z.to_nat (maxRetries retryPolicy + 1)) in Hact, Hfin, Hlast
    by lia.
  fold call in Hact, Hfin, Hretried, Hlast.
  change (retryLoop job index outputPath config pollInterval maxPollAttempts
            retryPolicy executor jobStartTime
            (Z.to_nat (maxRetries retryPolicy + 1)) 0 jobStartTime)
    with r in Hact, Hfin, Hlast.
  assert (n = S k) as Hn.
  { unfold n, invocations. rewrite Hact.
    apply invocations_retrySchedule. }
  clearbody n. subst n. rewrite Nat.sub_succ, Nat.sub_0_r.
  split; [lia|]. split; [done|].
  split.
  { intros a. unfold start, finish, attemptFinish. cbn [attemptStart].
    rewrite setTimeout_delay_id by lia. done. }
  split.
  { intros a message Ha Hmsg. split.
    - intros Hlt. destruct (Hretried a) as (message' & E & Hlt' & Hre);
        [lia|].
      cbn in E. fold (settled a) in E. rewrite Hmsg in E.
      injection E as <-. done.
    - intros [Hlt Hre]. destruct (decide (a = k)) as [->|Hne]; [|lia].
      cbn in Hlast. fold (settled k) in Hlast. rewrite Hmsg in Hlast.
      destruct Hlast as [Hno _]. rewrite Hre, andb_true_r in Hno.
      apply Z.ltb_ge in Hno. lia. }
  split.
  { intros a Ha. destruct (Hretried a) as (message & E & _); [lia|].
    by exists message. }
  cbn in Hlast. fold (settled k) in Hlast.
  split.
  { destruct (settled k) as [result|message].
    - by rewrite Hlast.
    - destruct Hlast as [_ ->]. done. }
  split; [exact (fun message => shouldRetry_iff message _)|].
  split; [|lia].
  intros message Hmsg Hno.
  destruct k as [|k].
  - rewrite Hmsg in Hlast. destruct Hlast as [_ ->]. done.
  - destruct (Hretried 0%nat) as (message' & E & _ & Hre); [lia|].
    cbn in E. fold (settled 0%nat) in E. rewrite Hmsg in E.
    injection E as <-. congruence.
Qed.

Lemma executeJobWithRetry_retry_policy_witness :
  0 <= maxRetries defaultRetryPolicy <= 5 /\
  100 <= retryDelay defaultRetryPolicy <= 60000 /\
  (invocations
     (executeJobWithRetry (sampleJob "a cat" None) 0 "out/generated_1.mp4"
        (sampleBatch [sampleJob "a cat" None] None None) 15000 120
        defaultRetryPolicy (rateLimitedTwice 700) 0) <= 3)%nat.
Proof.
  assert (0 <= maxRetries defaultRetryPolicy <= 5) as Hm
    by (split; by vm_compute).
  assert (100 <= retryDelay defaultRetryPolicy <= 60000) as Hd
    by (split; by vm_compute).
  split; [exact Hm|]. split; [exact Hd|].
  apply (executeJobWithRetry_retry_policy
           (sampleJob "a cat" None) 0 "out/generated_1.mp4"
           (sampleBatch [sampleJob "a cat" None] None None) 15000 120
           defaultRetryPolicy (rateLimitedTwice 700) 0 Hm Hd).
  reflexivity.
Defined.

Lemma shouldRetry_includes (message pattern : string)
    (patterns : list string) :
  In pattern patterns ->
  includes message pattern = true ->
  shouldRetry message patterns = true.
Proof.
  intros Hin Hinc. apply includes_inv in Hinc as (a & b & ->).
  apply shouldRetry_iff. exists pattern, (toLowerCase a), (toLowerCase b).
  split; [done|]. by rewrite !toLowerCase_app.
Qed.

(** C4.  The [duration_ms] of the outcome of [executeJobWithRetry] is the
    time from [jobStartTime], the instant at which the first attempt is
    started, to the instant at which the outcome is produced.  Hence, on a
    clock that does not go back, an executor that fails twice with a message
    containing "429" and then succeeds yields, under [maxRetries = 2] and a
    pattern set containing "429", a [completed] outcome whose [duration_ms]
    is at least [2 * retryDelay], even with the time of the last attempt
    taken off. *)
Theorem executeJobWithRetry_elapsed_from_first_attempt
    (job : BatchJobConfig.t) (index : nat) (outputPath : string)
    (config : BatchConfig.t) (pollInterval maxPollAttempts : Z)
    (retryPolicy : EffectiveRetryPolicy) (executor : Executor)
    (jobStartTime : Z) :
  let call :=
    executorCall job outputPath config pollInterval maxPollAttempts in
  let settled := fun a => attemptSettled (outcome (executor call a)) in
  let r :=
    executeJobWithRetry job index outputPath config pollInterval
      maxPollAttempts retryPolicy executor jobStartTime in
  BatchJobResult.duration_ms (run_result r)
  = Some (run_finished r - jobStartTime) /\
  (0 <= maxRetries retryPolicy ->
   exists finished,
     head (run_actions r) = Some (Invoked call 0 jobStartTime finished)) /\
  (maxRetries retryPolicy = 2 ->
   retryDelay retryPolicy <= 2147483647 ->
   In "429" (retryPatterns retryPolicy) ->
   (forall a, 0 <= elapsed (executor call a)) ->
   forall (message0 message1 : string) (result : VideoGenerationResult.t),
     settled 0%nat = inr message0 -> includes message0 "429" = true ->
     settled 1%nat = inr message1 -> includes message1 "429" = true ->
     settled 2%nat = inl result ->
     BatchJobResult.status (run_result r) = completed /\
     exists ms,
       BatchJobResult.duration_ms (run_result r) = Some ms /\
       2 * retryDelay retryPolicy <= ms - elapsed (executor call 2%nat) /\
       2 * retryDelay retryPolicy <= ms).
Proof.
  intros call settled r. split; [apply retryLoop_duration|]. split.
  - intros Hm. subst r. unfold executeJobWithRetry.
    replace (Z.to_nat (maxRetries retryPolicy + 1))
      with (S (Z.to_nat (maxRetries retryPolicy))) by lia.
    rewrite retryLoop_unfold. cbv zeta.
    destruct (attemptSettled _); [by eexists|].
    destruct (_ && _); by eexists.
  - intros Hm Hd H429 Hclock message0 message1 result H0 Hi0 H1 Hi1 H2.
    pose proof (setTimeout_delay_ge _ Hd) as Hdelay.
    pose proof (Hclock 0%nat) as He0. pose proof (Hclock 1%nat) as He1.
    pose proof (Hclock 2%nat) as He2.
    subst r. unfold executeJobWithRetry. rewrite Hm.
    change (Z.to_nat (2 + 1)) with 3%nat.
    rewrite retryLoop_unfold. cbv zeta. fold call. fold (settled 0%nat).
    rewrite H0, Hm, (shouldRetry_includes _ _ _ H429 Hi0).
    cbn [andb Z.ltb Z.of_nat Z.compare run_result Nat.add].
    rewrite retryLoop_unfold. cbv zeta. fold call. fold (settled 1%nat).
    rewrite H1, Hm, (shouldRetry_includes _ _ _ H429 Hi1).
    cbn [andb Z.ltb Z.of_nat Z.compare run_result Nat.add Pos.of_succ_nat
         Pos.compare Pos.compare_cont].
    rewrite retryLoop_unfold. cbv zeta. fold call. fold (settled 2%nat).
    rewrite H2. cbn [run_result completedResult BatchJobResult.status
                     BatchJobResult.duration_ms].
    split; [done|]. eexists. split; [done|]. lia.
Qed.

Lemma executeJobWithRetry_elapsed_from_first_attempt_witness :
  let call :=
    executorCall (sampleJob "a cat" None) "out/generated_1.mp4"
      (sampleBatch [sampleJob "a cat" None] None None) 15000 120 in
  let r :=
    executeJobWithRetry (sampleJob "a cat" None) 0 "out/generated_1.mp4"
      (sampleBatch [sampleJob "a cat" None] None None) 15000 120
      defaultRetryPolicy (rateLimitedTwice 700) 0 in
  maxRetries defaultRetryPolicy = 2 /\
  retryDelay defaultRetryPolicy <= 2147483647 /\
  In "429" (retryPatterns defaultRetryPolicy) /\
  (forall a, 0 <= elapsed (rateLimitedTwice 700 call a)) /\
  BatchJobResult.status (run_result r) = completed /\
  BatchJobResult.duration_ms (run_result r) = Some 4100.
Proof.
  intros call r.
  assert (retryDelay defaultRetryPolicy <= 2147483647) as Hd
    by (by vm_compute).
  assert (In "429" (retryPatterns defaultRetryPolicy)) as H429
    by (cbn; tauto).
  assert (forall a, 0 <= elapsed (rateLimitedTwice 700 call a)) as Hclock
    by (intros a; cbn; lia).
  split; [reflexivity|]. split; [exact Hd|]. split; [exact H429|].
  split; [exact Hclock|].
  destruct (executeJobWithRetry_elapsed_from_first_attempt
              (sampleJob "a cat" None) 0 "out/generated_1.mp4"
              (sampleBatch [sampleJob "a cat" None] None None) 15000 120
              defaultRetryPolicy (rateLimitedTwice 700) 0)
    as (_ & _ & Hscenario).
  destruct (Hscenario eq_refl Hd H429 Hclock _ _ _ eq_refl eq_refl eq_refl
              eq_refl eq_refl) as (Hstatus & _).
  split; [exact Hstatus|]. reflexivity.
Defined.

Lemma retryLoop_no_patterns
    (job : BatchJobConfig.t) (index : nat) (outputPath : string)
    (config : BatchConfig.t) (pollInterval maxPollAttempts : Z)
    (retryPolicy : EffectiveRetryPolicy) (executor : Executor)
    (jobStartTime : Z) (iterations a : nat) (now : Z) :
  retryPatterns retryPolicy = [] ->
  Forall (fun x => isInvoked x = true)
    (run_actions
       (retryLoop job index outputPath config pollInterval maxPollAttempts
          retryPolicy executor jobStartTime iterations a now)) /\
  (length
     (run_actions
        (retryLoop job index outputPath config pollInterval maxPollAttempts
           retryPolicy executor jobStartTime iterations a now)) <= 1)%nat.
Proof.
  intros Hnil. destruct iterations as [|iterations].
  - split; [constructor | cbn; lia].
  - rewrite retryLoop_unfold. cbv zeta.
    destruct (attemptSettled _) as [result|message].
    + split; [by repeat constructor | cbn; lia].
    + rewrite Hnil, shouldRetry_nil, andb_false_r.
      split; [by repeat constructor | cbn; lia].
Qed.

(** C10.  [executeBatch] takes [retry_policy.retry_on_errors] as it is
    whenever the field is present, the empty list included; the default
    patterns stand in only when the policy or the field is absent.  Over
    the empty pattern set [shouldRetry] is false for every error, so that,
    whatever [max_retries] is, a job makes at most one attempt and never
    waits for a retry. *)
Theorem empty_retry_on_errors_never_retries (config : BatchConfig.t) :
  (forall (rp : RetryPolicy.t) (patterns : list string),
     BatchConfig.retry_policy config = Some rp ->
     RetryPolicy.retry_on_errors rp = Some patterns ->
     retryPatterns (effectiveRetryPolicy config) = patterns) /\
  (BatchConfig.retry_policy config ≫= RetryPolicy.retry_on_errors = None ->
   retryPatterns (effectiveRetryPolicy config)
   = BATCH_DEFAULTS.retry_on_errors) /\
  (forall error : string, shouldRetry error [] = false) /\
  (forall rp : RetryPolicy.t,
     BatchConfig.retry_policy config = Some rp ->
     RetryPolicy.retry_on_errors rp = Some [] ->
     forall (job : BatchJobConfig.t) (index : nat) (outputPath : string)
            (pollInterval maxPollAttempts : Z) (executor : Executor)
            (jobStartTime : Z),
       let r :=
         executeJobWithRetry job index outputPath config pollInterval
           maxPollAttempts (effectiveRetryPolicy config) executor
           jobStartTime in
       (forall error : string,
          shouldRetry error (retryPatterns (effectiveRetryPolicy config))
          = false) /\
       (invocations r <= 1)%nat /\
       (forall ms started finished,
          ~ In (Slept ms started finished) (run_actions r))).
Proof.
  split; [|split; [|split]].
  - intros rp patterns Hrp Hpat. unfold effectiveRetryPolicy.
    rewrite Hrp. cbn. by rewrite Hpat.
  - intros Habsent. unfold effectiveRetryPolicy. cbn. by rewrite Habsent.
  - apply shouldRetry_nil.
  - intros rp Hrp Hpat job index outputPath pollInterval maxPollAttempts
      executor jobStartTime r.
    assert (retryPatterns (effectiveRetryPolicy config) = []) as Hnil.
    { unfold effectiveRetryPolicy. rewrite Hrp. cbn. by rewrite Hpat. }
    destruct (retryLoop_no_patterns job index outputPath config pollInterval
                maxPollAttempts (effectiveRetryPolicy config) executor
                jobStartTime
                (Z.to_nat (maxRetries (effectiveRetryPolicy config) + 1))
                0 jobStartTime Hnil) as [Hall Hlen].
    fold (executeJobWithRetry job index outputPath config pollInterval
            maxPollAttempts (effectiveRetryPolicy config) executor
            jobStartTime) in Hall, Hlen.
    fold r in Hall, Hlen.
    split; [intros error; rewrite Hnil; apply shouldRetry_nil|].
    split.
    + unfold invocations. etrans; [apply length_filter|done].
    + intros ms started finished Hin.
      rewrite Forall_forall in Hall. apply list_elem_of_In in Hin.
      by apply Hall in Hin.
Qed.

Lemma empty_retry_on_errors_never_retries_witness :
  BatchConfig.retry_policy noRetryBatch = Some noRetryPatterns /\
  RetryPolicy.retry_on_errors noRetryPatterns = Some [] /\
  (invocations
     (executeJobWithRetry (sampleJob "a cat" None) 0 "out/generated_1.mp4"
        noRetryBatch 15000 120 (effectiveRetryPolicy noRetryBatch)
        (failingExecutor 700 "API error: 429 - Too Many Requests") 0)
   <= 1)%nat.
Proof.
  split; [reflexivity|]. split; [reflexivity|].
  destruct (empty_retry_on_errors_never_retries noRetryBatch)
    as (_ & _ & _ & Hnever).
  apply (Hnever noRetryPatterns eq_refl eq_refl).
Defined.

(** ** The cost estimate *)

Lemma jobKind_cases (job : BatchJobConfig.t) :
  jobKind job =
  if truthy_string (BatchJobConfig.remix_video_id job) then remix
  else if truthy_string (BatchJobConfig.input_reference job)
       then image_to_video else text_to_video.
Proof. reflexivity. Qed.

(** The loop of [estimateBatchCost] adds to each counter the jobs of its
    kind, in batch order. *)
Lemma tallyJob_fold (config : BatchConfig.t) (jobs : list BatchJobConfig.t)
    (tally : CostTally) :
  let add := fun total job => (total + nominalCost config job)%float in
  let of_kind := fun kind => filter (fun job => jobKind job = kind) jobs in
  let tally' := fold_left (tallyJob config) jobs tally in
  textToVideoCost tally'
  = fold_left add (of_kind text_to_video) (textToVideoCost tally) /\
  imageToVideoCost tally'
  = fold_left add (of_kind image_to_video) (imageToVideoCost tally) /\
  remixCost tally' = fold_left add (of_kind remix) (remixCost tally) /\
  textToVideoCount tally'
  = (textToVideoCount tally + length (of_kind text_to_video))%nat /\
  imageToVideoCount tally'
  = (imageToVideoCount tally + length (of_kind image_to_video))%nat /\
  remixCount tally' = (remixCount tally + length (of_kind remix))%nat.
Proof.
  revert tally. induction jobs as [|job jobs IH]; intros tally; cbn zeta.
  - cbn. repeat split; lia.
  - cbn [fold_left].
    destruct (IH (tallyJob config tally job))
      as (H1 & H2 & H3 & H4 & H5 & H6).
    rewrite H1, H2, H3, H4, H5, H6. clear IH H1 H2 H3 H4 H5 H6.
    unfold tallyJob. rewrite !filter_cons, jobKind_cases.
    destruct (truthy_string (BatchJobConfig.remix_video_id job));
      [|destruct (truthy_string (BatchJobConfig.input_reference job))];
      repeat case_decide; try done; cbn; repeat split; lia.
Qed.

(** C8, as the code has it.  [estimateBatchCost] reports
    [estimated_min = total * 0.9] and [estimated_max = total * 1.2] in
    binary64 arithmetic, where [total] adds up the three per-kind subtotals
    of the nominal costs [pricePerSecond * effective duration]; the
    breakdown lists, for each kind that occurs, its number of jobs and its
    subtotal.  For one [sora-2] job of 8 seconds at 1280x720 the price per
    second is 0.1, the nominal cost is [0.1 * 8 = 0.8], [estimated_max] is
    0.96 and [estimated_min] is 0.7200000000000001, the binary64 product
    [0.8 * 0.9], which is not the binary64 number 0.72. *)
Theorem estimateBatchCost_band (config : BatchConfig.t) :
  let estimate := estimateBatchCost config in
  let of_kind :=
    fun kind =>
      filter (fun job => jobKind job = kind) (BatchConfig.jobs config) in
  (forall job : BatchJobConfig.t,
     calculateCost (effectiveModel job config) (effectiveSeconds job config)
                   (effectiveSize job config)
     = (pricePerSecond (effectiveModel job config) (effectiveSize job config)
        * effectiveSeconds job config)%float) /\
  CostEstimate.estimated_min estimate = (nominalTotal config * 0.9)%float /\
  CostEstimate.estimated_max estimate = (nominalTotal config * 1.2)%float /\
  CostEstimate.total_jobs estimate = length (BatchConfig.jobs config) /\
  CostEstimate.breakdown estimate
  = breakdownItem text_to_video (length (of_kind text_to_video))
                  (kindSubtotal config text_to_video)
    ++ breakdownItem image_to_video (length (of_kind image_to_video))
                     (kindSubtotal config image_to_video)
    ++ breakdownItem remix (length (of_kind remix))
                     (kindSubtotal config remix) /\
  let example := sampleBatch [eightSecondJob] None None in
  pricePerSecond sora_2 size_1280x720 = 0.1%float /\
  nominalCost example eightSecondJob = 0.8%float /\
  CostEstimate.estimated_min (estimateBatchCost example)
  = 0.7200000000000001%float /\
  CostEstimate.estimated_max (estimateBatchCost example) = 0.96%float /\
  (0.7200000000000001 =? 0.72)%float = false.
Proof.
  intros estimate of_kind.
  destruct (tallyJob_fold config (BatchConfig.jobs config) emptyTally)
    as (H1 & H2 & H3 & H4 & H5 & H6).
  split; [done|].
  subst estimate. unfold estimateBatchCost, nominalTotal, kindSubtotal.
  cbn [CostEstimate.estimated_min CostEstimate.estimated_max
       CostEstimate.total_jobs CostEstimate.breakdown].
  rewrite H1, H2, H3, H4, H5, H6.
  repeat split; by vm_compute.
Qed.

(** C8, as stated, fails on the quoted example: the lower end of the band
    that the code computes is not 0.72. *)
Lemma estimateBatchCost_band_counterexample :
  CostEstimate.estimated_min
    (estimateBatchCost (sampleBatch [eightSecondJob] None None))
  <> 0.72%float.
Proof.
  intros Heq.
  apply (f_equal (fun x => (x =? 0.72)%float)) in Heq.
  vm_compute in Heq. discriminate Heq.
Qed.

(** ** The cost estimate as a procedure on the heap *)

Lemma World_eta (w : JS.World) :
  {| JS.heap := JS.heap w; JS.effects := JS.effects w |} = w.
Proof. by destruct w. Qed.

(** [errorLog] is a procedure that the log tells from one without
    effects. *)
Lemma errorLog_effects (message : string) (w : JS.World) :
  exists w',
    JS.errorLog message w = Ok (tt, w') /\
    JS.heap w' = JS.heap w /\
    JS.effects w'
    = JS.ConsoleWrite ("ERROR: " +:+ message) :: JS.ClockRead
        :: JS.effects w.
Proof. by eexists. Qed.

Lemma readConfig_Ok {A : Type} (w : JS.World) (config : nat)
    (c : BatchConfig.t) (field : BatchConfig.t -> A) :
  JS.heap w !! config = Some (JS.ConfigObject c) ->
  JS.readConfig config field w = Ok (field c, w).
Proof.
intros Hc. unfold JS.readConfig, JS.bind, JS.load. by rewrite Hc.
Qed.

(** The loop reads the configuration and changes nothing. *)
Lemma forOf_tallyJob (w : JS.World) (config : nat)
    (c : BatchConfig.t) (jobs : list BatchJobConfig.t) (tally : CostTally) :
  JS.heap w !! config = Some (JS.ConfigObject c) ->
  JS.forOf jobs tally (JS.tallyJob config) w
  = Ok (fold_left (tallyJob c) jobs tally, w).
Proof.
intros Hc. revert tally. induction jobs as [|job jobs IH]; intros tally.
- done.
- cbn [JS.forOf fold_left]. unfold JS.bind at 1.
  assert (JS.tallyJob config tally job w = Ok (tallyJob c tally job, w))
    as ->; [|apply IH].
  unfold JS.tallyJob, JS.bind.
  by rewrite !(readConfig_Ok w config c) by done.
Qed.

(** A conditional [push] to the array that was allocated last. *)
Lemma when_push (w : JS.World) (h : list JS.Object)
    (items : list CostBreakdownItem.t) (b : bool)
    (item : CostBreakdownItem.t) :
  JS.heap w = h ++ [JS.ArrayObject items] ->
  JS.when b (JS.push (length h) item) w
  = Ok (tt, {| JS.heap :=
                 h ++ [JS.ArrayObject
                         (items ++ if b then [item] else [])];
               JS.effects := JS.effects w |}).
Proof.
destruct w as [heap effects]. cbn [JS.heap JS.effects]. intros ->.
destruct b; cbn [JS.when].
- unfold JS.push, JS.bind, JS.load. cbn [JS.heap].
  rewrite list_lookup_middle by done. unfold JS.store. cbn [JS.heap].
  by rewrite insert_app_r_alt, Nat.sub_diag by done.
- unfold JS.ret. by rewrite app_nil_r.
Qed.

(** What a call does to the world: two objects are allocated, the array
    of the breakdown and the estimate that refers to it; they hold the
    value of [estimateBatchCost] on the configuration read. *)
Lemma estimateBatchCost_call (w : JS.World) (config : nat)
    (c : BatchConfig.t) :
  JS.heap w !! config = Some (JS.ConfigObject c) ->
  let estimate := estimateBatchCost c in
  JS.estimateBatchCost config w
  = Ok (S (length (JS.heap w)),
        {| JS.heap :=
             JS.heap w
             ++ [JS.ArrayObject (CostEstimate.breakdown estimate);
                 JS.EstimateObject (CostEstimate.total_jobs estimate)
                   (CostEstimate.estimated_min estimate)
                   (CostEstimate.estimated_max estimate)
                   (length (JS.heap w))];
           JS.effects := JS.effects w |}).
Proof.
intros Hc estimate. unfold JS.estimateBatchCost.
unfold JS.bind at 1. cbn [JS.alloc].
set (w0 := {| JS.heap := JS.heap w ++ [JS.ArrayObject []];
              JS.effects := JS.effects w |}).
assert (JS.heap w0 !! config = Some (JS.ConfigObject c)) as Hc0.
{ cbn [w0 JS.heap]. by apply lookup_app_l_Some. }
unfold JS.bind at 1. rewrite (readConfig_Ok w0 config c) by done.
unfold JS.bind at 1. rewrite (forOf_tallyJob w0 config c) by done.
set (tally := fold_left (tallyJob c) (BatchConfig.jobs c) emptyTally).
unfold JS.bind at 1.
rewrite (when_push w0 (JS.heap w) []) by done.
unfold JS.bind at 1.
rewrite (when_push _ (JS.heap w) _) by done.
unfold JS.bind at 1.
rewrite (when_push _ (JS.heap w) _) by done.
cbn [JS.effects]. cbv zeta.
unfold JS.bind at 1. unfold JS.readConfig, JS.bind, JS.load.
cbn [JS.heap]. rewrite lookup_app_l_Some with (x := JS.ConfigObject c)
  by done.
unfold JS.ret, JS.alloc. cbn [JS.heap JS.effects].
rewrite length_app. cbn [length]. rewrite Nat.add_1_r.
rewrite <- (app_assoc (JS.heap w)). cbn [app].
subst estimate. unfold estimateBatchCost, breakdownItem. fold tally.
cbn [CostEstimate.breakdown CostEstimate.total_jobs
     CostEstimate.estimated_min CostEstimate.estimated_max].
by rewrite <- !app_assoc.
Qed.

(** C9.  [estimateBatchCost] is pure and deterministic.  Called on a
    configuration that is an object of the heap, it returns a new object
    that holds the estimate computed from the configuration; it performs
    no effect (the log of clock reads, console writes, network requests
    and file accesses is as before) and it writes to no object that
    existed before the call, the configuration among them.  So a second
    call on the same configuration returns another new object with
    identical contents (the same [total_jobs], [estimated_min],
    [estimated_max] and [breakdown]), and leaves the result of the first
    call as it was. *)
Theorem estimateBatchCost_deterministic (w : JS.World)
    (config : nat) (c : BatchConfig.t) :
  JS.heap w !! config = Some (JS.ConfigObject c) ->
  exists (first second : nat) (w1 w2 : JS.World),
    JS.estimateBatchCost config w = Ok (first, w1) /\
    JS.estimateBatchCost config w1 = Ok (second, w2) /\
    JS.estimateAt w1 first = Some (estimateBatchCost c) /\
    JS.estimateAt w2 second = Some (estimateBatchCost c) /\
    JS.estimateAt w2 first = Some (estimateBatchCost c) /\
    first <> second /\
    JS.effects w1 = JS.effects w /\
    JS.effects w2 = JS.effects w /\
    (forall a o,
       JS.heap w !! a = Some o ->
       JS.heap w1 !! a = Some o /\ JS.heap w2 !! a = Some o) /\
    JS.heap w !! first = None /\
    JS.heap w1 !! second = None.
Proof.
intros Hc.
pose proof (estimateBatchCost_call w config c Hc) as Hfirst.
cbv zeta in Hfirst.
set (e := estimateBatchCost c) in *.
set (h1 := JS.heap w
           ++ [JS.ArrayObject (CostEstimate.breakdown e);
               JS.EstimateObject (CostEstimate.total_jobs e)
                 (CostEstimate.estimated_min e)
                 (CostEstimate.estimated_max e) (length (JS.heap w))])
  in *.
set (w1 := {| JS.heap := h1; JS.effects := JS.effects w |}) in *.
assert (JS.heap w1 !! config = Some (JS.ConfigObject c)) as Hc1.
{ cbn [w1 JS.heap]. by apply lookup_app_l_Some. }
pose proof (estimateBatchCost_call w1 config c Hc1) as Hsecond.
cbv zeta in Hsecond. fold e in Hsecond.
assert (length h1 = S (S (length (JS.heap w)))) as Hlen.
{ unfold h1. rewrite length_app. cbn [length]. lia. }
assert (forall (h more : list JS.Object) n lo hi items,
          (h ++ [JS.ArrayObject items; JS.EstimateObject n lo hi (length h)]
             ++ more) !! S (length h)
          = Some (JS.EstimateObject n lo hi (length h)) /\
          (h ++ [JS.ArrayObject items; JS.EstimateObject n lo hi (length h)]
             ++ more) !! length h
          = Some (JS.ArrayObject items)) as Hat.
{ intros h more n lo hi items. split.
  - rewrite lookup_app_r by lia.
    by replace (S (length h) - length h)%nat with 1%nat by lia.
  - rewrite lookup_app_r by lia. by rewrite Nat.sub_diag. }
eexists _, _, w1, _. split; [exact Hfirst|]. split; [exact Hsecond|].
clear Hfirst Hsecond. subst w1. cbn [JS.heap JS.effects].
split; [|split; [|split; [|split; [|split; [|split; [|split; [|split]]]]]]].
- unfold JS.estimateAt. cbn [JS.heap]. unfold h1.
  destruct (Hat (JS.heap w) [] (CostEstimate.total_jobs e)
              (CostEstimate.estimated_min e) (CostEstimate.estimated_max e)
              (CostEstimate.breakdown e)) as [He Hb].
  rewrite app_nil_r in He, Hb. rewrite He, Hb. by destruct e.
- unfold JS.estimateAt. cbn [JS.heap].
  destruct (Hat h1 [] (CostEstimate.total_jobs e)
              (CostEstimate.estimated_min e) (CostEstimate.estimated_max e)
              (CostEstimate.breakdown e)) as [He Hb].
  rewrite app_nil_r in He, Hb. rewrite He, Hb. by destruct e.
- unfold JS.estimateAt. cbn [JS.heap].
  destruct (Hat (JS.heap w)
              [JS.ArrayObject (CostEstimate.breakdown e);
               JS.EstimateObject (CostEstimate.total_jobs e)
                 (CostEstimate.estimated_min e)
                 (CostEstimate.estimated_max e) (length h1)]
              (CostEstimate.total_jobs e)
              (CostEstimate.estimated_min e) (CostEstimate.estimated_max e)
              (CostEstimate.breakdown e)) as [He Hb].
  rewrite app_assoc in He, Hb. fold h1 in He, Hb.
  rewrite He, Hb. by destruct e.
- lia.
- done.
- done.
- intros a o Ha. split.
  + unfold h1. by apply lookup_app_l_Some.
  + apply lookup_app_l_Some. unfold h1. by apply lookup_app_l_Some.
- apply lookup_ge_None. lia.
- apply lookup_ge_None. lia.
Qed.

Lemma estimateBatchCost_deterministic_witness :
  let c := sampleBatch [eightSecondJob] None None in
  exists (first second : nat) (w1 w2 : JS.World),
    JS.estimateBatchCost 0%nat (JS.worldOf c) = Ok (first, w1) /\
    JS.estimateBatchCost 0%nat w1 = Ok (second, w2) /\
    JS.estimateAt w1 first = Some (estimateBatchCost c) /\
    JS.estimateAt w2 second = Some (estimateBatchCost c) /\
    JS.effects w2 = [].
Proof.
intros c.
destruct (estimateBatchCost_deterministic (JS.worldOf c) 0%nat c eq_refl)
  as (first & second & w1 & w2 & H1 & H2 & E1 & E2 & _ & _ & _ & Heff & _).
exists first, second, w1, w2. by repeat split.
Defined.

(** ** The event loop: shape of the reachable states *)

Lemma filter_insert_length {A : Type} (P : A -> Prop)
    `{!forall x, Decision (P x)} (l : list A) (i : nat) (x y : A) :
  l !! i = Some x ->
  (length (filter P (<[i := y]> l)) + (if decide (P x) then 1 else 0)
   = length (filter P l) + (if decide (P y) then 1 else 0))%nat.
Proof.
  destruct (decide (P x)) as [Hx|Hx], (decide (P y)) as [Hy|Hy];
    revert i; induction l as [|z l IH]; intros i Hi; try done;
    (destruct i as [|i]; cbn in Hi;
     [ injection Hi as ->; change (<[0%nat:=y]> (x :: l)) with (y :: l);
       rewrite ?(filter_cons_True P _ _ Hx), ?(filter_cons_False P _ _ Hx),
         ?(filter_cons_True P _ _ Hy), ?(filter_cons_False P _ _ Hy);
       cbn [length]; lia
     | change (<[S i:=y]> (z :: l)) with (z :: <[i:=y]> l);
       specialize (IH i Hi);
       destruct (decide (P z)) as [Hz|Hz];
       rewrite ?(filter_cons_True P _ _ Hz), ?(filter_cons_False P _ _ Hz);
       cbn [length]; lia ]).
Qed.

Lemma runFrom_app `{PathLib} (config : BatchConfig.t)
    (options : BatchExecutionOptions.t) (startedAt : Z)
    (s : State) (t1 t2 : list Event) :
  runFrom config options startedAt s (t1 ++ t2)
  = runFrom config options startedAt s t1
      ≫= fun s' => runFrom config options startedAt s' t2.
Proof.
  revert s. induction t1 as [|e t1 IH]; intros s; [done|].
  cbn. destruct (step config options startedAt e s); [apply IH | done].
Qed.

(** A property that holds initially and is kept by every task holds after
    every run. *)
Lemma run_invariant `{PathLib} (config : BatchConfig.t)
    (options : BatchExecutionOptions.t) (startedAt : Z) (files : gset string)
    (P : State -> Prop) :
  P (initial config startedAt files) ->
  (forall e s s', P s -> step config options startedAt e s = Some s' -> P s') ->
  forall trace s, run config options startedAt files trace = Some s -> P s.
Proof.
  intros Hinit Hstep trace. unfold run.
  generalize (initial config startedAt files) Hinit.
  induction trace as [|e trace IH]; intros s0 H0 s Hrun; cbn in Hrun.
  - by injection Hrun as <-.
  - destruct (step config options startedAt e s0) as [s1|] eqn:E; [|done].
    eapply IH; [|done]. by eapply Hstep.
Qed.

(** What each task of the event loop requires and does. *)
Lemma step_inv `{PathLib} (config : BatchConfig.t)
    (options : BatchExecutionOptions.t) (startedAt : Z)
    (e : Event) (s s' : State) :
  step config options startedAt e s = Some s' ->
  match e with
  | RunMicrotask =>
      exists index rest job,
        microtasks s = index :: rest /\
        phases s !! index = Some Granted /\
        BatchConfig.jobs config !! index = Some job /\
        s' = resumeJob config options startedAt index job (dequeue rest s)
  | PathResolved index instant =>
      exists outputPath uniquePath,
        phases s !! index = Some (Resolving outputPath) /\
        mayRunAt instant s = true /\
        generateUniqueFilePath (fs s) outputPath = Some uniquePath /\
        s' = setPhase index (Executing uniquePath instant)
                      (advanceTo instant s)
  | JobSettled index executor =>
      exists uniquePath jobStartTime job,
        phases s !! index = Some (Executing uniquePath jobStartTime) /\
        BatchConfig.jobs config !! index = Some job /\
        let run :=
          executeJobWithRetry job index uniquePath config
            (pollInterval config) (maxPollAttempts config)
            (effectiveRetryPolicy config) executor jobStartTime in
        mayRunAt (run_finished run) s = true /\
        s' = settleJob config startedAt index Fulfilled
               (pushResult (run_result run)
                  (writeFiles (written (run_result run))
                     (advanceTo (run_finished run) s)))
  | DeadlineFired =>
      exists due,
        deadlineTimer s = Some due /\ mayRunAt due s = true /\
        s' = fireDeadline due s
  | GraceElapsed =>
      exists due,
        graceTimer s = Some due /\ mayRunAt due s = true /\
        s' = finalize config startedAt (endGrace due s)
  end.
Proof.
  intros Hstep. destruct e as [|index instant|index executor| |];
    cbn in Hstep.
  - destruct (microtasks s) as [|index rest] eqn:Em; [done|].
    destruct (phases s !! index) as [[| | | | |]|] eqn:Ep; try done.
    destruct (BatchConfig.jobs config !! index) as [job|] eqn:Ej; [|done].
    injection Hstep as <-. by eexists _, _, _.
  - destruct (phases s !! index) as [[| |outputPath| | |]|] eqn:Ep;
      try done.
    destruct (mayRunAt instant s) eqn:Hm; [|done].
    destruct (generateUniqueFilePath _ _) as [uniquePath|] eqn:Hg; [|done].
    injection Hstep as <-. by eexists _, _.
  - destruct (phases s !! index) as [[| | |uniquePath jobStartTime| |]|]
      eqn:Ep; try done.
    destruct (BatchConfig.jobs config !! index) as [job|] eqn:Ej; [|done].
    destruct (mayRunAt _ s) eqn:Hm; [|done].
    injection Hstep as <-. by eexists _, _, _.
  - destruct (deadlineTimer s) as [due|] eqn:Ed; [|done].
    destruct (mayRunAt due s) eqn:Hm; [|done].
    injection Hstep as <-. by eexists.
  - destruct (graceTimer s) as [due|] eqn:Eg; [|done].
    destruct (mayRunAt due s) eqn:Hm; [|done].
    injection Hstep as <-. by eexists.
Qed.

(** Reads the fields of a state that one of the state transformers built. *)
Ltac read_state :=
  cbn [dequeue pushResult writeFiles advanceTo setPhase fireDeadline
       endGrace setCoordinator
       now fs semaphore microtasks phases results timedOut deadlineTimer
       graceTimer coordinator] in *.

Lemma inFlight_permitsHeld (s : State) : inFlight s = permitsHeld (phases s).
Proof. reflexivity. Qed.

Lemma permitsHeld_insert (phs : list Phase) (i : nat) (old new : Phase) :
  phs !! i = Some old ->
  (permitsHeld (<[i := new]> phs) + (if holdsPermit old then 1 else 0)
   = permitsHeld phs + (if holdsPermit new then 1 else 0))%nat.
Proof.
  intros Hi. unfold permitsHeld.
  pose proof (filter_insert_length (fun p => holdsPermit p = true)
                phs i old new Hi) as Hlen.
  cbv beta in Hlen.
  destruct (holdsPermit old), (holdsPermit new);
    repeat (case_decide; try done); lia.
Qed.

Section Coherence.
Variables (maxConcurrent : Z) (jobCount : nat).

(** A job changes phase while it keeps its permit. *)
Lemma coherent_setPhase (resumed : option nat) (sem : Semaphore.t)
    (micro : list nat) (phs : list Phase) (i : nat) (old new : Phase) :
  coherent maxConcurrent jobCount resumed sem micro phs ->
  phs !! i = Some old ->
  holdsPermit old = true -> holdsPermit new = true ->
  (resumed = None /\ old <> Granted) \/ resumed = Some i ->
  new <> Granted ->
  coherent maxConcurrent jobCount None sem micro (<[i := new]> phs).
Proof.
  intros (Hlen & Hnd & Hmicro & Hndq & Hqueue & Hperm & Hq0 & Hk)
    Hi Hold Hnew Hres Hng.
  pose proof (lookup_lt_Some _ _ _ Hi) as Hlt.
  pose proof (permitsHeld_insert _ _ _ new Hi) as Hcount.
  rewrite Hold, Hnew in Hcount.
  split; [by rewrite length_insert|]. split; [done|].
  split.
  { intros j. rewrite Hmicro. destruct (decide (j = i)) as [->|Hne].
    - rewrite list_lookup_insert_eq by done. rewrite Hi.
      destruct Hres as [[-> Hog]| ->]; split; intros [? E];
        congruence.
    - rewrite list_lookup_insert_ne by done.
      destruct Hres as [[-> Hog]| ->]; split; intros [? E];
        (split; [congruence|done]). }
  split; [done|]. split.
  { intros j. rewrite Hqueue. destruct (decide (j = i)) as [->|Hne].
    - rewrite list_lookup_insert_eq by done. rewrite Hi.
      split; intros [= E]; subst; done.
    - by rewrite list_lookup_insert_ne. }
  split; [lia|]. done.
Qed.

(** A job ends: it gives its permit back, or hands it to the first
    waiter. *)
Lemma coherent_release (resumed : option nat) (sem : Semaphore.t)
    (micro : list nat) (phs : list Phase) (i : nat) (old new : Phase) :
  coherent maxConcurrent jobCount resumed sem micro phs ->
  phs !! i = Some old ->
  holdsPermit old = true -> holdsPermit new = false ->
  (resumed = None /\ old <> Granted) \/ resumed = Some i ->
  new <> Waiting ->
  coherent maxConcurrent jobCount None
    (Semaphore.release sem).1
    (match (Semaphore.release sem).2 with
     | Some waiter => micro ++ [waiter]
     | None => micro
     end)
    (match (Semaphore.release sem).2 with
     | Some waiter => <[waiter := Granted]> (<[i := new]> phs)
     | None => <[i := new]> phs
     end).
Proof.
  intros (Hlen & Hnd & Hmicro & Hndq & Hqueue & Hperm & Hq0 & Hk)
    Hi Hold Hnew Hres Hnw.
  pose proof (lookup_lt_Some _ _ _ Hi) as Hlt.
  pose proof (permitsHeld_insert _ _ _ new Hi) as Hcount.
  rewrite Hold, Hnew in Hcount.
  assert (new <> Granted) as Hng by (intros ->; done).
  assert (forall j, j <> i ->
            j ∈ micro <-> phs !! j = Some Granted) as Hmicro'.
  { intros j Hne. rewrite Hmicro.
    destruct Hres as [[-> _]| ->]; split; try intros [_ ?]; try done;
      intros ?; split; congruence. }
  assert (i ∉ micro) as Himicro.
  { rewrite Hmicro. destruct Hres as [[-> Hog]| ->]; intros [? E];
      congruence. }
  unfold Semaphore.release.
  destruct (Semaphore.queue sem) as [|next rest] eqn:Eq;
    unfold coherent; cbn [fst snd Semaphore.permits Semaphore.queue].
  - split; [by rewrite length_insert|]. split; [done|]. split.
    { intros j. destruct (decide (j = i)) as [->|Hne].
      - rewrite list_lookup_insert_eq by done.
        split; [done|]. intros [_ [= E]]. done.
      - rewrite list_lookup_insert_ne by done. rewrite Hmicro' by done.
        split; [done|]. by intros [_ ?]. }
    split; [constructor|]. split.
    { intros j. split; [by intros ?%elem_of_nil|].
      destruct (decide (j = i)) as [->|Hne].
      - rewrite list_lookup_insert_eq by done. intros [= E]. done.
      - rewrite list_lookup_insert_ne by done. intros Hw.
        apply Hqueue in Hw. by apply elem_of_nil in Hw. }
    split; [lia|]. split; [done|]. intros Hk0. specialize (Hk Hk0). lia.
  - assert (phs !! next = Some Waiting) as Hnext
      by (apply Hqueue; left).
    assert (next <> i) as Hni.
    { intros ->. rewrite Hi in Hnext. injection Hnext as ->. done. }
    assert ((next ∉ rest) /\ NoDup rest) as [Hnr Hndr]
      by (by apply NoDup_cons).
    assert (next < length phs)%nat as Hnlt
      by (by eapply lookup_lt_Some).
    assert ((<[i := new]> phs) !! next = Some Waiting) as Hnext'
      by (by rewrite list_lookup_insert_ne).
    pose proof (permitsHeld_insert _ _ _ Granted Hnext') as Hcount'.
    cbn in Hcount'.
    split; [by rewrite !length_insert|]. split.
    { apply NoDup_app. split; [done|]. split; [|apply NoDup_singleton].
      intros j Hj ->%list_elem_of_singleton.
      destruct (decide (next = i)) as [->|?]; [done|].
      apply Hmicro' in Hj; [|done]. congruence. }
    split.
    { intros j. rewrite elem_of_app, list_elem_of_singleton.
      destruct (decide (j = next)) as [->|Hjn].
      - rewrite list_lookup_insert_eq by (by rewrite length_insert).
        split; [done|]. by right.
      - rewrite list_lookup_insert_ne by done.
        destruct (decide (j = i)) as [->|Hne].
        + rewrite list_lookup_insert_eq by done. split.
          * intros [?|?]; done.
          * intros [_ [= E]]. done.
        + rewrite list_lookup_insert_ne by done. rewrite Hmicro' by done.
          split; [intros [?|?]; done|]. intros [_ ?]. by left. }
    split; [done|]. split.
    { intros j. destruct (decide (j = next)) as [->|Hjn].
      - rewrite list_lookup_insert_eq by (by rewrite length_insert).
        split; [done|]. intros [= E].
      - rewrite list_lookup_insert_ne by done.
        destruct (decide (j = i)) as [->|Hne].
        + rewrite list_lookup_insert_eq by done. split.
          * intros Hin. assert (i ∈ next :: rest) as Hin' by (by right).
            apply Hqueue in Hin'. rewrite Hi in Hin'.
            injection Hin' as ->. done.
          * intros [= E]. done.
        + rewrite list_lookup_insert_ne by done. rewrite <- Hqueue.
          rewrite elem_of_cons. split; [by right|]. by intros [?|?]. }
    split; [lia|]. split; [|done].
    intros _. apply Hq0. done.
Qed.
End Coherence.

Lemma coherent_pop (maxConcurrent : Z) (jobCount : nat) (sem : Semaphore.t)
    (i : nat) (rest : list nat) (phs : list Phase) :
  coherent maxConcurrent jobCount None sem (i :: rest) phs ->
  coherent maxConcurrent jobCount (Some i) sem rest phs.
Proof.
  intros (Hlen & Hnd & Hmicro & Hrest).
  apply NoDup_cons in Hnd as [Hni Hnd].
  split; [done|]. split; [done|]. split; [|done].
  intros j. split.
  - intros Hj. split; [intros [= ->]; done|].
    apply Hmicro. by right.
  - intros [Hne Hg]. assert (j ∈ i :: rest) as Hin by (by apply Hmicro).
    apply elem_of_cons in Hin as [->|?]; done.
Qed.

Lemma permitsHeld_snoc (phs : list Phase) (p : Phase) :
  permitsHeld (phs ++ [p])
  = (permitsHeld phs + (if holdsPermit p then 1 else 0))%nat.
Proof.
  unfold permitsHeld. rewrite filter_app, length_app.
  destruct (holdsPermit p) eqn:E.
  - by rewrite filter_cons_True.
  - rewrite filter_cons_False; [done|]. by rewrite E.
Qed.

Section StepFacts.
Context `{PathLib}.
Variables (config : BatchConfig.t) (options : BatchExecutionOptions.t)
          (startedAt : Z) (files : gset string).

Lemma finalize_frame (s : State) :
  semaphore (finalize config startedAt s) = semaphore s /\
  microtasks (finalize config startedAt s) = microtasks s /\
  phases (finalize config startedAt s) = phases s /\
  now (finalize config startedAt s) = now s /\
  fs (finalize config startedAt s) = fs s /\
  timedOut (finalize config startedAt s) = timedOut s /\
  deadlineTimer (finalize config startedAt s) = deadlineTimer s /\
  graceTimer (finalize config startedAt s) = graceTimer s.
Proof. done. Qed.

Lemma settleJob_frame (index : nat) (phase : Phase) (s : State) :
  semaphore (settleJob config startedAt index phase s)
  = (Semaphore.release (semaphore s)).1 /\
  microtasks (settleJob config startedAt index phase s)
  = match (Semaphore.release (semaphore s)).2 with
    | Some waiter => microtasks s ++ [waiter]
    | None => microtasks s
    end /\
  phases (settleJob config startedAt index phase s)
  = match (Semaphore.release (semaphore s)).2 with
    | Some waiter => <[waiter := Granted]> (<[index := phase]> (phases s))
    | None => <[index := phase]> (phases s)
    end /\
  now (settleJob config startedAt index phase s) = now s /\
  fs (settleJob config startedAt index phase s) = fs s /\
  timedOut (settleJob config startedAt index phase s) = timedOut s /\
  deadlineTimer (settleJob config startedAt index phase s)
  = deadlineTimer s /\
  graceTimer (settleJob config startedAt index phase s) = graceTimer s.
Proof.
  unfold settleJob, releaseSlot.
  destruct (Semaphore.release (semaphore s)) as [sem' next].
  cbn [coordinator phases fst snd].
  destruct (coordinator s); [|done..].
  destruct phase; try done;
    match goal with
    | |- context [forallb isFulfilled ?l] =>
        destruct (forallb isFulfilled l)
    end; done.
Qed.

(** The launch loop after [n] jobs. *)
Lemma launch_coherent (n : nat) :
  let '(sem, micro, phs) :=
    fold_left launchJob (seq 0 n)
              (Semaphore.new (maxConcurrent config), [], []) in
  coherent (maxConcurrent config) n None sem micro phs /\
  Forall (fun p => p = Granted \/ p = Waiting) phs.
Proof.
  induction n as [|n IH].
  - cbn [seq fold_left]. split; [|constructor].
    unfold coherent, Semaphore.new, permitsHeld.
    cbn [Semaphore.permits Semaphore.queue filter length].
    split; [done|]. split; [constructor|].
    split; [intros i; split; [by intros ?%elem_of_nil|by intros [_ ?]]|].
    split; [constructor|].
    split; [intros i; split; [by intros ?%elem_of_nil|done]|].
    split; [cbn; lia|]. split; [done|]. done.
  - rewrite seq_S, fold_left_app. cbn [fold_left Nat.add].
    destruct (fold_left launchJob (seq 0 n) _) as [[sem micro] phs].
    destruct IH as
      [(Hlen & Hnd & Hmicro & Hndq & Hqueue & Hperm & Hq0 & Hk) Hall].
    assert (forall j, j ∈ micro -> (j < n)%nat) as Hmlt.
    { intros j [_ Hj]%Hmicro. apply lookup_lt_Some in Hj. lia. }
    assert (forall j, j ∈ Semaphore.queue sem -> (j < n)%nat) as Hqlt.
    { intros j Hj%Hqueue. apply lookup_lt_Some in Hj. lia. }
    assert (forall (p q : Phase) j,
              (phs ++ [p]) !! j = Some q <->
              phs !! j = Some q \/ (j = n /\ p = q)) as Hsnoc.
    { intros p q j. destruct (decide (j < n)%nat) as [Hlt|Hge].
      - rewrite lookup_app_l by lia. split; [by left|].
        intros [?| [-> _]]; [done|lia].
      - rewrite lookup_app_r by lia. rewrite Hlen. split.
        + intros Hj. right. destruct (j - n)%nat as [|d] eqn:E; [|done].
          cbn in Hj. injection Hj as ->. split; [lia|done].
        + intros [Hj|[-> ->]].
          * apply lookup_lt_Some in Hj. lia.
          * by rewrite Nat.sub_diag. }
    unfold launchJob, Semaphore.acquire.
    destruct (0 <? Semaphore.permits sem) eqn:Ep.
    + apply Z.ltb_lt in Ep. split; [|apply Forall_app; split;
        [done|constructor; [by left|constructor]]].
      unfold coherent. cbn [Semaphore.permits Semaphore.queue].
      rewrite permitsHeld_snoc. cbn [holdsPermit].
      split; [rewrite length_app; cbn; lia|].
      split.
      { apply NoDup_app. split; [done|]. split; [|apply NoDup_singleton].
        intros j Hj ->%list_elem_of_singleton. apply Hmlt in Hj. lia. }
      split.
      { intros j. rewrite elem_of_app, list_elem_of_singleton, Hsnoc.
        rewrite Hmicro. split.
        - intros [[_ ?]| ->]; (split; [done|]); [by left|by right].
        - intros [_ [?| [-> _]]]; [left|right]; done. }
      split; [done|]. split.
      { intros j. rewrite Hsnoc, Hqueue. split; [by left|].
        intros [?|[_ ?]]; done. }
      split; [lia|]. split; [|lia].
      intros Hne. specialize (Hq0 Hne). lia.
    + apply Z.ltb_ge in Ep. split; [|apply Forall_app; split;
        [done|constructor; [by right|constructor]]].
      unfold coherent. cbn [Semaphore.permits Semaphore.queue].
      rewrite permitsHeld_snoc. cbn [holdsPermit].
      split; [rewrite length_app; cbn; lia|].
      split; [done|]. split.
      { intros j. rewrite Hsnoc, Hmicro. split.
        - intros [? ?]. split; [done|by left].
        - intros [_ [?|[_ ?]]]; done. }
      split.
      { apply NoDup_app. split; [done|]. split; [|apply NoDup_singleton].
        intros j Hj ->%list_elem_of_singleton. apply Hqlt in Hj. lia. }
      split.
      { intros j. rewrite elem_of_app, list_elem_of_singleton, Hsnoc.
        rewrite Hqueue. split.
        - intros [?| ->]; [by left|by right].
        - intros [?| [-> _]]; [left|right]; done. }
      split; [lia|]. split; [done|]. done.
Qed.

Lemma structured_initial : structured config (initial config startedAt files).
Proof.
  pose proof (launch_coherent (length (BatchConfig.jobs config))) as Hl.
  unfold initial, launch, structured.
  destruct (fold_left launchJob _ _) as [[sem micro] phs].
  destruct Hl as [Hl _].
  by destruct (forallb isFulfilled phs).
Qed.

Lemma structured_step (e : Event) (s s' : State) :
  structured config s ->
  step config options startedAt e s = Some s' ->
  structured config s'.
Proof.
  unfold structured. intros Hs Hstep. apply step_inv in Hstep.
  destruct e as [|index instant|index executor| |].
  - destruct Hstep as (index & rest & job & Em & Ep & _ & ->).
    rewrite Em in Hs. apply coherent_pop in Hs.
    unfold resumeJob. cbn [timedOut dequeue].
    destruct (timedOut s).
    + match goal with
      | |- context [settleJob _ _ _ _ ?s0] =>
          destruct (settleJob_frame index Fulfilled s0)
            as (-> & -> & -> & _)
      end.
      eapply coherent_release; eauto.
    + destruct (resolveOutputPath job index _ _) as [outputPath|message].
      * eapply coherent_setPhase; eauto.
      * match goal with
        | |- context [settleJob _ _ _ _ ?s0] =>
            destruct (settleJob_frame index (Rejected message) s0)
              as (-> & -> & -> & _)
        end.
        eapply coherent_release; eauto.
  - destruct Hstep as (outputPath & uniquePath & Ep & _ & _ & ->).
    eapply coherent_setPhase; eauto.
  - destruct Hstep as (uniquePath & jobStartTime & job & Ep & _ & _ & ->).
    match goal with
    | |- context [settleJob _ _ _ _ ?s0] =>
        destruct (settleJob_frame index Fulfilled s0) as (-> & -> & -> & _)
    end.
    eapply coherent_release; eauto.
  - by destruct Hstep as (due & _ & _ & ->).
  - by destruct Hstep as (due & _ & _ & ->).
Qed.

Lemma run_structured (trace : list Event) (s : State) :
  run config options startedAt files trace = Some s ->
  structured config s.
Proof.
  apply (run_invariant config options startedAt files (structured config)).
  - apply structured_initial.
  - intros e s0 s1. apply structured_step.
Qed.
End StepFacts.

(** ** Sorting and counting the outcomes *)

Lemma insertByIndex_Permutation (x : BatchJobResult.t)
    (l : list BatchJobResult.t) :
  insertByIndex x l ≡ₚ x :: l.
Proof.
  induction l as [|y l IH]; cbn; [done|].
  destruct (_ <=? _)%nat; [done|].
  rewrite IH. apply Permutation_swap.
Qed.

Lemma sortByIndex_Permutation (l : list BatchJobResult.t) :
  sortByIndex l ≡ₚ l.
Proof.
  induction l as [|x l IH]; cbn; [done|].
  by rewrite insertByIndex_Permutation, IH.
Qed.

Lemma insertByIndex_Sorted (x : BatchJobResult.t)
    (l : list BatchJobResult.t) :
  Sorted byIndex l -> Sorted byIndex (insertByIndex x l).
Proof.
  induction l as [|y l IH]; intros Hs; cbn.
  - repeat constructor.
  - destruct (BatchJobResult.index x <=? BatchJobResult.index y)%nat eqn:E.
    + apply Nat.leb_le in E. constructor; [done|]. by constructor.
    + apply Nat.leb_gt in E. apply Sorted_inv in Hs as [Hs Hhd].
      constructor; [by apply IH|].
      destruct l as [|z l]; cbn.
      * constructor. unfold byIndex. lia.
      * destruct (_ <=? _)%nat; constructor; unfold byIndex; [lia|].
        by apply HdRel_inv in Hhd.
Qed.

Lemma sortByIndex_Sorted (l : list BatchJobResult.t) :
  Sorted byIndex (sortByIndex l).
Proof.
  induction l as [|x l IH]; cbn; [constructor|].
  by apply insertByIndex_Sorted.
Qed.

Lemma Sorted_le_seq (start len : nat) : Sorted le (seq start len).
Proof.
  revert start. induction len as [|len IH]; intros start; cbn;
    [constructor|].
  constructor; [apply IH|].
  destruct len; cbn; constructor. lia.
Qed.

(** A list of numbers that is sorted and has each of [start .. start+len-1]
    exactly once is that interval. *)
Lemma sorted_interval (l : list nat) (start len : nat) :
  Sorted le l -> NoDup l ->
  (forall x, x ∈ l <-> (start <= x < start + len)%nat) ->
  l = seq start len.
Proof.
  intros Hs Hnd Hin.
  apply (Sorted_unique le); [done|apply Sorted_le_seq|].
  apply NoDup_Permutation; [done|apply NoDup_seq|].
  intros x. rewrite Hin, elem_of_seq. lia.
Qed.

Lemma countStatus_total (l : list BatchJobResult.t) :
  (countStatus completed l + countStatus failed l + countStatus cancelled l
   = length l)%nat.
Proof.
  unfold countStatus. induction l as [|r l IH]; [done|].
  rewrite !filter_cons.
  destruct (BatchJobResult.status r); repeat case_decide; try done;
    cbn [length]; lia.
Qed.

Lemma cancelRemaining_spec (processed : gset nat) (i : nat)
    (jobs : list BatchJobConfig.t) (r : BatchJobResult.t) :
  r ∈ cancelRemaining processed i jobs <->
  exists j job,
    jobs !! j = Some job /\
    ((i + j + 1)%nat ∉ processed) /\
    r = cancelledResult (i + j) (BatchJobConfig.prompt job)
                        "Batch timed out or cancelled".
Proof.
  revert i. induction jobs as [|job jobs IH]; intros i; cbn.
  - split; [by intros ?%elem_of_nil|]. by intros (j & job & ? & _).
  - rewrite elem_of_app, IH. split.
    + intros [Hr|(j & job' & Hj & Hp & ->)].
      * case_bool_decide as Hp; [by apply elem_of_nil in Hr|].
        apply list_elem_of_singleton in Hr as ->.
        exists 0%nat, job. rewrite Nat.add_0_r. done.
      * exists (S j), job'.
        replace (i + S j)%nat with (i + 1 + j)%nat by lia. done.
    + intros ([|j] & job' & Hj & Hp & ->).
      * left. cbn in Hj. injection Hj as ->.
        rewrite Nat.add_0_r in *. rewrite bool_decide_eq_false_2 by done.
        by apply list_elem_of_singleton.
      * right. exists j, job'.
        replace (i + 1 + j)%nat with (i + S j)%nat by lia. done.
Qed.

Lemma cancelRemaining_indices (processed : gset nat) (i : nat)
    (jobs : list BatchJobConfig.t) :
  map BatchJobResult.index (cancelRemaining processed i jobs)
  = filter (fun x => x ∉ processed) (seq (i + 1) (length jobs)).
Proof.
  revert i. induction jobs as [|job jobs IH]; intros i; [done|].
  cbn [cancelRemaining length seq]. rewrite map_app, IH, filter_cons.
  replace (S (i + 1)) with (i + 1 + 1)%nat by lia.
  case_bool_decide; case_decide; done.
Qed.

Lemma calculateTotalCost_Ok (results : list BatchJobResult.t)
    (config : BatchConfig.t) :
  (forall r, r ∈ results -> is_Some (jobOfResult config r)) ->
  exists cost, calculateTotalCost results config = Ok cost.
Proof.
  unfold calculateTotalCost. generalize 0%float.
  induction results as [|r results IH]; intros total Hjobs; cbn.
  - by eexists.
  - destruct (Hjobs r) as [job Hjob]; [left|]. rewrite Hjob.
    destruct (BatchJobResult.status r), (BatchJobResult.video_duration r);
      try destruct (truthy_number _);
      apply IH; intros r' Hr'; apply Hjobs; by right.
Qed.

Section Finalize.
Variables (config : BatchConfig.t) (startedAt : Z).

Let jobCount : nat := length (BatchConfig.jobs config).

Lemma finalResults_indices (s : State) :
  length (phases s) = jobCount ->
  recorded s ->
  map BatchJobResult.index (finalResults config s) = seq 1 jobCount /\
  NoDup (map BatchJobResult.index
           (results s
            ++ cancelRemaining
                 (list_to_set (map BatchJobResult.index (results s))) 0
                 (BatchConfig.jobs config))).
Proof.
  intros Hlen [Hnd Hfulfilled]. unfold finalResults.
  set (processed := list_to_set (map BatchJobResult.index (results s))
                    : gset nat).
  set (all := results s
              ++ cancelRemaining processed 0 (BatchConfig.jobs config)).
  assert (forall x, x ∈ map BatchJobResult.index (results s) ->
                    (1 <= x < 1 + jobCount)%nat) as Hrange.
  { intros x Hx. change (x ∈ BatchJobResult.index <$> results s) in Hx.
    apply list_elem_of_fmap in Hx as (r & -> & Hr).
    destruct (Hfulfilled r Hr) as (i & -> & Hi).
    apply lookup_lt_Some in Hi. lia. }
  assert (map BatchJobResult.index all
          = map BatchJobResult.index (results s)
            ++ filter (fun x => x ∉ processed) (seq 1 jobCount)) as Hall.
  { unfold all. by rewrite map_app, cancelRemaining_indices. }
  assert (NoDup (map BatchJobResult.index all)) as Hndall.
  { rewrite Hall. apply NoDup_app. split; [done|]. split.
    - intros x Hx [Hnp _]%list_elem_of_filter. apply Hnp.
      by apply elem_of_list_to_set.
    - apply NoDup_filter, NoDup_seq. }
  split; [|done].
  apply sorted_interval.
  - change (Sorted le (BatchJobResult.index <$> sortByIndex all)).
    eapply (Sorted_fmap _ byIndex le); [|apply sortByIndex_Sorted].
    by intros a b.
  - change (NoDup (BatchJobResult.index <$> sortByIndex all)).
    rewrite sortByIndex_Permutation. done.
  - intros x.
    change (x ∈ BatchJobResult.index <$> sortByIndex all
            <-> (1 <= x < 1 + jobCount)%nat).
    rewrite sortByIndex_Permutation.
    change (x ∈ map BatchJobResult.index all
            <-> (1 <= x < 1 + jobCount)%nat).
    rewrite Hall, elem_of_app, list_elem_of_filter, elem_of_seq. split.
    + intros [Hx|[_ Hx]]; [by apply Hrange|lia].
    + intros Hx. destruct (decide (x ∈ processed)) as [Hp|Hp].
      * left. by apply elem_of_list_to_set in Hp.
      * right. split; [done|lia].
Qed.

Lemma finalize_wellFormed (s : State) :
  length (phases s) = jobCount ->
  recorded s ->
  exists r,
    coordinator (finalize config startedAt s) = Returned r /\
    wellFormed config r /\
    BatchResult.results r = finalResults config s /\
    results (finalize config startedAt s) = finalResults config s /\
    BatchResult.finished_at r = now s.
Proof.
  intros Hlen Hrec.
  destruct (finalResults_indices s Hlen Hrec) as [Hidx _].
  destruct (calculateTotalCost_Ok (finalResults config s) config) as [cost Hcost].
  { intros r Hr.
    assert (BatchJobResult.index r
            ∈ map BatchJobResult.index (finalResults config s)) as Hin.
    { change (BatchJobResult.index r
              ∈ BatchJobResult.index <$> finalResults config s).
      by apply list_elem_of_fmap_2. }
    rewrite Hidx in Hin. apply elem_of_seq in Hin.
    unfold jobOfResult.
    destruct (BatchJobResult.index r) as [|i]; [lia|].
    apply lookup_lt_is_Some. fold jobCount. lia. }
  unfold finalize. fold (finalResults config s). cbn [coordinator results].
  rewrite Hcost. eexists. split; [done|].
  split; [|done].
  unfold wellFormed.
  cbn [BatchResult.results BatchResult.total BatchResult.succeeded
       BatchResult.failed BatchResult.cancelled].
  split; [done|]. split; [done|]. split; [done|]. split; [done|].
  split; [done|].
  rewrite countStatus_total.
  rewrite <- (length_map BatchJobResult.index), Hidx.
  apply length_seq.
Qed.
End Finalize.

(** ** The event loop: what the results hold *)

Section Accounted.
Context `{PathLib}.
Variables (config : BatchConfig.t) (options : BatchExecutionOptions.t)
          (startedAt : Z) (files : gset string).

Let jobCount : nat := length (BatchConfig.jobs config).

Lemma releaseSlot_frame (index : nat) (phase : Phase) (s : State) :
  semaphore (releaseSlot index phase s)
  = (Semaphore.release (semaphore s)).1 /\
  microtasks (releaseSlot index phase s)
  = match (Semaphore.release (semaphore s)).2 with
    | Some waiter => microtasks s ++ [waiter]
    | None => microtasks s
    end /\
  phases (releaseSlot index phase s)
  = match (Semaphore.release (semaphore s)).2 with
    | Some waiter => <[waiter := Granted]> (<[index := phase]> (phases s))
    | None => <[index := phase]> (phases s)
    end /\
  results (releaseSlot index phase s) = results s /\
  coordinator (releaseSlot index phase s) = coordinator s /\
  now (releaseSlot index phase s) = now s /\
  timedOut (releaseSlot index phase s) = timedOut s /\
  deadlineTimer (releaseSlot index phase s) = deadlineTimer s /\
  graceTimer (releaseSlot index phase s) = graceTimer s.
Proof.
  unfold releaseSlot.
  by destruct (Semaphore.release (semaphore s)) as [sem' next].
Qed.

(** The phases after the [finally] block: the job that ends is in its
    final phase and no fulfilled job has changed. *)
Lemma releaseSlot_phases (resumed : option nat) (index : nat)
    (old phase : Phase) (s : State) :
  coherent (maxConcurrent config) jobCount resumed
           (semaphore s) (microtasks s) (phases s) ->
  phases s !! index = Some old ->
  holdsPermit old = true ->
  length (phases (releaseSlot index phase s)) = jobCount /\
  phases (releaseSlot index phase s) !! index = Some phase /\
  (forall j, phases s !! j = Some Fulfilled ->
             phases (releaseSlot index phase s) !! j = Some Fulfilled) /\
  (forall j outputPath,
     phases (releaseSlot index phase s) !! j = Some (Resolving outputPath) ->
     j <> index ->
     phases s !! j = Some (Resolving outputPath)).
Proof.
  intros (Hlen & _ & _ & _ & Hqueue & _) Hi Hold.
  destruct (releaseSlot_frame index phase s) as (_ & _ & -> & _).
  pose proof (lookup_lt_Some _ _ _ Hi) as Hlt.
  unfold Semaphore.release.
  destruct (Semaphore.queue (semaphore s)) as [|next rest] eqn:Eq;
    cbn [snd].
  - split; [by rewrite length_insert|].
    split; [by apply list_lookup_insert_eq|]. split.
    + intros j Hj. rewrite list_lookup_insert_ne; [done|].
      intros ->. rewrite Hi in Hj. by injection Hj as ->.
    + intros j outputPath Hj Hne. by rewrite list_lookup_insert_ne in Hj.
  - assert (phases s !! next = Some Waiting) as Hnext
      by (apply Hqueue; left).
    assert (next <> index) as Hni.
    { intros ->. rewrite Hi in Hnext. by injection Hnext as ->. }
    split; [by rewrite !length_insert|].
    split.
    { rewrite list_lookup_insert_ne by done.
      by apply list_lookup_insert_eq. }
    split.
    + intros j Hj.
      rewrite !list_lookup_insert_ne; [done| |].
      * intros ->. rewrite Hi in Hj. by injection Hj as ->.
      * intros ->. congruence.
    + intros j outputPath Hj Hne.
      destruct (decide (j = next)) as [->|Hjn].
      * rewrite list_lookup_insert_eq in Hj; [done|].
        rewrite length_insert. by eapply lookup_lt_Some.
      * by rewrite !list_lookup_insert_ne in Hj.
Qed.

(** The end of a job task keeps the account of the results. *)
Lemma accounted_settleJob (resumed : option nat) (index : nat)
    (old phase : Phase) (s : State) :
  coherent (maxConcurrent config) jobCount resumed
           (semaphore s) (microtasks s) (phases s) ->
  phases s !! index = Some old ->
  holdsPermit old = true ->
  match coordinator s with
  | Racing | Grace =>
      NoDup (map BatchJobResult.index (results s)) /\
      forall r, r ∈ results s ->
        exists j, BatchJobResult.index r = (j + 1)%nat /\
                  (phases s !! j = Some Fulfilled \/
                   (j = index /\ phase = Fulfilled))
  | Returned r => wellFormed config r
  | Threw message => pathError config options message
  end ->
  (forall message, phase = Rejected message ->
                   pathError config options message) ->
  accounted config options (settleJob config startedAt index phase s).
Proof.
  intros Hco Hi Hold Hacc Hrej.
  destruct (releaseSlot_phases resumed index old phase s Hco Hi Hold)
    as (Hlen & Hidx & Hkeep & _).
  destruct (releaseSlot_frame index phase s)
    as (_ & _ & _ & Hres & Hcoord & _).
  unfold settleJob. rewrite Hcoord.
  assert (coordinator s = Racing \/ coordinator s = Grace ->
          recorded (releaseSlot index phase s)) as Hrec.
  { intros Hc. unfold recorded. rewrite Hres.
    assert (NoDup (map BatchJobResult.index (results s)) /\
            forall r, r ∈ results s ->
              exists j, BatchJobResult.index r = (j + 1)%nat /\
                        (phases s !! j = Some Fulfilled \/
                         (j = index /\ phase = Fulfilled)))
      as [Hnd Hall] by (by destruct Hc as [Hc|Hc]; rewrite Hc in Hacc).
    split; [done|]. intros r Hr.
    destruct (Hall r Hr) as (j & Hj & [Hf|[Hji Hph]]);
      exists j; (split; [done|]); [by apply Hkeep|].
    by rewrite Hji, <- Hph. }
  destruct (coordinator s) eqn:Ec.
  - destruct phase;
      try (destruct (forallb isFulfilled _);
           [match goal with
            | |- context [finalize _ _ ?s0] =>
                destruct (finalize_wellFormed config startedAt s0)
                  as (r & Hr & Hwf & _)
            end;
            [done|by apply Hrec; left|];
            unfold accounted; by rewrite Hr
           |unfold accounted; rewrite Hcoord; apply Hrec; by left]).
    unfold accounted. cbn. by apply Hrej.
  - unfold accounted. rewrite Hcoord. apply Hrec. by right.
  - unfold accounted. by rewrite Hcoord.
  - unfold accounted. by rewrite Hcoord.
Qed.
End Accounted.

Lemma setTimeout_delay_pos (ms : Z) : 1 <= setTimeout_delay ms.
Proof.
  unfold setTimeout_delay.
  destruct (ms <? 1) eqn:E1; cbn; [lia|].
  destruct (2147483647 <? ms); lia.
Qed.

Section Sound.
Context `{PathLib}.
Variables (config : BatchConfig.t) (options : BatchExecutionOptions.t)
          (startedAt : Z) (files : gset string).

Let jobCount : nat := length (BatchConfig.jobs config).

Lemma settleJob_coordinator (index : nat) (phase : Phase) (s : State) :
  match coordinator s with
  | Racing =>
      match coordinator (settleJob config startedAt index phase s) with
      | Grace => False
      | _ => True
      end
  | c => coordinator (settleJob config startedAt index phase s) = c
  end.
Proof.
  destruct (releaseSlot_frame index phase s)
    as (_ & _ & _ & _ & Hcoord & _).
  unfold settleJob. rewrite Hcoord.
  destruct (coordinator s) eqn:Ec; try done.
  destruct phase; try done;
    (destruct (forallb isFulfilled _); [|by rewrite Hcoord]);
    unfold finalize; cbn [coordinator];
    by destruct (calculateTotalCost _ _).
Qed.

Lemma timed_settleJob (index : nat) (phase : Phase) (s : State) :
  timed s -> timed (settleJob config startedAt index phase s).
Proof.
  intros Ht.
  pose proof (settleJob_coordinator index phase s) as Hc.
  destruct (settleJob_frame config startedAt index phase s)
    as (_ & _ & _ & Hnow & _ & Hto & Hdl & Hgr).
  unfold timed in *. rewrite Hnow, Hto, Hdl, Hgr.
  destruct (coordinator s) eqn:Ec.
  - destruct (coordinator (settleJob config startedAt index phase s));
      try done; by destruct Ht as (_ & ? & _).
  - by rewrite Hc.
  - by rewrite Hc.
  - by rewrite Hc.
Qed.

Lemma mayRunAt_inv (instant : Z) (s : State) :
  mayRunAt instant s = true ->
  microtasks s = [] /\ now s <= instant /\
  (forall due, deadlineTimer s = Some due -> instant <= due) /\
  (forall due, graceTimer s = Some due -> instant <= due).
Proof.
  unfold mayRunAt. destruct (microtasks s); [|done].
  intros [[Hn Hd]%andb_true_iff Hg]%andb_true_iff.
  apply Z.leb_le in Hn.
  split; [done|]. split; [done|]. split; intros due Hdue.
  - rewrite Hdue in Hd. by apply Z.leb_le.
  - rewrite Hdue in Hg. by apply Z.leb_le.
Qed.

(** Moving the clock to an instant at which a callback may run. *)
Lemma timed_advance (instant : Z) (s s' : State) :
  timed s -> mayRunAt instant s = true ->
  now s' = instant -> coordinator s' = coordinator s ->
  timedOut s' = timedOut s -> deadlineTimer s' = deadlineTimer s ->
  graceTimer s' = graceTimer s ->
  timed s'.
Proof.
  intros Ht (_ & _ & Hd & Hg)%mayRunAt_inv Hn Hc Hto Hdl Hgr.
  unfold timed in *. rewrite Hc, Hn, Hto, Hdl, Hgr.
  destruct (coordinator s); [| |done..].
  - destruct Ht as (? & ? & due & Hdue & _).
    split; [done|]. split; [done|]. exists due. split; [done|].
    by apply Hd.
  - destruct Ht as (? & ? & due & Hdue & _).
    split; [done|]. split; [done|]. exists due. split; [done|].
    by apply Hg.
Qed.

Lemma timed_same (s s' : State) :
  timed s ->
  now s' = now s -> coordinator s' = coordinator s ->
  timedOut s' = timedOut s -> deadlineTimer s' = deadlineTimer s ->
  graceTimer s' = graceTimer s ->
  timed s'.
Proof.
  intros Ht Hn Hc Hto Hdl Hgr. unfold timed in *.
  by rewrite Hc, Hn, Hto, Hdl, Hgr.
Qed.

Lemma timed_initial : timed (initial config startedAt files).
Proof.
  unfold initial. destruct (launch config) as [[sem micro] phs].
  destruct (forallb isFulfilled phs).
  - unfold timed, finalize. cbn [coordinator graceTimer].
    by destruct (calculateTotalCost _ _).
  - unfold timed. cbn. split; [done|]. split; [done|].
    eexists. split; [done|].
    pose proof (setTimeout_delay_pos (timeout config)). lia.
Qed.
End Sound.

(** A job that is not fulfilled has no outcome yet: its outcome can be
    appended. *)
Lemma recorded_push (s : State) (index : nat) (old : Phase)
    (r : BatchJobResult.t) :
  recorded s ->
  phases s !! index = Some old -> old <> Fulfilled ->
  BatchJobResult.index r = (index + 1)%nat ->
  NoDup (map BatchJobResult.index (results s ++ [r])) /\
  forall r', r' ∈ results s ++ [r] ->
    exists j, BatchJobResult.index r' = (j + 1)%nat /\
              (phases s !! j = Some Fulfilled \/
               (j = index /\ Fulfilled = Fulfilled)).
Proof.
  intros [Hnd Hall] Hi Hold Hr. split.
  - rewrite map_app. apply NoDup_app. split; [done|].
    split; [|apply NoDup_singleton].
    intros x Hx ->%list_elem_of_singleton.
    change (BatchJobResult.index r ∈ BatchJobResult.index <$> results s)
      in Hx.
    apply list_elem_of_fmap in Hx as (r0 & Heq & Hr0).
    destruct (Hall r0 Hr0) as (j & Hj & Hf).
    assert (j = index) as -> by lia. congruence.
  - intros r' [Hr'| ->%list_elem_of_singleton]%elem_of_app.
    + destruct (Hall r' Hr') as (j & Hj & Hf). eauto.
    + eauto.
Qed.

Lemma recorded_weaken (s : State) (index : nat) (phase : Phase) :
  recorded s ->
  NoDup (map BatchJobResult.index (results s)) /\
  forall r, r ∈ results s ->
    exists j, BatchJobResult.index r = (j + 1)%nat /\
              (phases s !! j = Some Fulfilled \/
               (j = index /\ phase = Fulfilled)).
Proof.
  intros [Hnd Hall]. split; [done|]. intros r Hr.
  destruct (Hall r Hr) as (j & ? & ?). eauto.
Qed.

Lemma recorded_setPhase (s : State) (index : nat) (old new : Phase) :
  recorded s ->
  phases s !! index = Some old -> old <> Fulfilled ->
  recorded (setPhase index new s).
Proof.
  intros [Hnd Hall] Hi Hold. split; [done|]. intros r Hr.
  destruct (Hall r Hr) as (j & Hj & Hf). exists j. split; [done|].
  cbn [setPhase phases]. rewrite list_lookup_insert_ne; [done|].
  intros ->. congruence.
Qed.

Section SoundSteps.
Context `{PathLib}.
Variables (config : BatchConfig.t) (options : BatchExecutionOptions.t)
          (startedAt : Z) (files : gset string).

Let jobCount : nat := length (BatchConfig.jobs config).

Lemma timed_step (e : Event) (s s' : State) :
  timed s -> step config options startedAt e s = Some s' -> timed s'.
Proof.
  intros Ht Hstep. apply step_inv in Hstep.
  destruct e as [|index instant|index executor| |].
  - destruct Hstep as (index & rest & job & _ & _ & _ & ->).
    unfold resumeJob. cbn [timedOut dequeue].
    destruct (timedOut s) eqn:Eto.
    + apply timed_settleJob. by eapply timed_same.
    + destruct (resolveOutputPath job index _ _) as [outputPath|message].
      * by eapply timed_same.
      * apply timed_settleJob. by eapply timed_same.
  - destruct Hstep as (outputPath & uniquePath & _ & Hm & _ & ->).
    by eapply timed_advance.
  - destruct Hstep as (uniquePath & jobStartTime & job & _ & _ & Hm & ->).
    apply timed_settleJob. by eapply timed_advance.
  - destruct Hstep as (due & Hdue & Hm & ->).
    unfold timed in *. cbn [fireDeadline coordinator timedOut
      deadlineTimer graceTimer now].
    destruct (coordinator s); try done.
    + split; [done|]. split; [done|]. eexists. split; [done|].
      pose proof (setTimeout_delay_pos 5000). lia.
    + destruct Ht as (_ & Hnone & _). congruence.
  - destruct Hstep as (due & Hdue & Hm & ->).
    unfold timed in *.
    destruct (coordinator s) eqn:Ec; try congruence.
    + destruct Ht as (_ & Hnone & _). congruence.
    + unfold finalize. cbn [coordinator graceTimer endGrace].
      by destruct (calculateTotalCost _ _).
Qed.

Lemma accounted_step (e : Event) (s s' : State) :
  structured config s -> timed s -> accounted config options s ->
  step config options startedAt e s = Some s' ->
  accounted config options s'.
Proof.
  intros Hs Ht Ha Hstep. apply step_inv in Hstep.
  destruct e as [|index instant|index executor| |].
  - destruct Hstep as (index & rest & job & Em & Ep & Ej & ->).
    unfold structured in Hs. rewrite Em in Hs. apply coherent_pop in Hs.
    unfold resumeJob. cbn [timedOut dequeue].
    destruct (timedOut s) eqn:Eto.
    + eapply (accounted_settleJob _ _ _ (Some index) index Granted);
        [done..| |done].
      unfold accounted in Ha. read_state.
      destruct (coordinator s); try done;
        by eapply (recorded_push s index Granted).
    + destruct (resolveOutputPath job index _ _) as [outputPath|message]
        eqn:Er.
      * unfold accounted in *. read_state.
        destruct (coordinator s); try done;
          by eapply (recorded_setPhase (dequeue rest s) index Granted).
      * eapply (accounted_settleJob _ _ _ (Some index) index Granted);
          [done..| |].
        -- unfold accounted in Ha. read_state.
           destruct (coordinator s); try done;
             by apply (recorded_weaken (dequeue rest s)).
        -- intros message' [= <-]. by exists index, job.
  - destruct Hstep as (outputPath & uniquePath & Ep & _ & _ & ->).
    unfold accounted in *. read_state.
    destruct (coordinator s); try done;
      by eapply (recorded_setPhase (advanceTo instant s) index
                   (Resolving outputPath)).
  - destruct Hstep as (uniquePath & jobStartTime & job & Ep & Ej & _ & ->).
    eapply (accounted_settleJob _ _ _ None index
              (Executing uniquePath jobStartTime)); [done..| |done].
    unfold accounted in Ha. read_state.
    destruct (coordinator s); try done;
      (eapply (recorded_push s index (Executing uniquePath jobStartTime));
       [done..|apply retryLoop_index]).
  - destruct Hstep as (due & _ & _ & ->).
    unfold accounted in *. read_state.
    by destruct (coordinator s).
  - destruct Hstep as (due & Hdue & _ & ->).
    unfold timed in Ht. unfold accounted in Ha.
    destruct (coordinator s) eqn:Ec.
    + destruct Ht as (_ & Hnone & _). congruence.
    + destruct (finalize_wellFormed config startedAt (endGrace due s))
        as (r & Hr & Hwf & _); [apply Hs|done|].
      unfold accounted. by rewrite Hr.
    + congruence.
    + congruence.
Qed.

Lemma accounted_initial :
  accounted config options (initial config startedAt files).
Proof.
  pose proof (launch_coherent config
                (length (BatchConfig.jobs config))) as Hl.
  unfold initial, launch.
  destruct (fold_left launchJob _ _) as [[sem micro] phs].
  destruct Hl as [(Hlen & _) _].
  destruct (forallb isFulfilled phs).
  - match goal with
    | |- context [finalize _ _ ?s0] =>
        destruct (finalize_wellFormed config startedAt s0)
          as (r & Hr & Hwf & _)
    end; [done| |].
    + split; [constructor|]. by intros r ?%elem_of_nil.
    + unfold accounted. by rewrite Hr.
  - unfold accounted. cbn. split; [constructor|].
    by intros r ?%elem_of_nil.
Qed.
End SoundSteps.

Section SoundPaths.
Context `{PathLib}.
Variables (config : BatchConfig.t) (options : BatchExecutionOptions.t)
          (startedAt : Z) (files : gset string).

Lemma resolvedPaths_settleJob (resumed : option nat) (index : nat)
    (old phase : Phase) (s : State) :
  coherent (maxConcurrent config) (length (BatchConfig.jobs config))
           resumed (semaphore s) (microtasks s) (phases s) ->
  phases s !! index = Some old ->
  holdsPermit old = true -> holdsPermit phase = false ->
  resolvedPaths config options s ->
  resolvedPaths config options (settleJob config startedAt index phase s).
Proof.
  intros Hco Hi Hold Hnew Hres j outputPath Hj.
  destruct (releaseSlot_phases config resumed index old phase s Hco Hi Hold)
    as (_ & Hidx & _ & Hback).
  destruct (settleJob_frame config startedAt index phase s)
    as (_ & _ & Hph & _).
  destruct (releaseSlot_frame index phase s) as (_ & _ & Hph' & _).
  rewrite Hph, <- Hph' in Hj.
  destruct (decide (j = index)) as [->|Hne].
  - rewrite Hidx in Hj. injection Hj as ->. done.
  - apply Hres. by apply Hback.
Qed.

Lemma resolvedPaths_step (e : Event) (s s' : State) :
  structured config s -> resolvedPaths config options s ->
  step config options startedAt e s = Some s' ->
  resolvedPaths config options s'.
Proof.
  intros Hs Hres Hstep. apply step_inv in Hstep.
  destruct e as [|index instant|index executor| |].
  - destruct Hstep as (index & rest & job & Em & Ep & Ej & ->).
    unfold structured in Hs. rewrite Em in Hs. apply coherent_pop in Hs.
    unfold resumeJob. read_state.
    destruct (timedOut s) eqn:Eto.
    + by eapply (resolvedPaths_settleJob (Some index) index Granted).
    + destruct (resolveOutputPath job index _ _) as [outputPath|message]
        eqn:Er.
      * intros j p Hj. read_state.
        destruct (decide (j = index)) as [->|Hne].
        -- rewrite list_lookup_insert_eq in Hj
             by (by eapply lookup_lt_Some).
           injection Hj as <-. by exists job.
        -- rewrite list_lookup_insert_ne in Hj by done. by apply Hres.
      * by eapply (resolvedPaths_settleJob (Some index) index Granted).
  - destruct Hstep as (outputPath & uniquePath & Ep & _ & _ & ->).
    intros j p Hj. read_state.
    destruct (decide (j = index)) as [->|Hne].
    + rewrite list_lookup_insert_eq in Hj by (by eapply lookup_lt_Some).
      done.
    + rewrite list_lookup_insert_ne in Hj by done. by apply Hres.
  - destruct Hstep as (uniquePath & jobStartTime & job & Ep & Ej & _ & ->).
    by eapply (resolvedPaths_settleJob None index
                 (Executing uniquePath jobStartTime)).
  - by destruct Hstep as (due & _ & _ & ->).
  - by destruct Hstep as (due & _ & _ & ->).
Qed.

Lemma resolvedPaths_initial :
  resolvedPaths config options (initial config startedAt files).
Proof.
  pose proof (launch_coherent config
                (length (BatchConfig.jobs config))) as Hl.
  unfold initial, launch.
  destruct (fold_left launchJob _ _) as [[sem micro] phs].
  destruct Hl as [_ Hall].
  assert (forall j p, phs !! j = Some (Resolving p) -> False) as Hno.
  { intros j p Hj. rewrite Forall_forall in Hall.
    destruct (Hall (Resolving p)); [by eapply list_elem_of_lookup_2|..];
      done. }
  destruct (forallb isFulfilled phs); intros j p Hj;
    by destruct (Hno j p).
Qed.

Lemma cancelledUnnamed_final (s : State) :
  Forall cancelledUnnamed (results s) ->
  Forall cancelledUnnamed (finalResults config s).
Proof.
  intros Hall. unfold finalResults. rewrite sortByIndex_Permutation.
  apply Forall_app. split; [done|].
  apply Forall_forall. intros r (j & job & _ & _ & ->)%cancelRemaining_spec.
  by intros _.
Qed.

Lemma noPathForCancelled_finalize (s : State) :
  Forall cancelledUnnamed (results s) ->
  noPathForCancelled (finalize config startedAt s).
Proof.
  intros Hall. apply cancelledUnnamed_final in Hall.
  unfold noPathForCancelled, finalize. fold (finalResults config s).
  read_state. split; [done|].
  intros r. destruct (calculateTotalCost _ _); [|done].
  by intros [= <-].
Qed.

Lemma noPathForCancelled_settleJob (index : nat) (phase : Phase)
    (s : State) :
  noPathForCancelled s ->
  noPathForCancelled (settleJob config startedAt index phase s).
Proof.
  intros [Hall Hret].
  destruct (releaseSlot_frame index phase s)
    as (_ & _ & _ & Hres & Hcoord & _).
  assert (noPathForCancelled (releaseSlot index phase s)) as Hrel
    by (unfold noPathForCancelled; by rewrite Hres, Hcoord).
  unfold settleJob. rewrite Hcoord.
  destruct (coordinator s) eqn:Ec; try done.
  destruct phase; try done;
    try (destruct (forallb isFulfilled _); [|done];
         apply noPathForCancelled_finalize; by rewrite Hres).
  unfold noPathForCancelled. read_state. by rewrite Hres.
Qed.

Lemma noPathForCancelled_push (r : BatchJobResult.t) (s s' : State) :
  noPathForCancelled s -> cancelledUnnamed r ->
  results s' = results s ++ [r] -> coordinator s' = coordinator s ->
  noPathForCancelled s'.
Proof.
  intros [Hall Hret] Hr Hres Hcoord. unfold noPathForCancelled.
  rewrite Hres, Hcoord. split; [|done].
  apply Forall_app. split; [done|]. by constructor.
Qed.

Lemma noPathForCancelled_step (e : Event) (s s' : State) :
  noPathForCancelled s ->
  step config options startedAt e s = Some s' ->
  noPathForCancelled s'.
Proof.
  intros Hn Hstep. apply step_inv in Hstep.
  destruct e as [|index instant|index executor| |].
  - destruct Hstep as (index & rest & job & Em & Ep & Ej & ->).
    unfold resumeJob. read_state.
    destruct (timedOut s) eqn:Eto.
    + apply noPathForCancelled_settleJob.
      eapply noPathForCancelled_push; [exact Hn| |done..]. by intros _.
    + destruct (resolveOutputPath job index _ _) as [outputPath|message];
        [done|].
      by apply noPathForCancelled_settleJob.
  - by destruct Hstep as (outputPath & uniquePath & _ & _ & _ & ->).
  - destruct Hstep as (uniquePath & jobStartTime & job & Ep & Ej & _ & ->).
    apply noPathForCancelled_settleJob.
    eapply noPathForCancelled_push; [exact Hn| |done..].
    intros Hc. by apply retryLoop_status in Hc.
  - destruct Hstep as (due & _ & _ & ->). destruct Hn as [Hall Hret].
    split; [done|]. intros r. read_state.
    destruct (coordinator s) eqn:Ec; try done. intros [= <-]. by apply Hret.
  - destruct Hstep as (due & _ & _ & ->).
    apply noPathForCancelled_finalize. apply Hn.
Qed.

Lemma noPathForCancelled_initial :
  noPathForCancelled (initial config startedAt files).
Proof.
  unfold initial. destruct (launch config) as [[sem micro] phs].
  destruct (forallb isFulfilled phs).
  - apply noPathForCancelled_finalize. constructor.
  - split; [constructor|]. done.
Qed.

Lemma sound_initial : sound config options (initial config startedAt files).
Proof.
  split; [apply structured_initial|]. split; [apply timed_initial|].
  split; [apply accounted_initial|].
  split; [apply resolvedPaths_initial|apply noPathForCancelled_initial].
Qed.

Lemma sound_step (e : Event) (s s' : State) :
  sound config options s ->
  step config options startedAt e s = Some s' ->
  sound config options s'.
Proof.
  intros (Hs & Ht & Ha & Hr & Hn) Hstep.
  split; [by eapply structured_step|].
  split; [by eapply timed_step|].
  split; [by eapply accounted_step|].
  split; [by eapply resolvedPaths_step|by eapply noPathForCancelled_step].
Qed.

Lemma run_sound (trace : list Event) (s : State) :
  run config options startedAt files trace = Some s ->
  sound config options s.
Proof.
  apply (run_invariant config options startedAt files
           (sound config options)).
  - apply sound_initial.
  - intros e s0 s1. apply sound_step.
Qed.
End SoundPaths.

(** ** The event loop: [executeBatch] comes to an end *)

Section Progress.
Context `{PathLib}.
Variables (config : BatchConfig.t) (options : BatchExecutionOptions.t)
          (startedAt : Z) (files : gset string).

Lemma resumeJob_queues (index : nat) (job : BatchJobConfig.t)
    (rest : list nat) (s : State) :
  (length (microtasks (resumeJob config options startedAt index job
                         (dequeue rest s)))
   + length (Semaphore.queue
               (semaphore (resumeJob config options startedAt index job
                             (dequeue rest s))))
   = length rest + length (Semaphore.queue (semaphore s)))%nat.
Proof.
  assert (forall phase s0,
            microtasks s0 = rest -> semaphore s0 = semaphore s ->
            (length (microtasks (settleJob config startedAt index phase s0))
             + length (Semaphore.queue
                         (semaphore
                            (settleJob config startedAt index phase s0)))
             = length rest + length (Semaphore.queue (semaphore s)))%nat)
    as Hsettle.
  { intros phase s0 Hm Hsem.
    destruct (settleJob_frame config startedAt index phase s0)
      as (-> & -> & _).
    rewrite Hm, Hsem. unfold Semaphore.release.
    destruct (Semaphore.queue (semaphore s)) as [|next q]; cbn [fst snd];
      rewrite ?length_app; cbn; lia. }
  unfold resumeJob. read_state.
  destruct (timedOut s); [by apply Hsettle|].
  destruct (resolveOutputPath job index _ _); [done|by apply Hsettle].
Qed.

(** The microtask queue drains. *)
Lemma drain_microtasks (n : nat) (s : State) :
  sound config options s ->
  (length (microtasks s) + length (Semaphore.queue (semaphore s)) <= n)%nat ->
  exists trace s',
    Forall (fun e => e = RunMicrotask) trace /\
    runFrom config options startedAt s trace = Some s' /\
    microtasks s' = [] /\
    sound config options s'.
Proof.
  revert s. induction n as [|n IH]; intros s Hs Hn.
  - exists [], s. destruct (microtasks s); [done|cbn in Hn; lia].
  - destruct (microtasks s) as [|index rest] eqn:Em.
    { by exists [], s. }
    pose proof Hs as ((Hlen & _ & Hmicro & _) & _).
    assert (phases s !! index = Some Granted) as Hp.
    { apply Hmicro. rewrite Em. left. }
    destruct (lookup_lt_is_Some_2 (BatchConfig.jobs config) index)
      as [job Hjob].
    { rewrite <- Hlen. by eapply lookup_lt_Some. }
    assert (step config options startedAt RunMicrotask s
            = Some (resumeJob config options startedAt index job
                      (dequeue rest s))) as Hstep.
    { cbn. by rewrite Em, Hp, Hjob. }
    destruct (IH (resumeJob config options startedAt index job
                    (dequeue rest s)))
      as (trace & s' & Htrace & Hrun & Hempty & Hs').
    + by eapply sound_step.
    + rewrite resumeJob_queues. cbn in Hn. lia.
    + exists (RunMicrotask :: trace), s'.
      split; [by constructor|]. split; [|done].
      cbn [runFrom]. by rewrite Hstep.
Qed.

(** Once no microtask is queued, the timers bring [executeBatch] to its
    [return]. *)
Lemma timers_finish (s : State) :
  sound config options s ->
  microtasks s = [] ->
  coordinator s = Racing \/ coordinator s = Grace ->
  exists trace s' r,
    Forall isInternal trace /\
    runFrom config options startedAt s trace = Some s' /\
    coordinator s' = Returned r.
Proof.
  intros Hs Hm Hc.
  assert (forall g, sound config options g ->
            microtasks g = [] -> coordinator g = Grace ->
            exists s' r,
              step config options startedAt GraceElapsed g = Some s' /\
              coordinator s' = Returned r) as Hgrace.
  { intros g (Hstr & Ht & Ha & _) Hgm Hgc.
    unfold timed in Ht. unfold accounted in Ha. rewrite Hgc in Ht, Ha.
    destruct Ht as (_ & Hdl & due & Hdue & Hnow).
    destruct (finalize_wellFormed config startedAt (endGrace due g))
      as (r & Hr & _); [apply Hstr|done|].
    exists (finalize config startedAt (endGrace due g)), r.
    split; [|done]. cbn. rewrite Hdue. unfold mayRunAt.
    rewrite Hgm, Hdl, Hdue.
    assert ((now g <=? due) = true) as -> by (by apply Z.leb_le).
    by rewrite Z.leb_refl. }
  destruct Hc as [Hc|Hc].
  - pose proof Hs as (_ & Ht & _).
    unfold timed in Ht. rewrite Hc in Ht.
    destruct Ht as (_ & Hgr & due & Hdue & Hnow).
    assert (step config options startedAt DeadlineFired s
            = Some (fireDeadline due s)) as Hstep.
    { cbn. rewrite Hdue. unfold mayRunAt. rewrite Hm, Hdue, Hgr.
      assert ((now s <=? due) = true) as -> by (by apply Z.leb_le).
      by rewrite Z.leb_refl. }
    destruct (Hgrace (fireDeadline due s)) as (s' & r & Hstep' & Hr).
    + by eapply sound_step.
    + done.
    + cbn. by rewrite Hc.
    + exists [DeadlineFired; GraceElapsed], s', r.
      split; [by repeat constructor|]. split; [|done].
      cbn [runFrom]. by rewrite Hstep, Hstep'.
  - destruct (Hgrace s Hs Hm Hc) as (s' & r & Hstep' & Hr).
    exists [GraceElapsed], s', r.
    split; [by repeat constructor|]. split; [|done].
    cbn [runFrom]. by rewrite Hstep'.
Qed.

(** Unless the output path of a job cannot be resolved, [executeBatch]
    can always come to its [return], with no further answer from the
    environment. *)
Lemma can_return (s : State) :
  sound config options s ->
  (forall message, ~ pathError config options message) ->
  exists trace s' r,
    Forall isInternal trace /\
    runFrom config options startedAt s trace = Some s' /\
    coordinator s' = Returned r.
Proof.
  intros Hs Hpaths.
  destruct (drain_microtasks _ s Hs (Nat.le_refl _))
    as (trace & s1 & Htrace & Hrun & Hempty & Hs1).
  assert (Forall isInternal trace) as Hint.
  { eapply Forall_impl; [exact Htrace|]. by intros e ->. }
  destruct (coordinator s1) as [| |r|message] eqn:Ec.
  - destruct (timers_finish s1 Hs1 Hempty) as (t2 & s2 & r & H2 & Hrun2 & Hr);
      [by left|].
    exists (trace ++ t2), s2, r. split; [by apply Forall_app|].
    split; [|done]. rewrite runFrom_app, Hrun. done.
  - destruct (timers_finish s1 Hs1 Hempty) as (t2 & s2 & r & H2 & Hrun2 & Hr);
      [by right|].
    exists (trace ++ t2), s2, r. split; [by apply Forall_app|].
    split; [|done]. rewrite runFrom_app, Hrun. done.
  - by exists trace, s1, r.
  - destruct Hs1 as (_ & _ & Ha & _). unfold accounted in Ha.
    rewrite Ec in Ha. by apply Hpaths in Ha.
Qed.
End Progress.

(** ** The batch result *)

(** C1.  Whenever [executeBatch] returns, for a batch of [N] jobs, the
    result holds exactly [N] outcomes, their indices are [1, 2, ..., N] in
    this order (each once, ascending), [total = N], the three counts are the
    numbers of outcomes of each status and add up to [total].  And unless
    the output path of some job cannot be resolved, [executeBatch] does
    return: from every state that the event loop can reach, the microtasks
    and the two timers alone lead to the [return]. *)
Theorem executeBatch_accounts_for_every_job `{PathLib}
    (config : BatchConfig.t) (options : BatchExecutionOptions.t)
    (startedAt : Z) (files : gset string) (trace : list Event) (s : State) :
  run config options startedAt files trace = Some s ->
  let N := length (BatchConfig.jobs config) in
  (forall r : BatchResult.t,
     coordinator s = Returned r ->
     length (BatchResult.results r) = N /\
     map BatchJobResult.index (BatchResult.results r) = seq 1 N /\
     BatchResult.total r = N /\
     BatchResult.succeeded r = countStatus completed (BatchResult.results r) /\
     BatchResult.failed r = countStatus failed (BatchResult.results r) /\
     BatchResult.cancelled r = countStatus cancelled (BatchResult.results r) /\
     (BatchResult.succeeded r + BatchResult.failed r + BatchResult.cancelled r
      = BatchResult.total r)%nat) /\
  ((forall message, ~ pathError config options message) ->
   exists (rest : list Event) (s' : State) (r : BatchResult.t),
     Forall isInternal rest /\
     run config options startedAt files (trace ++ rest) = Some s' /\
     coordinator s' = Returned r).
Proof.
  intros Hrun N. pose proof (run_sound _ _ _ _ _ _ Hrun) as Hs. split.
  - intros r Hr. destruct Hs as (_ & _ & Ha & _).
    unfold accounted in Ha. rewrite Hr in Ha.
    destruct Ha as (Hidx & Htotal & Hsucc & Hfail & Hcanc & Hsum).
    split; [|done].
    rewrite <- (length_map BatchJobResult.index), Hidx. apply length_seq.
  - intros Hpaths.
    destruct (can_return config options startedAt s Hs Hpaths)
      as (rest & s' & r & Hint & Hrest & Hr).
    exists rest, s', r. split; [done|]. split; [|done].
    unfold run in *. by rewrite runFrom_app, Hrun.
Qed.

Lemma executeBatch_accounts_for_every_job_witness :
  exists s r,
    run threeJobs sampleOptions 0 ∅ threeJobsTrace = Some s /\
    coordinator s = Returned r /\
    length (BatchResult.results r) = 3%nat /\
    map BatchJobResult.index (BatchResult.results r) = [1; 2; 3]%nat.
Proof.
  eexists _, _. split; [vm_compute; reflexivity|]. split; [reflexivity|].
  refine (let H :=
            proj1 (executeBatch_accounts_for_every_job threeJobs
                     sampleOptions 0 ∅ threeJobsTrace _ _) _ _ in
          conj (proj1 H) (proj1 (proj2 H)));
    [vm_compute; reflexivity | reflexivity].
Defined.

(** ** The concurrency cap *)

Lemma executing_le_inFlight (s : State) : (executing s <= inFlight s)%nat.
Proof.
unfold executing, inFlight.
induction (phases s) as [|p phs IH]; [done|].
rewrite !filter_cons.
destruct p; repeat case_decide; try done; cbn [length]; lia.
Qed.

(** C2.  The semaphore of a batch is created with [k = maxConcurrent]
    permits; [acquire] takes a permit if one is free and otherwise suspends
    the caller at the end of the queue; [release] resolves the first waiter
    without touching the permits, or, with no waiter, puts the permit back.
    With [k] in 1..5, in every state that the event loop reaches the free
    permits and the jobs that hold one (acquired and not yet released) add
    up to [k], no permit count is negative, and so at most [k] jobs are in
    flight; the jobs inside the Job Executor are among them. *)
Theorem executeBatch_at_most_k_in_flight `{PathLib}
    (config : BatchConfig.t) (options : BatchExecutionOptions.t)
    (startedAt : Z) (files : gset string) (trace : list Event) (s : State) :
  1 <= maxConcurrent config <= 5 ->
  run config options startedAt files trace = Some s ->
  Semaphore.permits (Semaphore.new (maxConcurrent config))
  = maxConcurrent config /\
  (forall (sem : Semaphore.t) (caller : nat),
     0 < Semaphore.permits sem ->
     Semaphore.acquire caller sem
     = ({| Semaphore.permits := Semaphore.permits sem - 1;
           Semaphore.queue := Semaphore.queue sem |}, true)) /\
  (forall (sem : Semaphore.t) (caller : nat),
     Semaphore.permits sem <= 0 ->
     Semaphore.acquire caller sem
     = ({| Semaphore.permits := Semaphore.permits sem;
           Semaphore.queue := Semaphore.queue sem ++ [caller] |}, false)) /\
  (forall (sem : Semaphore.t) (next : nat) (rest : list nat),
     Semaphore.queue sem = next :: rest ->
     Semaphore.release sem
     = ({| Semaphore.permits := Semaphore.permits sem;
           Semaphore.queue := rest |}, Some next)) /\
  (forall sem : Semaphore.t,
     Semaphore.queue sem = [] ->
     Semaphore.release sem
     = ({| Semaphore.permits := Semaphore.permits sem + 1;
           Semaphore.queue := [] |}, None)) /\
  0 <= Semaphore.permits (semaphore s) /\
  Semaphore.permits (semaphore s) + Z.of_nat (inFlight s)
  = maxConcurrent config /\
  Z.of_nat (inFlight s) <= maxConcurrent config /\
  (executing s <= inFlight s)%nat.
Proof.
intros Hk Hrun.
pose proof (run_structured _ _ _ _ _ _ Hrun)
  as (_ & _ & _ & _ & _ & Hperm & _ & Hpos).
rewrite <- inFlight_permitsHeld in Hperm.
split; [done|]. split.
{ intros sem caller Hfree. unfold Semaphore.acquire.
  by rewrite (proj2 (Z.ltb_lt _ _) Hfree). }
split.
{ intros sem caller Hnone. unfold Semaphore.acquire.
  by rewrite (proj2 (Z.ltb_ge _ _) Hnone). }
split.
{ intros sem next rest Hq. unfold Semaphore.release. by rewrite Hq. }
split.
{ intros sem Hq. unfold Semaphore.release. by rewrite Hq. }
split; [apply Hpos; lia|]. split; [done|].
split; [specialize (Hpos ltac:(lia)); lia|apply executing_le_inFlight].
Qed.

Lemma executeBatch_at_most_k_in_flight_witness :
  exists s,
    1 <= maxConcurrent threeJobs <= 5 /\
    run threeJobs sampleOptions 0 ∅ twoExecuting = Some s /\
    Z.of_nat (inFlight s) <= 2 /\
    (executing s <= inFlight s)%nat.
Proof.
eexists. split; [split; by vm_compute|].
split; [vm_compute; reflexivity|].
refine (let H :=
          executeBatch_at_most_k_in_flight threeJobs sampleOptions 0 ∅
            twoExecuting _ _ _ in
        conj (proj1 (proj2 (proj2 (proj2 (proj2 (proj2 (proj2 (proj2 H))))))))
             (proj2 (proj2 (proj2 (proj2 (proj2 (proj2 (proj2 (proj2 H)))))))));
  [split; by vm_compute | vm_compute; reflexivity].
Defined.

(** ** Errors of a job *)

Lemma retryLoop_all_failed
    (job : BatchJobConfig.t) (index : nat) (outputPath : string)
    (config : BatchConfig.t) (pollInterval maxPollAttempts : Z)
    (retryPolicy : EffectiveRetryPolicy) (executor : Executor)
    (jobStartTime : Z) (iterations a : nat) (now : Z) :
  (forall call n, exists message,
     attemptSettled (outcome (executor call n)) = inr message) ->
  BatchJobResult.status
    (run_result
       (retryLoop job index outputPath config pollInterval maxPollAttempts
          retryPolicy executor jobStartTime iterations a now)) = failed.
Proof.
intros Hfail. revert a now.
induction iterations as [|iterations IH]; intros a now; [done|].
rewrite retryLoop_unfold. cbv zeta.
destruct (Hfail (executorCall job outputPath config pollInterval
                   maxPollAttempts) a) as [message ->].
destruct (_ && _); [apply IH|done].
Qed.

Section Containment.
Context `{PathLib}.
Variables (config : BatchConfig.t) (options : BatchExecutionOptions.t)
          (startedAt : Z) (files : gset string).

Lemma settleJob_results (index : nat) (phase : Phase) (s : State)
    (r : BatchJobResult.t) :
  r ∈ results s -> r ∈ results (settleJob config startedAt index phase s).
Proof.
intros Hr.
destruct (releaseSlot_frame index phase s) as (_ & _ & _ & Hres & Hcoord & _).
assert (r ∈ results (finalize config startedAt (releaseSlot index phase s)))
  as Hfin.
{ change (r ∈ finalResults config (releaseSlot index phase s)).
  unfold finalResults. rewrite sortByIndex_Permutation, Hres.
  apply elem_of_app. by left. }
unfold settleJob. rewrite Hcoord.
destruct (coordinator s); [|by rewrite Hres..].
destruct phase; try (destruct (forallb isFulfilled _); [done|by rewrite Hres]).
read_state. by rewrite Hres.
Qed.

(** The end of a fulfilled job task does not make [executeBatch] throw. *)
Lemma settleJob_Fulfilled_coordinator (resumed : option nat) (index : nat)
    (old : Phase) (s : State) (message : string) :
  coherent (maxConcurrent config) (length (BatchConfig.jobs config)) resumed
           (semaphore s) (microtasks s) (phases s) ->
  phases s !! index = Some old ->
  holdsPermit old = true ->
  (coordinator s = Racing ->
   NoDup (map BatchJobResult.index (results s)) /\
   forall r, r ∈ results s ->
     exists j, BatchJobResult.index r = (j + 1)%nat /\
               (phases s !! j = Some Fulfilled \/ j = index)) ->
  coordinator (settleJob config startedAt index Fulfilled s) = Threw message ->
  coordinator s = Threw message.
Proof.
intros Hco Hi Hold Hrec.
destruct (releaseSlot_phases config resumed index old Fulfilled s Hco Hi Hold)
  as (Hlen & Hidx & Hkeep & _).
destruct (releaseSlot_frame index Fulfilled s)
  as (_ & _ & _ & Hres & Hcoord & _).
unfold settleJob. rewrite Hcoord.
destruct (coordinator s) eqn:Ec; try by rewrite Hcoord.
destruct (forallb isFulfilled _); [|by rewrite Hcoord].
destruct (finalize_wellFormed config startedAt
            (releaseSlot index Fulfilled s)) as (r & -> & _); [done| |done].
destruct (Hrec eq_refl) as [Hnd Hall].
split; [by rewrite Hres|]. rewrite Hres. intros r Hr.
destruct (Hall r Hr) as (j & Hj & [Hf|Hji]); exists j; (split; [done|]);
  [by apply Hkeep|by rewrite Hji].
Qed.

Lemma settleJob_siblings (resumed : option nat) (index : nat)
    (old phase : Phase) (s : State) (j : nat) :
  coherent (maxConcurrent config) (length (BatchConfig.jobs config)) resumed
           (semaphore s) (microtasks s) (phases s) ->
  phases s !! index = Some old ->
  j <> index ->
  phases (settleJob config startedAt index phase s) !! j = phases s !! j \/
  (phases s !! j = Some Waiting /\
   phases (settleJob config startedAt index phase s) !! j = Some Granted).
Proof.
intros (_ & _ & _ & _ & Hqueue & _) Hi Hne.
destruct (settleJob_frame config startedAt index phase s) as (_ & _ & -> & _).
unfold Semaphore.release.
destruct (Semaphore.queue (semaphore s)) as [|next rest] eqn:Eq; cbn [snd].
- left. by rewrite list_lookup_insert_ne.
- assert (phases s !! next = Some Waiting) as Hnext by (apply Hqueue; left).
  destruct (decide (j = next)) as [->|Hjn].
  + right. split; [done|]. apply list_lookup_insert_eq.
    rewrite length_insert. by eapply lookup_lt_Some.
  + left. by rewrite !list_lookup_insert_ne.
Qed.
End Containment.

(** C5, as the code has it.  [executeBatch] throws only the error that
    [resolveOutputPath] throws for one of its jobs.  Every failure of the
    Job Executor is contained in its job: when [executeJobWithRetry] of a
    job comes back, its outcome (never [cancelled], and [failed] if every
    call of the executor failed) is recorded under the index of the job,
    the job's task is fulfilled, [executeBatch] does not throw because of
    it, and every other job is where it was, except that the first waiter
    is granted the freed slot.  An error of [resolveOutputPath], however,
    rejects the job's task and, while the race is pending, makes
    [executeBatch] throw that error. *)
Theorem executeBatch_error_containment `{PathLib}
    (config : BatchConfig.t) (options : BatchExecutionOptions.t)
    (startedAt : Z) (files : gset string) (trace : list Event) (s : State) :
  run config options startedAt files trace = Some s ->
  (forall message,
     coordinator s = Threw message -> pathError config options message) /\
  (forall (index : nat) (executor : Executor) (s' : State),
     step config options startedAt (JobSettled index executor) s = Some s' ->
     exists uniquePath jobStartTime job,
       phases s !! index = Some (Executing uniquePath jobStartTime) /\
       BatchConfig.jobs config !! index = Some job /\
       let r :=
         run_result
           (executeJobWithRetry job index uniquePath config
              (pollInterval config) (maxPollAttempts config)
              (effectiveRetryPolicy config) executor jobStartTime) in
       r ∈ results s' /\
       BatchJobResult.index r = (index + 1)%nat /\
       BatchJobResult.status r <> cancelled /\
       ((forall call n, exists message,
           attemptSettled (outcome (executor call n)) = inr message) ->
        BatchJobResult.status r = failed) /\
       phases s' !! index = Some Fulfilled /\
       (forall message,
          coordinator s' = Threw message -> coordinator s = Threw message) /\
       (forall j, j <> index ->
          phases s' !! j = phases s !! j \/
          (phases s !! j = Some Waiting /\ phases s' !! j = Some Granted))) /\
  (forall (index : nat) (rest : list nat) (job : BatchJobConfig.t)
          (message : string),
     microtasks s = index :: rest ->
     BatchConfig.jobs config !! index = Some job ->
     timedOut s = false ->
     coordinator s = Racing ->
     resolveOutputPath job index (outputDir config) (allowAnyPath options)
     = Throw message ->
     exists s',
       step config options startedAt RunMicrotask s = Some s' /\
       coordinator s' = Threw message /\
       phases s' !! index = Some (Rejected message)).
Proof.
intros Hrun.
pose proof (run_sound _ _ _ _ _ _ Hrun) as (Hs & Ht & Ha & Hres & Hn).
split; [|split].
- intros message Hc. unfold accounted in Ha. by rewrite Hc in Ha.
- intros index executor s' Hstep. apply step_inv in Hstep.
  destruct Hstep as (uniquePath & jobStartTime & job & Ep & Ej & _ & ->).
  exists uniquePath, jobStartTime, job. split; [done|]. split; [done|].
  cbv zeta.
  set (r := run_result
              (executeJobWithRetry job index uniquePath config
                 (pollInterval config) (maxPollAttempts config)
                 (effectiveRetryPolicy config) executor jobStartTime)).
  set (s0 := pushResult r _).
  assert (coherent (maxConcurrent config) (length (BatchConfig.jobs config))
            None (semaphore s0) (microtasks s0) (phases s0)) as Hco
    by exact Hs.
  assert (phases s0 !! index = Some (Executing uniquePath jobStartTime))
    as Ep0 by exact Ep.
  split.
  { apply settleJob_results. subst s0. read_state.
    apply elem_of_app. right. by apply list_elem_of_singleton. }
  split; [apply retryLoop_index|].
  split; [apply retryLoop_status|].
  split; [by apply retryLoop_all_failed|].
  split.
  { destruct (settleJob_frame config startedAt index Fulfilled s0)
      as (_ & _ & -> & _).
    destruct (releaseSlot_frame index Fulfilled s0) as (_ & _ & <- & _).
    by destruct (releaseSlot_phases config None index _ Fulfilled s0 Hco Ep0
                   eq_refl) as (_ & Hidx & _). }
  split.
  { intros message Hthrew.
    change (coordinator s) with (coordinator s0).
    eapply (settleJob_Fulfilled_coordinator _ _ None index); [done..| |done].
    intros Hc. unfold accounted in Ha.
    change (coordinator s0) with (coordinator s) in Hc. rewrite Hc in Ha.
    destruct (recorded_push s index _ r Ha Ep) as [Hnd Hall];
      [done|apply retryLoop_index|].
    split; [done|]. intros r' Hr'.
    destruct (Hall r' Hr') as (j & Hj & [?|[? _]]); eauto. }
  intros j Hne. change (phases s !! j) with (phases s0 !! j).
  by eapply settleJob_siblings.
- intros index rest job message Em Ej Eto Ec Er.
  pose proof Hs as (_ & _ & Hmicro & _).
  assert (phases s !! index = Some Granted) as Ep.
  { apply Hmicro. rewrite Em. left. }
  unfold structured in Hs. rewrite Em in Hs. apply coherent_pop in Hs.
  eexists. split.
  { cbn. rewrite Em, Ep, Ej. done. }
  unfold resumeJob. read_state. rewrite Eto, Er.
  destruct (releaseSlot_phases config (Some index) index Granted
              (Rejected message) (dequeue rest s) Hs Ep eq_refl)
    as (_ & Hidx & _).
  destruct (releaseSlot_frame index (Rejected message) (dequeue rest s))
    as (_ & _ & Hph & _ & Hcoord & _).
  destruct (settleJob_frame config startedAt index (Rejected message)
              (dequeue rest s)) as (_ & _ & Hph' & _).
  split.
  + unfold settleJob. rewrite Hcoord. read_state. by rewrite Ec.
  + by rewrite Hph', <- Hph.
Qed.

(** C5, as stated, fails: the first job asks for a file outside the output
    directory, and [executeBatch] throws the error of [resolveOutputPath];
    no outcome is reported, neither for this job nor for the other one. *)
Lemma executeBatch_error_containment_counterexample :
  (fun s => (coordinator s, results s))
    <$> run outsideOutput sampleOptions 0 ∅ [RunMicrotask]
  = Some (Threw "Job 1: absolute output_path must be within output_dir. Use --allow-any-path to override.", []).
Proof. vm_compute. reflexivity. Qed.

Lemma executeBatch_error_containment_witness :
  exists s,
    run threeJobs sampleOptions 0 ∅ twoExecuting = Some s /\
    forall message, coordinator s = Threw message ->
                    pathError threeJobs sampleOptions message.
Proof.
eexists. split; [vm_compute; reflexivity|].
refine (proj1 (executeBatch_error_containment threeJobs sampleOptions 0 ∅
                 twoExecuting _ _)).
vm_compute. reflexivity.
Defined.

(** ** Output paths *)

Section UniquePath.
Context `{PathLib}.

Lemma probeCounter_sound (fs : gset string) (filePath : string)
    (probes counter : nat) (uniquePath : string) :
  probeCounter fs filePath probes counter = Some uniquePath ->
  uniquePath ∉ fs.
Proof.
revert counter. induction probes as [|probes IH]; intros counter; [done|].
cbn. unfold fileExists. case_bool_decide as Hin; [apply IH|].
by intros [= <-].
Qed.

Lemma probeCounter_finds (fs : gset string) (filePath : string)
    (probes counter : nat) :
  (exists c, (counter <= c < counter + probes)%nat /\
             candidatePath filePath c ∉ fs) ->
  is_Some (probeCounter fs filePath probes counter).
Proof.
revert counter. induction probes as [|probes IH]; intros counter.
- intros (c & Hc & _). lia.
- intros (c & Hc & Hfree). cbn. unfold fileExists.
  case_bool_decide as Hin; [|done].
  apply IH. exists c. split; [|done].
  destruct (decide (c = counter)) as [->|?]; [done|lia].
Qed.

(** More distinct candidates than existing paths: one of them is free. *)
Lemma free_candidate (fs : gset string) (candidates : list string) :
  NoDup candidates -> (size fs < length candidates)%nat ->
  exists path, path ∈ candidates /\ path ∉ fs.
Proof.
intros Hnd Hsize.
destruct (decide (Forall (fun path => path ∈ fs) candidates)) as [Hall|Hex].
- assert ((list_to_set candidates : gset string) ⊆ fs) as Hsub.
  { intros path Hp%elem_of_list_to_set.
    rewrite Forall_forall in Hall. by apply Hall. }
  apply subseteq_size in Hsub. rewrite size_list_to_set in Hsub by done. lia.
- apply not_Forall_Exists in Hex; [|apply _].
  apply Exists_exists in Hex as (path & Hp & Hfree). by exists path.
Qed.

Lemma generateUniqueFilePath_sound (fs : gset string)
    (filePath uniquePath : string) :
  generateUniqueFilePath fs filePath = Some uniquePath -> uniquePath ∉ fs.
Proof.
unfold generateUniqueFilePath, fileExists.
case_bool_decide as Hin; cbn [negb].
- apply probeCounter_sound.
- by intros [= <-].
Qed.

Lemma generateUniqueFilePath_returns (fs : gset string) (filePath : string) :
  NoDup (map (candidatePath filePath) (seq 1 (S (size fs)))) ->
  exists uniquePath,
    generateUniqueFilePath fs filePath = Some uniquePath /\
    uniquePath ∉ fs.
Proof.
intros Hnd.
assert (is_Some (generateUniqueFilePath fs filePath)) as [uniquePath Hu].
{ unfold generateUniqueFilePath, fileExists.
  case_bool_decide as Hin; cbn [negb]; [|done].
  apply probeCounter_finds.
  destruct (free_candidate fs _ Hnd) as (path & Hp & Hfree).
  { rewrite length_map, length_seq. lia. }
  change (path ∈ candidatePath filePath <$> seq 1 (S (size fs))) in Hp.
  apply list_elem_of_fmap in Hp as (c & -> & Hc).
  apply elem_of_seq in Hc. exists c. split; [lia|done]. }
exists uniquePath. split; [done|]. by eapply generateUniqueFilePath_sound.
Qed.
End UniquePath.

(** C6, as the code has it.  No output path is resolved when the job tasks
    are created.  A job resolves its path only after it has acquired its
    slot and found [timedOut] false, and the path it then passes to
    [generateUniqueFilePath] is the one that [resolveOutputPath] gives for
    it; the path that comes back names no file that exists at that moment,
    and one comes back whenever the candidate names are pairwise distinct.
    Nothing is reserved.  A job that is resumed after the deadline is
    cancelled without resolving any path, and no cancelled outcome, recorded
    or returned, carries an output path. *)
Theorem output_paths_resolved_after_admission `{PathLib}
    (config : BatchConfig.t) (options : BatchExecutionOptions.t)
    (startedAt : Z) (files : gset string) (trace : list Event) (s : State) :
  run config options startedAt files trace = Some s ->
  Forall (fun p => p = Granted \/ p = Waiting)
         (phases (initial config startedAt files)) /\
  (forall i outputPath,
     phases s !! i = Some (Resolving outputPath) ->
     exists job,
       BatchConfig.jobs config !! i = Some job /\
       resolveOutputPath job i (outputDir config) (allowAnyPath options)
       = Ok outputPath) /\
  (forall index instant s',
     step config options startedAt (PathResolved index instant) s = Some s' ->
     exists outputPath uniquePath,
       phases s !! index = Some (Resolving outputPath) /\
       generateUniqueFilePath (fs s) outputPath = Some uniquePath /\
       (uniquePath ∉ fs s) /\
       phases s' !! index = Some (Executing uniquePath instant)) /\
  (forall (existing : gset string) (filePath : string),
     NoDup (map (candidatePath filePath) (seq 1 (S (size existing)))) ->
     exists uniquePath,
       generateUniqueFilePath existing filePath = Some uniquePath /\
       uniquePath ∉ existing) /\
  (forall index rest job,
     microtasks s = index :: rest ->
     BatchConfig.jobs config !! index = Some job ->
     timedOut s = true ->
     exists s',
       step config options startedAt RunMicrotask s = Some s' /\
       phases s' !! index = Some Fulfilled /\
       cancelledResult index (BatchJobConfig.prompt job)
                       "Batch timed out before job started" ∈ results s') /\
  (forall r, r ∈ results s ->
     BatchJobResult.status r = cancelled ->
     BatchJobResult.output_path r = None) /\
  (forall b r, coordinator s = Returned b -> r ∈ BatchResult.results b ->
     BatchJobResult.status r = cancelled ->
     BatchJobResult.output_path r = None).
Proof.
intros Hrun.
pose proof (run_sound _ _ _ _ _ _ Hrun) as (Hs & Ht & Ha & Hres & Hn).
split.
{ pose proof (launch_coherent config
                (length (BatchConfig.jobs config))) as Hl.
  unfold initial, launch.
  destruct (fold_left launchJob _ _) as [[sem micro] phs].
  destruct Hl as [_ Hall]. by destruct (forallb isFulfilled phs). }
split; [exact Hres|]. split.
{ intros index instant s' Hstep. apply step_inv in Hstep.
  destruct Hstep as (outputPath & uniquePath & Ep & _ & Hg & ->).
  exists outputPath, uniquePath. split; [done|]. split; [done|].
  split; [by eapply generateUniqueFilePath_sound|].
  read_state. apply list_lookup_insert_eq. by eapply lookup_lt_Some. }
split; [apply generateUniqueFilePath_returns|]. split.
{ intros index rest job Em Ej Eto.
  pose proof Hs as (_ & _ & Hmicro & _).
  assert (phases s !! index = Some Granted) as Ep.
  { apply Hmicro. rewrite Em. left. }
  unfold structured in Hs. rewrite Em in Hs. apply coherent_pop in Hs.
  eexists. split.
  { cbn. rewrite Em, Ep, Ej. done. }
  unfold resumeJob. read_state. rewrite Eto.
  set (s0 := pushResult _ _).
  split.
  - destruct (settleJob_frame config startedAt index Fulfilled s0)
      as (_ & _ & -> & _).
    destruct (releaseSlot_frame index Fulfilled s0) as (_ & _ & <- & _).
    by destruct (releaseSlot_phases config (Some index) index Granted
                   Fulfilled s0 Hs Ep eq_refl) as (_ & Hidx & _).
  - apply settleJob_results. subst s0. read_state.
    apply elem_of_app. right. by apply list_elem_of_singleton. }
destruct Hn as [Hall Hret]. split.
- intros r Hr. rewrite Forall_forall in Hall. by apply Hall.
- intros b r Hb Hr. specialize (Hret b Hb). rewrite Forall_forall in Hret.
  by apply Hret.
Qed.

(** C6, as stated, fails.  Two jobs that ask for the same file are both
    handed that file: neither exists yet when the other is checked.  And a
    job that is resumed after the deadline is cancelled with no output path
    at all. *)
Lemma output_paths_resolved_after_admission_counterexample :
  phases <$> run sameOutput sampleOptions 0 ∅ bothResolved
  = Some [Executing "out/clip.mp4" 3; Executing "out/clip.mp4" 4] /\
  (fun s => (phases s,
             map (fun r => (BatchJobResult.index r, BatchJobResult.status r,
                            BatchJobResult.output_path r,
                            BatchJobResult.error r))
                 (results s)))
    <$> run shortDeadline sampleOptions 0 ∅ cancelledOnResume
  = Some ([Fulfilled; Fulfilled],
          [(1%nat, failed, None, Some "content policy violation");
           (2%nat, cancelled, None,
            Some "Batch timed out before job started")]).
Proof. split; vm_compute; reflexivity. Qed.

Lemma output_paths_resolved_after_admission_witness :
  exists s,
    run sameOutput sampleOptions 0 ∅ [RunMicrotask; RunMicrotask] = Some s /\
    forall i outputPath,
      phases s !! i = Some (Resolving outputPath) ->
      exists job,
        BatchConfig.jobs sameOutput !! i = Some job /\
        resolveOutputPath job i (outputDir sameOutput)
                          (allowAnyPath sampleOptions)
        = Ok outputPath.
Proof.
eexists. split; [vm_compute; reflexivity|].
refine (proj1 (proj2 (output_paths_resolved_after_admission sameOutput
                        sampleOptions 0 ∅ [RunMicrotask; RunMicrotask]
                        _ _))).
vm_compute. reflexivity.
Defined.

(** ** The deadline *)

Lemma NoDup_map_inj {A B : Type} (f : A -> B) (l : list A) (x y : A) :
  NoDup (map f l) -> x ∈ l -> y ∈ l -> f x = f y -> x = y.
Proof.
induction l as [|z l IH]; intros Hnd Hx Hy Hf; [by apply elem_of_nil in Hx|].
cbn in Hnd. apply NoDup_cons in Hnd as [Hz Hnd].
assert (forall w, w ∈ l -> f w <> f z) as Hne.
{ intros w Hw Heq. apply Hz. rewrite <- Heq.
  change (f w ∈ f <$> l). by apply list_elem_of_fmap_2. }
apply elem_of_cons in Hx as [->|Hx], Hy as [->|Hy]; try done.
- by destruct (Hne y Hy).
- by destruct (Hne x Hx).
- by apply IH.
Qed.

Lemma sortByIndex_sorted (l : list BatchJobResult.t) :
  Sorted byIndex l -> sortByIndex l = l.
Proof.
induction l as [|x l IH]; intros Hs; [done|].
apply Sorted_inv in Hs as [Hs Hhd].
change (sortByIndex (x :: l)) with (insertByIndex x (sortByIndex l)).
rewrite IH by done.
destruct l as [|y l]; [done|]. cbn [insertByIndex].
apply HdRel_inv in Hhd. unfold byIndex in Hhd.
by rewrite (proj2 (Nat.leb_le _ _) Hhd).
Qed.

Lemma cancelRemaining_empty (i : nat) (jobs : list BatchJobConfig.t) :
  cancelRemaining ∅ i jobs
  = imap (fun j job => cancelledResult (i + j) (BatchJobConfig.prompt job)
                                       "Batch timed out or cancelled") jobs.
Proof.
revert i. induction jobs as [|job jobs IH]; intros i; [done|].
cbn [cancelRemaining imap]. rewrite bool_decide_eq_false_2 by set_solver.
rewrite Nat.add_0_r, IH. cbn [app]. f_equal.
apply imap_ext. intros j job' _. cbn. by replace (i + 1 + j)%nat with (i + S j)%nat by lia.
Qed.

Lemma imap_cancelled_Sorted (i : nat) (jobs : list BatchJobConfig.t) :
  Sorted byIndex
    (imap (fun j job => cancelledResult (i + j) (BatchJobConfig.prompt job)
                                        "Batch timed out or cancelled") jobs).
Proof.
revert i. induction jobs as [|job jobs IH]; intros i; [constructor|].
cbn [imap]. constructor.
- rewrite (imap_ext _ (fun j job' =>
             cancelledResult (S i + j) (BatchJobConfig.prompt job')
                             "Batch timed out or cancelled")); [apply IH|].
  intros j job' _. cbn. by replace (i + S j)%nat with (S (i + j)) by lia.
- destruct jobs as [|job' jobs]; constructor. unfold byIndex. cbn. lia.
Qed.

(** With no outcome recorded, [finalize] leaves a cancellation for every
    job. *)
Lemma finalResults_nothing_recorded (config : BatchConfig.t) (s : State) :
  results s = [] -> finalResults config s = allCancelled config.
Proof.
intros Hnil. unfold finalResults, allCancelled. rewrite Hnil.
cbn [map app]. rewrite list_to_set_nil, cancelRemaining_empty.
exact (sortByIndex_sorted _ (imap_cancelled_Sorted 0 _)).
Qed.

(** Where an outcome is recorded [finalize] keeps it, and elsewhere it puts
    a cancellation. *)
Lemma finalResults_lookup (config : BatchConfig.t) (s : State) (i : nat)
    (job : BatchJobConfig.t) :
  length (phases s) = length (BatchConfig.jobs config) ->
  recorded s ->
  BatchConfig.jobs config !! i = Some job ->
  exists y,
    finalResults config s !! i = Some y /\
    BatchJobResult.index y = (i + 1)%nat /\
    (forall x, x ∈ results s -> BatchJobResult.index x = (i + 1)%nat ->
               y = x) /\
    ((forall x, x ∈ results s -> BatchJobResult.index x <> (i + 1)%nat) ->
     y = cancelledResult i (BatchJobConfig.prompt job)
                         "Batch timed out or cancelled").
Proof.
intros Hlen Hrec Hjob.
destruct (finalResults_indices config s Hlen Hrec) as [Hidx Hnd].
pose proof (lookup_lt_Some _ _ _ Hjob) as Hlt.
assert (map BatchJobResult.index (finalResults config s) !! i
        = Some (1 + i)%nat) as Hi.
{ rewrite Hidx. by apply lookup_seq. }
change ((BatchJobResult.index <$> finalResults config s) !! i
        = Some (1 + i)%nat) in Hi.
rewrite list_lookup_fmap in Hi.
destruct (finalResults config s !! i) as [y|] eqn:Hy; [|done].
cbn in Hi. injection Hi as Hi.
exists y. split; [done|]. split; [lia|].
assert (y ∈ results s
            ++ cancelRemaining
                 (list_to_set (map BatchJobResult.index (results s))) 0
                 (BatchConfig.jobs config)) as Hin.
{ apply list_elem_of_lookup_2 in Hy. unfold finalResults in Hy.
  by rewrite sortByIndex_Permutation in Hy. }
split.
- intros x Hx Hxi. symmetry.
  eapply (NoDup_map_inj BatchJobResult.index); [exact Hnd| |exact Hin|lia].
  apply elem_of_app. by left.
- intros Hnone. apply elem_of_app in Hin as [Hin|Hin].
  + destruct (Hnone y Hin). lia.
  + apply cancelRemaining_spec in Hin as (j & job' & Hj & _ & ->).
    cbn in Hi. assert (j = i) as -> by lia.
    rewrite Hjob in Hj. by injection Hj as <-.
Qed.

Lemma retryLoop_finished_ge
    (job : BatchJobConfig.t) (index : nat) (outputPath : string)
    (config : BatchConfig.t) (pollInterval maxPollAttempts : Z)
    (retryPolicy : EffectiveRetryPolicy) (executor : Executor)
    (jobStartTime : Z) (iterations a : nat) (now : Z) :
  (forall call n, 0 <= elapsed (executor call n)) ->
  now <= run_finished
           (retryLoop job index outputPath config pollInterval
              maxPollAttempts retryPolicy executor jobStartTime
              iterations a now).
Proof.
intros Hpos. revert a now.
induction iterations as [|iterations IH]; intros a now; [done|].
rewrite retryLoop_unfold. cbv zeta.
pose proof (Hpos (executorCall job outputPath config pollInterval
                    maxPollAttempts) a) as He.
destruct (attemptSettled _); [cbn; lia|].
destruct (_ && _); [|cbn; lia].
cbn [run_finished].
pose proof (setTimeout_delay_pos (retryDelay retryPolicy)) as Hd.
etrans; [|apply IH]. lia.
Qed.

(** A run that makes at least one call lasts at least as long as one
    call. *)
Lemma executeJobWithRetry_lasts
    (job : BatchJobConfig.t) (index : nat) (outputPath : string)
    (config : BatchConfig.t) (pollInterval maxPollAttempts : Z)
    (retryPolicy : EffectiveRetryPolicy) (executor : Executor)
    (jobStartTime ms : Z) :
  0 <= maxRetries retryPolicy -> 0 <= ms ->
  (forall call n, ms <= elapsed (executor call n)) ->
  jobStartTime + ms
  <= run_finished
       (executeJobWithRetry job index outputPath config pollInterval
          maxPollAttempts retryPolicy executor jobStartTime).
Proof.
intros Hm Hms Hslow. unfold executeJobWithRetry.
replace (Z.to_nat (maxRetries retryPolicy + 1))
  with (S (Z.to_nat (maxRetries retryPolicy))) by lia.
rewrite retryLoop_unfold. cbv zeta.
pose proof (Hslow (executorCall job outputPath config pollInterval
                     maxPollAttempts) 0%nat) as He.
destruct (attemptSettled _); [cbn; lia|].
destruct (_ && _); [|cbn; lia].
cbn [run_finished].
pose proof (setTimeout_delay_pos (retryDelay retryPolicy)) as Hd.
etrans; [|apply retryLoop_finished_ge].
- lia.
- intros call n. specialize (Hslow call n). lia.
Qed.

Section Quiet.
Context `{PathLib}.
Variables (config : BatchConfig.t) (options : BatchExecutionOptions.t)
          (startedAt : Z) (files : gset string).
Hypothesis short : BatchConfig.timeout config = Some 100.
Hypothesis attempts : 0 <= maxRetries (effectiveRetryPolicy config).

(** The end of a job task starts no call of the Job Executor. *)
Lemma settleJob_Executing (resumed : option nat) (index : nat)
    (old phase : Phase) (s : State) (j : nat) (uniquePath : string)
    (jobStartTime : Z) :
  coherent (maxConcurrent config) (length (BatchConfig.jobs config)) resumed
           (semaphore s) (microtasks s) (phases s) ->
  phases s !! index = Some old -> holdsPermit old = true ->
  isExecuting phase = false ->
  phases (settleJob config startedAt index phase s) !! j
  = Some (Executing uniquePath jobStartTime) ->
  phases s !! j = Some (Executing uniquePath jobStartTime).
Proof.
intros Hco Hi Hold Hph Hj.
destruct (decide (j = index)) as [->|Hne].
- destruct (settleJob_frame config startedAt index phase s)
    as (_ & _ & Hp & _).
  destruct (releaseSlot_frame index phase s) as (_ & _ & Hp' & _).
  destruct (releaseSlot_phases config resumed index old phase s Hco Hi Hold)
    as (_ & Hidx & _).
  rewrite Hp, <- Hp', Hidx in Hj. injection Hj as ->. done.
- destruct (settleJob_siblings config startedAt resumed index old phase s j
              Hco Hi Hne) as [Heq|[_ Hg]]; congruence.
Qed.

Lemma quiet_settleJob_finished (resumed : option nat) (index : nat)
    (old phase : Phase) (s : State) :
  coherent (maxConcurrent config) (length (BatchConfig.jobs config)) resumed
           (semaphore s) (microtasks s) (phases s) ->
  phases s !! index = Some old -> holdsPermit old = true ->
  isExecuting phase = false ->
  startedAt <= now s ->
  (forall i uniquePath jobStartTime,
     phases s !! i = Some (Executing uniquePath jobStartTime) ->
     startedAt <= jobStartTime) ->
  match coordinator s with
  | Racing => exists message, phase = Rejected message
  | Grace => False
  | Returned r =>
      BatchResult.results r = allCancelled config /\
      (BatchResult.finished_at r = startedAt + 100 + 5000 \/
       BatchConfig.jobs config = [])
  | Threw _ => True
  end ->
  quiet config startedAt (settleJob config startedAt index phase s).
Proof.
intros Hco Hi Hold Hph Hnow Hexec Hc.
destruct (settleJob_frame config startedAt index phase s)
  as (_ & _ & _ & Hn & _).
destruct (releaseSlot_frame index phase s)
  as (_ & _ & _ & _ & Hcoord & _).
split; [by rewrite Hn|]. split.
{ intros i uniquePath jobStartTime Hj. eapply Hexec.
  by eapply settleJob_Executing. }
unfold settleJob. rewrite Hcoord.
destruct (coordinator s) eqn:Ec; try done.
- destruct Hc as [message ->]. by read_state.
- by rewrite Hcoord.
- by rewrite Hcoord.
Qed.

Lemma quiet_step (e : Event) (s s' : State) :
  sound config options s -> quiet config startedAt s ->
  slowExecutors 10000 [e] ->
  step config options startedAt e s = Some s' ->
  quiet config startedAt s'.
Proof.
intros (Hs & Ht & Ha & _) (Hnow & Hexec & Hq) Hslow Hstep.
apply Forall_inv in Hslow. apply step_inv in Hstep.
destruct e as [|index instant|index executor| |].
- destruct Hstep as (index & rest & job & Em & Ep & Ej & ->).
  unfold structured in Hs. rewrite Em in Hs. apply coherent_pop in Hs.
  unfold resumeJob. read_state.
  unfold timed in Ht.
  destruct (coordinator s) eqn:Ec.
  + destruct Ht as (-> & _).
    destruct (resolveOutputPath job index _ _) as [outputPath|message].
    * split; [done|]. split; [|by read_state; rewrite Ec].
      intros i uniquePath jobStartTime Hi. read_state.
      destruct (decide (i = index)) as [->|Hne].
      -- rewrite list_lookup_insert_eq in Hi by (by eapply lookup_lt_Some).
         done.
      -- rewrite list_lookup_insert_ne in Hi by done. by eapply Hexec.
    * eapply (quiet_settleJob_finished (Some index) index Granted);
        try done.
      read_state. rewrite Ec. by eexists.
  + destruct Hq as (_ & Hempty & _). congruence.
  + assert (forall phase s0,
              isExecuting phase = false ->
              coherent (maxConcurrent config)
                       (length (BatchConfig.jobs config)) (Some index)
                       (semaphore s0) (microtasks s0) (phases s0) ->
              phases s0 = phases s -> now s0 = now s ->
              coordinator s0 = Returned result ->
              quiet config startedAt
                    (settleJob config startedAt index phase s0)) as Hsettle.
    { intros phase s0 Hph Hco Hp Hn Hc.
      eapply (quiet_settleJob_finished (Some index) index Granted);
        try done; rewrite ?Hp, ?Hn, ?Hc; done. }
    destruct (timedOut s); [by apply Hsettle|].
    destruct (resolveOutputPath job index _ _) as [outputPath|message];
      [|by apply Hsettle].
    split; [done|]. split; [|by read_state; rewrite Ec].
    intros i uniquePath jobStartTime Hi. read_state.
    destruct (decide (i = index)) as [->|Hne].
    * rewrite list_lookup_insert_eq in Hi by (by eapply lookup_lt_Some).
      done.
    * rewrite list_lookup_insert_ne in Hi by done. by eapply Hexec.
  + assert (forall phase s0,
              isExecuting phase = false ->
              coherent (maxConcurrent config)
                       (length (BatchConfig.jobs config)) (Some index)
                       (semaphore s0) (microtasks s0) (phases s0) ->
              phases s0 = phases s -> now s0 = now s ->
              coordinator s0 = Threw message ->
              quiet config startedAt
                    (settleJob config startedAt index phase s0)) as Hsettle.
    { intros phase s0 Hph Hco Hp Hn Hc.
      eapply (quiet_settleJob_finished (Some index) index Granted);
        try done; rewrite ?Hp, ?Hn, ?Hc; done. }
    destruct (timedOut s); [by apply Hsettle|].
    destruct (resolveOutputPath job index _ _) as [outputPath|message'];
      [|by apply Hsettle].
    split; [done|]. split; [|by read_state; rewrite Ec].
    intros i uniquePath jobStartTime Hi. read_state.
    destruct (decide (i = index)) as [->|Hne].
    * rewrite list_lookup_insert_eq in Hi by (by eapply lookup_lt_Some).
      done.
    * rewrite list_lookup_insert_ne in Hi by done. by eapply Hexec.
- destruct Hstep as (outputPath & uniquePath & Ep & Hm & _ & ->).
  apply mayRunAt_inv in Hm as (_ & Hle & _).
  split; [read_state; lia|]. split; [|by read_state].
  intros i uniquePath' jobStartTime Hi. read_state.
  destruct (decide (i = index)) as [->|Hne].
  + rewrite list_lookup_insert_eq in Hi by (by eapply lookup_lt_Some).
    injection Hi as _ <-. lia.
  + rewrite list_lookup_insert_ne in Hi by done. by eapply Hexec.
- destruct Hstep as (uniquePath & jobStartTime & job & Ep & Ej & Hm & ->).
  apply mayRunAt_inv in Hm as (_ & Hle & Hdl & Hgr).
  pose proof (executeJobWithRetry_lasts job index uniquePath config
                (pollInterval config) (maxPollAttempts config)
                (effectiveRetryPolicy config) executor jobStartTime 10000
                attempts ltac:(lia) Hslow) as Hlast.
  pose proof (Hexec _ _ _ Ep) as Hstart.
  eapply (quiet_settleJob_finished None index
            (Executing uniquePath jobStartTime)); try done.
  + read_state. lia.
  + read_state. destruct (coordinator s) eqn:Ec; try done.
    * destruct Hq as (_ & Hdue). specialize (Hdl _ Hdue). lia.
    * destruct Hq as (_ & _ & Hdue). specialize (Hgr _ Hdue). lia.
- destruct Hstep as (due & Hdue & Hm & ->).
  apply mayRunAt_inv in Hm as (Hempty & Hle & _).
  split; [read_state; lia|]. split; [by read_state|]. read_state.
  unfold timed in Ht.
  destruct (coordinator s) eqn:Ec; try done;
    try (destruct Ht as (_ & Hnone & _); congruence).
  destruct Hq as (Hnil & Hdue'). rewrite Hdue in Hdue'.
  by injection Hdue' as ->.
- destruct Hstep as (due & Hdue & Hm & ->).
  apply mayRunAt_inv in Hm as (Hempty & Hle & _).
  unfold timed in Ht. unfold accounted in Ha.
  destruct (coordinator s) eqn:Ec; try congruence.
  { destruct Ht as (_ & Hnone & _). congruence. }
  destruct Hq as (Hnil & _ & Hdue'). rewrite Hdue in Hdue'.
  injection Hdue' as ->.
  destruct (finalize_wellFormed config startedAt
              (endGrace (startedAt + 100 + 5000) s))
    as (r & Hr & _ & Hres & _ & Hfin); [apply Hs|exact Ha|].
  split; [change (startedAt <= startedAt + 100 + 5000); lia|].
  split; [exact Hexec|]. rewrite Hr.
  split; [|by left].
  rewrite Hres. by apply finalResults_nothing_recorded.
Qed.

Lemma quiet_initial : quiet config startedAt (initial config startedAt files).
Proof.
pose proof (launch_coherent config (length (BatchConfig.jobs config))) as Hl.
unfold initial, launch.
destruct (fold_left launchJob _ _) as [[sem micro] phs].
destruct Hl as [(Hlen & _) Hall].
assert (forall i u t, phs !! i = Some (Executing u t) -> False) as Hno.
{ intros i u t Hi. rewrite Forall_forall in Hall.
  destruct (Hall (Executing u t)); [by eapply list_elem_of_lookup_2|..];
    done. }
destruct (forallb isFulfilled phs) eqn:Eall.
- assert (BatchConfig.jobs config = []) as Hnil.
  { destruct phs as [|p phs]; [by apply nil_length_inv|].
    apply Forall_cons in Hall as [[->| ->] _]; done. }
  match goal with
  | |- quiet _ _ (finalize _ _ ?s0) =>
      destruct (finalize_wellFormed config startedAt s0)
        as (r & Hr & _ & Hres & _)
  end; [done|split; [constructor|by intros r ?%elem_of_nil]|].
  split; [done|]. split; [intros i u t Hi; by destruct (Hno i u t)|].
  rewrite Hr. split; [|by right].
  rewrite Hres. by apply finalResults_nothing_recorded.
- split; [done|]. split; [intros i u t Hi; by destruct (Hno i u t)|].
  cbn. split; [done|]. unfold timeout. by rewrite short.
Qed.

Lemma run_quiet (trace : list Event) (s : State) :
  slowExecutors 10000 trace ->
  run config options startedAt files trace = Some s ->
  quiet config startedAt s.
Proof.
unfold run.
assert (forall trace s0 s,
          sound config options s0 -> quiet config startedAt s0 ->
          slowExecutors 10000 trace ->
          runFrom config options startedAt s0 trace = Some s ->
          quiet config startedAt s) as Hgen.
{ clear trace s. induction trace as [|e trace IH]; intros s0 s Hs Hq Hslow Hrun.
  - cbn in Hrun. by injection Hrun as <-.
  - cbn in Hrun.
    destruct (step config options startedAt e s0) as [s1|] eqn:E; [|done].
    apply Forall_cons in Hslow as [He Hslow].
    eapply (IH s1); [by eapply sound_step| |done..].
    eapply quiet_step; [done..| |done]. by apply Forall_singleton. }
intros Hslow Hrun.
eapply Hgen; [apply sound_initial|apply quiet_initial|done..].
Qed.
End Quiet.

(** ** The deadline *)

Lemma internal_slowExecutors (ms : Z) (trace : list Event) :
  Forall isInternal trace -> slowExecutors ms trace.
Proof.
intros Hint. eapply Forall_impl; [exact Hint|]. by intros [].
Qed.

(** C7, as the code has it.  When the deadline timer fires while
    [executeBatch] awaits the race, [timedOut] is set and the timer of
    [sleep(5000)] is armed, 5000 ms later; nothing is recorded by that.
    When that timer fires [executeBatch] returns: position [i] of the
    returned array holds the outcome recorded for job [i + 1] if there is
    one, unchanged, and otherwise a cancelled outcome for it whose error is
    "Batch timed out or cancelled".  With a timeout of 100 ms and calls of
    the Job Executor that each take 10 s, a result that [executeBatch]
    returns holds exactly these cancelled outcomes, one for each job, and
    (for a batch that has a job) it is returned 5100 ms after the start;
    unless the output path of some job cannot be resolved, such a result is
    returned. *)
Theorem deadline_cancels_unrecorded_jobs `{PathLib}
    (config : BatchConfig.t) (options : BatchExecutionOptions.t)
    (startedAt : Z) (files : gset string) (trace : list Event) (s : State) :
  run config options startedAt files trace = Some s ->
  (forall s',
     coordinator s = Racing ->
     step config options startedAt DeadlineFired s = Some s' ->
     exists due,
       deadlineTimer s = Some due /\
       coordinator s' = Grace /\ timedOut s' = true /\
       graceTimer s' = Some (due + 5000) /\
       results s' = results s) /\
  (forall s',
     step config options startedAt GraceElapsed s = Some s' ->
     exists due r,
       graceTimer s = Some due /\ coordinator s = Grace /\
       coordinator s' = Returned r /\
       BatchResult.finished_at r = due /\
       length (BatchResult.results r) = length (BatchConfig.jobs config) /\
       forall i job,
         BatchConfig.jobs config !! i = Some job ->
         exists y,
           BatchResult.results r !! i = Some y /\
           BatchJobResult.index y = (i + 1)%nat /\
           (forall x, x ∈ results s ->
                      BatchJobResult.index x = (i + 1)%nat -> y = x) /\
           ((forall x, x ∈ results s ->
                       BatchJobResult.index x <> (i + 1)%nat) ->
            y = cancelledResult i (BatchJobConfig.prompt job)
                                "Batch timed out or cancelled")) /\
  (BatchConfig.timeout config = Some 100 ->
   0 <= maxRetries (effectiveRetryPolicy config) ->
   slowExecutors 10000 trace ->
   (forall r,
      coordinator s = Returned r ->
      BatchResult.results r
      = imap (fun i job =>
                cancelledResult i (BatchJobConfig.prompt job)
                                "Batch timed out or cancelled")
             (BatchConfig.jobs config) /\
      (BatchResult.finished_at r = startedAt + 100 + 5000 \/
       BatchConfig.jobs config = [])) /\
   ((forall message, ~ pathError config options message) ->
    exists (rest : list Event) (s' : State) (r : BatchResult.t),
      slowExecutors 10000 (trace ++ rest) /\
      run config options startedAt files (trace ++ rest) = Some s' /\
      coordinator s' = Returned r)).
Proof.
intros Hrun. pose proof (run_sound _ _ _ _ _ _ Hrun) as Hs.
pose proof Hs as (Hstr & Ht & Ha & _). split; [|split].
- intros s' Hc Hstep. apply step_inv in Hstep.
  destruct Hstep as (due & Hdue & _ & ->). exists due.
  split; [done|]. cbn. by rewrite Hc.
- intros s' Hstep. apply step_inv in Hstep.
  destruct Hstep as (due & Hdue & _ & ->).
  unfold timed in Ht. unfold accounted in Ha.
  destruct (coordinator s) eqn:Ec; try congruence.
  { destruct Ht as (_ & Hnone & _). congruence. }
  destruct (finalize_wellFormed config startedAt (endGrace due s))
    as (r & Hr & (Hidx & _) & Hres & _ & Hfin); [apply Hstr|exact Ha|].
  exists due, r. split; [done|]. split; [done|]. split; [done|].
  split; [done|]. split.
  { rewrite <- (length_map BatchJobResult.index), Hidx. apply length_seq. }
  intros i job Hjob. rewrite Hres.
  apply (finalResults_lookup config (endGrace due s) i job);
    [apply Hstr|exact Ha|done].
- intros Hshort Hretries Hslow. split.
  + intros r Hr.
    pose proof (run_quiet config options startedAt files Hshort Hretries
                  trace s Hslow Hrun) as (_ & _ & Hq).
    by rewrite Hr in Hq.
  + intros Hpaths.
    destruct (can_return config options startedAt s Hs Hpaths)
      as (rest & s' & r & Hint & Hrest & Hr).
    exists rest, s', r. split.
    { apply Forall_app. split; [done|by apply internal_slowExecutors]. }
    split; [|done]. unfold run in *. by rewrite runFrom_app, Hrun.
Qed.

(** C7, as stated, fails.  A batch of two jobs under a timeout of 100 ms,
    whose first job is still executing when the grace window ends, gets two
    cancelled outcomes, and their error is "Batch timed out or cancelled":
    not the text of the claim, which begins with a small letter. *)
Lemma deadline_cancels_unrecorded_jobs_counterexample :
  exists s r,
    run shortDeadline sampleOptions 0 ∅ deadlinePassed = Some s /\
    coordinator s = Returned r /\
    map (fun y => (BatchJobResult.index y, BatchJobResult.status y,
                   BatchJobResult.error y))
        (BatchResult.results r)
    = [(1%nat, cancelled, Some "Batch timed out or cancelled");
       (2%nat, cancelled, Some "Batch timed out or cancelled")] /\
    Forall (fun y => BatchJobResult.error y
                     <> Some "batch timed out or cancelled")
           (BatchResult.results r).
Proof.
eexists _, _. split; [vm_compute; reflexivity|]. split; [reflexivity|].
split; [reflexivity|]. by repeat constructor.
Qed.

Lemma deadline_cancels_unrecorded_jobs_witness :
  exists s r,
    run shortDeadline sampleOptions 0 ∅ deadlinePassed = Some s /\
    coordinator s = Returned r /\
    BatchResult.results r
    = [cancelledResult 0 "a cat" "Batch timed out or cancelled";
       cancelledResult 1 "a dog" "Batch timed out or cancelled"] /\
    (BatchResult.finished_at r = 0 + 100 + 5000 \/
     BatchConfig.jobs shortDeadline = []).
Proof.
eexists _, _. split; [vm_compute; reflexivity|]. split; [reflexivity|].
refine (proj1 (proj2 (proj2 (deadline_cancels_unrecorded_jobs shortDeadline
                               sampleOptions 0 ∅ deadlinePassed _ _))
                 _ _ _) _ _).
- vm_compute; reflexivity.
- reflexivity.
- by vm_compute.
- by repeat constructor.
- reflexivity.
Defined.

(** ** The semaphore under arbitrary use *)

Lemma semaphoreUse_snoc (permits : Z) (calls : list SemaphoreCall)
    (c : SemaphoreCall) :
  semaphoreUse permits (calls ++ [c])
  = semaphoreCall (semaphoreUse permits calls) c.
Proof. unfold semaphoreUse. by rewrite fold_left_app. Qed.

(** Waiters exist only while no permit is free. *)
Lemma semaphoreUse_waiters (permits : Z) (calls : list SemaphoreCall) :
  Semaphore.queue (used (semaphoreUse permits calls)) <> [] ->
  Semaphore.permits (used (semaphoreUse permits calls)) <= 0.
Proof.
induction calls as [|c calls IH] using rev_ind; [done|].
rewrite semaphoreUse_snoc.
destruct (semaphoreUse permits calls) as [[p q] r].
cbn [used Semaphore.queue Semaphore.permits] in IH.
destruct c as [caller|]; cbn.
- unfold Semaphore.acquire. cbn.
  destruct (0 <? p) eqn:E; cbn; [|lia].
  intros Hq. specialize (IH Hq). lia.
- unfold Semaphore.release. cbn.
  destruct q as [|next rest]; cbn; [done|].
  intros _. by apply IH.
Qed.

(** X1.  First come, first served: whatever the calls of [acquire] and
    [release] on a new semaphore, the [acquire] promises are resolved in
    the order in which [acquire] was called; the callers not yet resolved
    are the queue, oldest first. *)
Theorem Semaphore_first_come_first_served (permits : Z)
    (calls : list SemaphoreCall) :
  let u := semaphoreUse permits calls in
  resolved u ++ Semaphore.queue (used u) = acquirers calls.
Proof.
induction calls as [|c calls IH] using rev_ind; [done|].
pose proof (semaphoreUse_waiters permits calls) as Hw.
cbv zeta in *. rewrite semaphoreUse_snoc. unfold acquirers in *.
rewrite omap_app, <- IH. clear IH.
destruct (semaphoreUse permits calls) as [[p q] r].
cbn [used resolved Semaphore.queue Semaphore.permits] in *.
destruct c as [caller|]; cbn.
- unfold Semaphore.acquire. cbn.
  destruct (0 <? p) eqn:E; cbn.
  + destruct q as [|next rest]; [by simplify_list_eq|].
    specialize (Hw ltac:(done)). lia.
  + by rewrite app_assoc.
- unfold Semaphore.release. cbn.
  destruct q as [|next rest]; cbn; [by rewrite !app_nil_r|].
  by rewrite app_nil_r, <- app_assoc.
Qed.

(** X2.  Permits are conserved: after any calls on a semaphore created
    with [permits], the free permits plus the resolved [acquire] calls are
    [permits] plus the calls of [release].  So a [release] that no
    [acquire] preceded adds a permit beyond the initial number, and with
    at least as many resolved acquisitions as releases no more than
    [permits] are held. *)
Theorem Semaphore_permits_conserved (permits : Z)
    (calls : list SemaphoreCall) :
  let u := semaphoreUse permits calls in
  Semaphore.permits (used u) + Z.of_nat (length (resolved u))
  = permits + Z.of_nat (length (releases calls)) /\
  (0 <= permits -> 0 <= Semaphore.permits (used u)) /\
  Semaphore.permits (used (semaphoreUse permits [CallRelease]))
  = permits + 1.
Proof.
cbv zeta. split; [|split; [|done]].
- induction calls as [|c calls IH] using rev_ind; [cbn; lia|].
  rewrite semaphoreUse_snoc. unfold releases in *. rewrite omap_app.
  rewrite length_app.
  destruct (semaphoreUse permits calls) as [[p q] r].
  cbn [used resolved Semaphore.queue Semaphore.permits] in *.
  destruct c as [caller|]; cbn.
  + unfold Semaphore.acquire. cbn.
    destruct (0 <? p) eqn:E; cbn; rewrite ?length_app; cbn; lia.
  + unfold Semaphore.release. cbn.
    destruct q as [|next rest]; cbn; rewrite ?length_app; cbn; lia.
- intros Hk.
  induction calls as [|c calls IH] using rev_ind; [done|].
  rewrite semaphoreUse_snoc.
  destruct (semaphoreUse permits calls) as [[p q] r].
  cbn [used resolved Semaphore.queue Semaphore.permits] in *.
  destruct c as [caller|]; cbn.
  + unfold Semaphore.acquire. cbn.
    destruct (0 <? p) eqn:E; cbn; lia.
  + unfold Semaphore.release. cbn.
    destruct q as [|next rest]; cbn; lia.
Qed.

(** ** The retry loop at its bounds *)

Section FractionalRetries.
Variables (job : BatchJobConfig.t) (index : nat) (outputPath : string)
          (config : BatchConfig.t) (pollInterval maxPollAttempts : Z)
          (maxRetries : QArith_base.Q) (retryDelay : Z)
          (retryPatterns : list string) (executor : Executor)
          (jobStartTime : Z).

Let floor : Z := Qround.Qfloor maxRetries.
Let whole : Prop :=
  QArith_base.Qeq maxRetries (QArith_base.inject_Z floor).
Let loop : nat -> nat -> Z -> option JobRun :=
  Fractional.retryLoop job index outputPath config pollInterval
    maxPollAttempts maxRetries retryDelay retryPatterns executor
    jobStartTime.

Lemma withinRetries_floor (a : nat) :
  Fractional.withinRetries maxRetries a = true <-> Z.of_nat a <= floor.
Proof.
unfold Fractional.withinRetries. rewrite QArith_base.Qle_bool_iff. split.
- intros Hle. apply Z.lt_succ_r. rewrite QArith_base.Zlt_Qlt.
  eapply QArith_base.Qle_lt_trans; [exact Hle|].
  apply Qround.Qlt_floor.
- intros Hle. eapply QArith_base.Qle_trans; [|apply Qround.Qfloor_le].
  by rewrite <- QArith_base.Zle_Qle.
Qed.

Lemma retriesLeft_floor (a : nat) :
  Fractional.retriesLeft maxRetries a = true <->
  Z.of_nat a < floor \/ (Z.of_nat a = floor /\ ~ whole).
Proof.
unfold Fractional.retriesLeft. rewrite negb_true_iff.
rewrite <- not_true_iff_false, QArith_base.Qle_bool_iff. split.
- intros Hlt. apply QArith_base.Qnot_le_lt in Hlt.
  assert (Z.of_nat a <= floor) as Hle.
  { apply withinRetries_floor. unfold Fractional.withinRetries.
    apply QArith_base.Qle_bool_iff. by apply QArith_base.Qlt_le_weak. }
  destruct (Z.eq_dec (Z.of_nat a) floor) as [Heq|Hne]; [|lia].
  right. split; [done|]. intros Hwhole.
  apply (QArith_base.Qlt_not_le _ _ Hlt). rewrite Heq.
  apply QArith_base.Qle_lteq. by right.
- intros [Hlt|[Heq Hfrac]] Hle.
  + assert (floor <= Z.of_nat a); [|lia].
    rewrite QArith_base.Zle_Qle.
    eapply QArith_base.Qle_trans; [apply Qround.Qfloor_le|done].
  + apply Hfrac. apply QArith_base.Qle_antisym.
    * by rewrite <- Heq.
    * apply Qround.Qfloor_le.
Qed.

#[local] Ltac count_invocations :=
  unfold invocations in *; cbn [run_result run_finished run_actions];
  rewrite ?filter_cons_True by done; rewrite ?filter_cons_False by done;
  rewrite ?filter_cons_True by done; rewrite ?filter_nil; cbn [length].

(** How the loop ends when it is entered at attempt [a] with as much fuel
    as there are attempts left. *)
Lemma retryLoop_ends (fuel a : nat) (now : Z) :
  (a + fuel)%nat = Fractional.attempts maxRetries ->
  exists r,
    loop fuel a now = Some r /\
    (invocations r <= fuel)%nat /\
    (run_result r
     = exhaustedResult job index jobStartTime (run_finished r) <->
     (fuel = 0%nat \/ ~ whole) /\
     forall a', (a <= a' < Fractional.attempts maxRetries)%nat ->
                Fractional.failsRetryably job outputPath config
                  pollInterval maxPollAttempts retryPatterns executor a') /\
    (run_result r
     = exhaustedResult job index jobStartTime (run_finished r) ->
     invocations r = fuel).
Proof.
unfold Fractional.attempts, Fractional.failsRetryably, loop. fold floor.
revert a now. induction fuel as [|fuel IH]; intros a now Ha.
- (* the test of the loop fails *)
  assert (Fractional.withinRetries maxRetries a = false) as Hout.
  { apply not_true_iff_false. rewrite withinRetries_floor. lia. }
  cbn [Fractional.retryLoop]. rewrite Hout. eexists. split; [done|].
  count_invocations. split; [done|]. split; [|done]. split; [|done].
  intros _.
  split; [by left|]. intros a' Ha'. lia.
- assert (Fractional.withinRetries maxRetries a = true) as Hin.
  { rewrite withinRetries_floor. lia. }
  cbn [Fractional.retryLoop]. rewrite Hin. cbv zeta.
  destruct (attemptSettled _) as [result|message] eqn:Esettled.
  { eexists. split; [done|]. count_invocations. split; [lia|].
    split; [|done]. split; [done|]. intros [_ Hfail].
    destruct (Hfail a) as (message & Hm & _); [lia|]. congruence. }
  destruct (Fractional.retriesLeft maxRetries a
            && shouldRetry message retryPatterns) eqn:Eretry.
  + apply andb_true_iff in Eretry as [Hleft Hmatch].
    destruct (IH (a + 1)%nat
                 (now + elapsed (executor
                                   (executorCall job outputPath config
                                      pollInterval maxPollAttempts) a)
                  + setTimeout_delay retryDelay))
      as (later & -> & Hcount & Hiff & Hall); [lia|].
    cbn [mbind option_bind]. eexists. split; [done|].
    count_invocations. split; [lia|]. split.
    * rewrite Hiff. split.
      -- intros [Hlast Hfail]. split.
         ++ right. destruct Hlast as [->|Hfrac]; [|done].
            apply retriesLeft_floor in Hleft as [Hlt|[_ Hfrac]];
              [lia|done].
         ++ intros a' Ha'. destruct (decide (a' = a)) as [->|Hne].
            ** by exists message.
            ** apply Hfail. lia.
      -- intros [[?|Hfrac] Hfail]; [done|]. split; [by right|].
         intros a' Ha'. apply Hfail. lia.
    * intros Hex. by rewrite (Hall Hex).
  + eexists. split; [done|]. count_invocations. split; [lia|].
    split; [|done]. split; [done|]. intros [[?|Hfrac] Hfail]; [done|].
    destruct (Hfail a) as (message' & Hm & Hmatch); [lia|].
    assert (message' = message) as -> by congruence.
    rewrite Hmatch, andb_true_r in Eretry.
    apply not_true_iff_false in Eretry. exfalso. apply Eretry.
    apply retriesLeft_floor.
    destruct (Z.eq_dec (Z.of_nat a) floor); [by right|left; lia].
Qed.
End FractionalRetries.

(** With a whole number of retries the loop is the one of
    [executeJobWithRetry] above. *)
Lemma retryLoop_whole (job : BatchJobConfig.t) (index : nat)
    (outputPath : string) (config : BatchConfig.t)
    (pollInterval maxPollAttempts : Z) (retryPolicy : EffectiveRetryPolicy)
    (executor : Executor) (jobStartTime : Z) (fuel a : nat) (now : Z) :
  (a + fuel)%nat = Z.to_nat (maxRetries retryPolicy + 1) ->
  Fractional.retryLoop job index outputPath config pollInterval
    maxPollAttempts (QArith_base.inject_Z (maxRetries retryPolicy))
    (retryDelay retryPolicy) (retryPatterns retryPolicy) executor
    jobStartTime fuel a now
  = Some (retryLoop job index outputPath config pollInterval
            maxPollAttempts retryPolicy executor jobStartTime fuel a now).
Proof.
revert a now. induction fuel as [|fuel IH]; intros a now Ha;
  cbn [Fractional.retryLoop retryLoop].
- assert (Fractional.withinRetries
            (QArith_base.inject_Z (maxRetries retryPolicy)) a = false)
    as ->; [|done].
  apply not_true_iff_false. rewrite withinRetries_floor.
  rewrite Qround.Qfloor_Z. lia.
- assert (Fractional.withinRetries
            (QArith_base.inject_Z (maxRetries retryPolicy)) a = true)
    as ->.
  { rewrite withinRetries_floor, Qround.Qfloor_Z. lia. }
  cbv zeta. destruct (attemptSettled _) as [result|message]; [done|].
  assert (Fractional.retriesLeft
            (QArith_base.inject_Z (maxRetries retryPolicy)) a
          = (Z.of_nat a <? maxRetries retryPolicy)) as ->.
  { apply eq_true_iff_eq.
    rewrite retriesLeft_floor, Qround.Qfloor_Z, Z.ltb_lt.
    split; [|by left]. intros [?|[_ Hfrac]]; [done|].
    by destruct Hfrac. }
  destruct (_ && _); [|done]. by rewrite IH by lia.
Qed.

(** X3.  The outcome "Max retries exceeded" after the loop of
    [executeJobWithRetry], which the source marks as not reached, is
    reached in two cases only.  One is a negative [maxRetries]: no call
    is made.  The other is a [maxRetries] that is no whole number, such
    as the 1.5 that the limits 0 and 5 of [validateBatchConfig] admit,
    when every attempt fails with an error that matches a retry pattern:
    after the last of the [floor(maxRetries) + 1] calls the test
    [attempt < maxRetries] still holds, the loop waits once more and
    ends, and the error of the last attempt is replaced by "Max retries
    exceeded".  With a whole [maxRetries] the run is the one of the loop
    on integers, and for a whole [maxRetries >= 0] the outcome is never
    the one after the loop. *)
Theorem executeJobWithRetry_max_retries_exceeded
    (job : BatchJobConfig.t) (index : nat) (outputPath : string)
    (config : BatchConfig.t) (pollInterval maxPollAttempts : Z)
    (retries : QArith_base.Q) (retryDelay : Z)
    (retryPatterns : list string) (executor : Executor)
    (jobStartTime : Z) :
  exists r,
    Fractional.executeJobWithRetry job index outputPath config
      pollInterval maxPollAttempts retries retryDelay retryPatterns
      executor jobStartTime = Some r /\
    (invocations r <= Fractional.attempts retries)%nat /\
    (run_result r = exhaustedResult job index jobStartTime (run_finished r)
     <->
     QArith_base.Qlt retries (QArith_base.inject_Z 0) \/
     (~ QArith_base.Qeq retries
          (QArith_base.inject_Z (Qround.Qfloor retries)) /\
      forall a, (a < Fractional.attempts retries)%nat ->
        Fractional.failsRetryably job outputPath config pollInterval
          maxPollAttempts retryPatterns executor a)) /\
    (run_result r = exhaustedResult job index jobStartTime (run_finished r)
     ->
     invocations r = Fractional.attempts retries /\
     BatchJobResult.error (run_result r) = Some "Max retries exceeded") /\
    (forall m : Z,
       retries = QArith_base.inject_Z m ->
       r = executeJobWithRetry job index outputPath config pollInterval
             maxPollAttempts
             {| maxRetries := m; retryDelay := retryDelay;
                retryPatterns := retryPatterns |}
             executor jobStartTime /\
       (0 <= m ->
        run_result r
        <> exhaustedResult job index jobStartTime (run_finished r))).
Proof.
unfold Fractional.executeJobWithRetry.
destruct (retryLoop_ends job index outputPath config pollInterval
            maxPollAttempts retries retryDelay retryPatterns executor
            jobStartTime (Fractional.attempts retries) 0 jobStartTime)
  as (r & Hr & Hcount & Hiff & Hall); [done|].
assert (Fractional.attempts retries = 0%nat
        <-> QArith_base.Qlt retries (QArith_base.inject_Z 0)) as Hneg.
{ unfold Fractional.attempts. split.
  - intros Hzero.
    eapply QArith_base.Qlt_le_trans; [apply Qround.Qlt_floor|].
    rewrite <- QArith_base.Zle_Qle. lia.
  - intros Hlt.
    assert (Qround.Qfloor retries < 0); [|lia].
    rewrite QArith_base.Zlt_Qlt.
    eapply QArith_base.Qle_lt_trans; [apply Qround.Qfloor_le|done]. }
exists r. split; [done|]. split; [done|]. split; [|split].
- rewrite Hiff, <- Hneg. split.
  + intros [[Hzero|Hfrac] Hfail]; [by left|right]. split; [done|].
    intros a Ha. apply Hfail. lia.
  + intros [Hzero|[Hfrac Hfail]].
    * split; [by left|]. intros a Ha. lia.
    * split; [by right|]. intros a Ha. apply Hfail. lia.
- intros Hex. split; [by apply Hall|]. by rewrite Hex.
- intros m ->.
  assert (Some r
          = Some (executeJobWithRetry job index outputPath config
                    pollInterval maxPollAttempts
                    {| maxRetries := m;
                       retryDelay := retryDelay;
                       retryPatterns := retryPatterns |}
                    executor jobStartTime)) as [= Heq].
  { rewrite <- Hr. unfold executeJobWithRetry, Fractional.attempts.
    rewrite Qround.Qfloor_Z.
    apply (retryLoop_whole job index outputPath config pollInterval
             maxPollAttempts
             {| maxRetries := m;
                retryDelay := retryDelay;
                retryPatterns := retryPatterns |}).
    cbn [maxRetries]. lia. }
  split; [done|]. intros Hpos. rewrite Hiff.
  intros [[Hzero|Hfrac] _].
  + unfold Fractional.attempts in Hzero. rewrite Qround.Qfloor_Z in Hzero.
    lia.
  + apply Hfrac. by rewrite Qround.Qfloor_Z.
Qed.

Lemma executeJobWithRetry_max_retries_exceeded_witness :
  exists r,
    Fractional.executeJobWithRetry eightSecondJob 0 "out/clip.mp4"
      (sampleBatch [eightSecondJob] None None) 15000 120
      (QArith_base.Qmake 3 2) 1000 BATCH_DEFAULTS.retry_on_errors
      (failingExecutor 2000 "HTTP 503") 0 = Some r /\
    invocations r = 2%nat /\
    BatchJobResult.error (run_result r) = Some "Max retries exceeded".
Proof.
destruct (executeJobWithRetry_max_retries_exceeded eightSecondJob 0
            "out/clip.mp4" (sampleBatch [eightSecondJob] None None)
            15000 120 (QArith_base.Qmake 3 2) 1000
            BATCH_DEFAULTS.retry_on_errors
            (failingExecutor 2000 "HTTP 503") 0)
  as (r & Hr & _ & Hiff & Hex & _).
exists r. split; [exact Hr|]. apply Hex, Hiff. right. split.
- intros Hwhole. vm_compute in Hwhole. discriminate Hwhole.
- intros a _. exists "HTTP 503". split; reflexivity.
Defined.

(** X4.  When every attempt fails with a retryable error, the Job Executor
    is called exactly [maxRetries + 1] times, with [maxRetries] waits in
    between, and the job is reported [failed] with the error of the last
    attempt. *)
Theorem executeJobWithRetry_exhausts_retries
    (job : BatchJobConfig.t) (index : nat) (outputPath : string)
    (config : BatchConfig.t) (pollInterval maxPollAttempts : Z)
    (retryPolicy : EffectiveRetryPolicy) (executor : Executor)
    (jobStartTime : Z) :
  let call :=
    executorCall job outputPath config pollInterval maxPollAttempts in
  let r :=
    executeJobWithRetry job index outputPath config pollInterval
      maxPollAttempts retryPolicy executor jobStartTime in
  0 <= maxRetries retryPolicy ->
  (forall a, exists message,
     attemptSettled (outcome (executor call a)) = inr message /\
     shouldRetry message (retryPatterns retryPolicy) = true) ->
  run_actions r
  = retrySchedule call executor (retryDelay retryPolicy) jobStartTime
      (Z.to_nat (maxRetries retryPolicy)) 0 /\
  invocations r = (Z.to_nat (maxRetries retryPolicy) + 1)%nat /\
  BatchJobResult.status (run_result r) = failed /\
  attemptSettled
    (outcome (executor call (Z.to_nat (maxRetries retryPolicy))))
  = inr (nullish (BatchJobResult.error (run_result r)) "").
Proof.
intros call r Hpos Hfail. subst r. unfold executeJobWithRetry.
destruct (retryLoop_schedule job index outputPath config pollInterval
            maxPollAttempts retryPolicy executor jobStartTime
            (Z.to_nat (maxRetries retryPolicy)) 0)
  as (k & Hk & Hact & Hfin & _ & Hlast); [lia|].
cbn [attemptStart] in Hact, Hfin, Hlast. fold call in Hact, Hlast.
replace (Z.to_nat (maxRetries retryPolicy + 1))
  with (S (Z.to_nat (maxRetries retryPolicy))) by lia.
destruct (Hfail k) as (message & Hk' & Hre).
cbn [Nat.add] in Hlast. rewrite Hk' in Hlast.
destruct Hlast as [Hstop Hres]. rewrite Hre, andb_true_r in Hstop.
apply Z.ltb_ge in Hstop.
assert (k = Z.to_nat (maxRetries retryPolicy)) as -> by lia.
split; [done|]. split.
{ unfold invocations. rewrite Hact, invocations_retrySchedule. lia. }
rewrite Hres. by split.
Qed.

Lemma executeJobWithRetry_exhausts_retries_witness :
  invocations
    (executeJobWithRetry eightSecondJob 0 "out/clip.mp4"
       (sampleBatch [eightSecondJob] None None) 15000 120
       defaultRetryPolicy (failingExecutor 2000 "HTTP 503") 0)
  = 3%nat.
Proof.
refine (proj1 (proj2 (executeJobWithRetry_exhausts_retries
                        eightSecondJob 0 "out/clip.mp4"
                        (sampleBatch [eightSecondJob] None None) 15000 120
                        defaultRetryPolicy
                        (failingExecutor 2000 "HTTP 503") 0 _ _))).
- by vm_compute.
- intros a. exists "HTTP 503". by vm_compute.
Defined.

(** ** Refused requests and the default retry patterns *)

Lemma includes_empty (s : string) : includes s "" = true.
Proof. by destruct s. Qed.

(** X5.  An empty string among the patterns makes every error retryable,
    and [shouldRetry] over two lists of patterns is the disjunction of
    [shouldRetry] over each. *)
Theorem shouldRetry_empty_pattern (error : string)
    (patterns more : list string) :
  shouldRetry error (patterns ++ "" :: more) = true /\
  shouldRetry error (patterns ++ more)
  = shouldRetry error patterns || shouldRetry error more.
Proof.
unfold shouldRetry. rewrite !existsb_app. split; [|done].
cbn [existsb toLowerCase]. rewrite includes_empty. apply orb_true_r.
Qed.



(** X7.  For any other status the error is the message found in the JSON
    body, if there is one, and the status is dropped; otherwise it is
    "API error: <status> - <body>" (without the body if the JSON had no
    message).  So a 500 or 503 response is retryable under the default
    patterns whenever the body carries no message of its own. *)
Theorem server_error_response_retried (status : nat)
    (errorText : string) (errorJson : ErrorJson) :
  status <> 401%nat -> status <> 403%nat -> status <> 429%nat ->
  (forall message,
     errorJson = Some (Some message) -> message <> "" ->
     generateVideo_refused status errorText errorJson = message) /\
  ((errorJson = Some None \/ errorJson = Some (Some "")) ->
   generateVideo_refused status errorText errorJson
   = "API error: " +:+ pretty status) /\
  (errorJson = None ->
   generateVideo_refused status errorText errorJson
   = "API error: " +:+ pretty status +:+ " - " +:+ errorText) /\
  ((forall message, errorJson = Some (Some message) -> message = "") ->
   status = 500%nat \/ status = 503%nat ->
   shouldRetry (generateVideo_refused status errorText errorJson)
               BATCH_DEFAULTS.retry_on_errors = true).
Proof.
intros H401 H403 H429.
assert (generateVideo_refused status errorText errorJson
        = errorMessage status errorText errorJson) as ->.
{ unfold generateVideo_refused.
  destruct (Nat.eqb_spec status 401); [done|].
  destruct (Nat.eqb_spec status 403); [done|].
  by destruct (Nat.eqb_spec status 429). }
split; [|split; [|split]].
- intros message -> Hm. by destruct message.
- by intros [-> | ->].
- by intros ->.
- intros Hno Hstatus.
  destruct errorJson as [[message|]|].
  + rewrite (Hno message eq_refl). by destruct Hstatus as [-> | ->].
  + by destruct Hstatus as [-> | ->].
  + apply shouldRetry_iff. unfold errorMessage.
    destruct Hstatus as [-> | ->].
    * exists "500", "api error: ", (toLowerCase (" - " +:+ errorText)).
      split; [cbn; tauto|]. by rewrite !toLowerCase_app.
    * exists "503", "api error: ", (toLowerCase (" - " +:+ errorText)).
      split; [cbn; tauto|]. by rewrite !toLowerCase_app.
Qed.

Lemma server_error_response_retried_witness :
  shouldRetry (generateVideo_refused 503 "upstream connect error" None)
              BATCH_DEFAULTS.retry_on_errors = true.
Proof.
refine (proj2 (proj2 (proj2 (server_error_response_retried 503
                               "upstream connect error" None _ _ _))) _ _);
  [lia..| |by right].
intros message E. discriminate E.
Defined.

(** ** The poll loop *)

Section PollLoopFacts.
Variables (server : VideoServer) (pollInterval maxAttempts : Z).

Lemma pollLoop_unfold (iterations attempt : nat) :
  pollLoop server pollInterval maxAttempts (S iterations) attempt =
  let later :=
    pollLoop server pollInterval maxAttempts iterations (attempt + 1) in
  match pollOnce server maxAttempts attempt with
  | PollReturn result =>
      {| poll_result := Ok result; poll_actions := [Requested attempt] |}
  | PollContinue slept =>
      {| poll_result := poll_result later;
         poll_actions :=
           Requested attempt
           :: (if slept then [Waited pollInterval] else [])
           ++ poll_actions later |}
  | PollThrow message =>
      if Z.of_nat attempt =? maxAttempts then
        {| poll_result := Throw message;
           poll_actions := [Requested attempt] |}
      else
        {| poll_result := poll_result later;
           poll_actions :=
             Requested attempt :: Waited pollInterval
             :: poll_actions later |}
  end.
Proof. reflexivity. Qed.

(** An attempt returns only a response that is [ok] and whose status is
    completed. *)
Lemma pollOnce_return (attempt : nat) (result : SoraVideoResponse.t) :
  pollOnce server maxAttempts attempt = PollReturn result ->
  exists status text,
    server attempt = Response status text (Ok result) /\
    Response_ok status = true /\
    isCompleted (SoraVideoResponse.status result) = true.
Proof.
unfold pollOnce. destruct (server attempt) as [|status text json]; [done|].
destruct (_ && _); [done|].
destruct (Response_ok status) eqn:Eok; cbn [negb];
  [|by destruct text].
destruct json as [r|]; [|done].
destruct (isCompleted _) eqn:Ec; [|by destruct (isFailed _)].
intros [= ->]. by exists status, text.
Qed.

(** No wait follows the last attempt. *)
Lemma pollOnce_last (attempt : nat) (slept : bool) :
  Z.of_nat attempt = maxAttempts ->
  pollOnce server maxAttempts attempt = PollContinue slept ->
  slept = false.
Proof.
intros Ha. unfold pollOnce.
assert ((Z.of_nat attempt <? maxAttempts) = false) as ->
  by (apply Z.ltb_ge; lia).
destruct (server attempt) as [|status text json]; [done|].
rewrite andb_false_r.
destruct (negb _); [by destruct text|].
destruct json as [r|]; [|done].
destruct (isCompleted _); [done|]. destruct (isFailed _); [done|].
by intros [= <-].
Qed.

Ltac count_actions :=
  repeat first [rewrite filter_cons_True by done
               |rewrite filter_cons_False by done];
  rewrite ?filter_nil; cbn [length].

Lemma pollLoop_requests (iterations attempt : nat) :
  Z.of_nat attempt + Z.of_nat iterations = maxAttempts + 1 ->
  let r := pollLoop server pollInterval maxAttempts iterations attempt in
  (requests r <= iterations)%nat /\
  (waits r + 1 <= requests r \/ iterations = 0)%nat /\
  (forall message, poll_result r = Throw message ->
     requests r = iterations) /\
  (forall result, poll_result r = Ok result ->
     exists k status text,
       (k < iterations)%nat /\ requests r = S k /\
       server (attempt + k)%nat = Response status text (Ok result) /\
       Response_ok status = true /\
       isCompleted (SoraVideoResponse.status result) = true /\
       forall j result', (j < k)%nat ->
         pollOnce server maxAttempts (attempt + j) <> PollReturn result').
Proof.
revert attempt.
induction iterations as [|iterations IH]; intros attempt Ha; cbv zeta.
{ cbn. split; [done|]. split; [by right|]. split; [done|]. done. }
rewrite pollLoop_unfold. cbv zeta.
specialize (IH (attempt + 1)%nat ltac:(lia)). cbv zeta in IH.
set (later := pollLoop server pollInterval maxAttempts iterations
                (attempt + 1)) in *.
destruct IH as (Hreq & Hwait & Hthrow & Hok).
unfold requests, waits in *.
destruct (pollOnce server maxAttempts attempt) as [result|message|slept]
  eqn:Eonce.
- cbn [poll_result poll_actions]. count_actions.
  split; [lia|]. split; [left; lia|]. split; [done|].
  intros result' [= <-].
  destruct (pollOnce_return _ _ Eonce) as (status & text & Hs & Hk & Hc).
  exists 0%nat, status, text. rewrite Nat.add_0_r.
  repeat split; try done; [lia|]. intros j result' Hj. lia.
- destruct (Z.eqb_spec (Z.of_nat attempt) maxAttempts) as [Hlast|Hmore].
  + cbn [poll_result poll_actions]. count_actions.
    assert (iterations = 0%nat) as -> by lia.
    split; [lia|]. split; [left; lia|]. split; [done|]. done.
  + cbn [poll_result poll_actions]. count_actions.
    split; [lia|]. split; [left; destruct Hwait; lia|]. split.
    { intros message' Hm. by rewrite (Hthrow _ Hm). }
    intros result Hr.
    destruct (Hok _ Hr) as (k & status & text & Hk & Hn & Hs & Hrest).
    exists (S k), status, text.
    replace (attempt + S k)%nat with (attempt + 1 + k)%nat by lia.
    split; [lia|]. split; [lia|]. split; [done|].
    destruct Hrest as (Ho & Hc & Hfirst). split; [done|]. split; [done|].
    intros [|j] result' Hj.
    * rewrite Nat.add_0_r, Eonce. done.
    * replace (attempt + S j)%nat with (attempt + 1 + j)%nat by lia.
      apply Hfirst. lia.
- cbn [poll_result poll_actions].
  assert (slept = true -> iterations <> 0%nat) as Hslept.
  { intros Hs Hz. rewrite Hs in Eonce.
    pose proof (pollOnce_last attempt true ltac:(lia) Eonce). done. }
  count_actions. rewrite !filter_app, !length_app.
  assert (length (filter (fun a => isRequested a = true)
                    (if slept then [Waited pollInterval] else []))
          = 0%nat) as -> by (by destruct slept).
  assert (length (filter (fun a => isRequested a = false)
                    (if slept then [Waited pollInterval] else []))
          = if slept then 1%nat else 0%nat) as -> by (by destruct slept).
  cbn [length Nat.add].
  split; [lia|]. split.
  { left. destruct Hwait as [Hwait|Hz].
    - destruct slept; lia.
    - destruct slept; [by destruct Hslept|].
      subst later. rewrite Hz. cbn. lia. }
  split.
  { intros message' Hm. by rewrite (Hthrow _ Hm). }
  intros result Hr.
  destruct (Hok _ Hr) as (k & status & text & Hk & Hn & Hs & Hrest).
  exists (S k), status, text.
  replace (attempt + S k)%nat with (attempt + 1 + k)%nat by lia.
  split; [lia|]. split; [lia|]. split; [done|].
  destruct Hrest as (Ho & Hc & Hfirst). split; [done|]. split; [done|].
  intros [|j] result' Hj.
  * rewrite Nat.add_0_r, Eonce. done.
  * replace (attempt + S j)%nat with (attempt + 1 + j)%nat by lia.
    apply Hfirst. lia.
Qed.
End PollLoopFacts.

(** X8.  [pollVideoResult] returns only a response that was [ok] and
    whose status is "completed" or "succeeded", namely the first such
    answer of the server, and it stops asking there: the number of requests
    is the number of that attempt. *)
Theorem pollVideoResult_returns_first_completed (server : VideoServer)
    (pollInterval maxAttempts : Z) (result : SoraVideoResponse.t) :
  let r := pollVideoResult server pollInterval maxAttempts in
  poll_result r = Ok result ->
  exists (attempt status : nat) (text : Result string),
    1 <= Z.of_nat attempt <= maxAttempts /\
    requests r = attempt /\
    server attempt = Response status text (Ok result) /\
    Response_ok status = true /\
    isCompleted (SoraVideoResponse.status result) = true /\
    forall earlier status' text' result',
      (1 <= earlier < attempt)%nat ->
      server earlier = Response status' text' (Ok result') ->
      Response_ok status' = true ->
      isCompleted (SoraVideoResponse.status result') = false.
Proof.
intros r Hr. subst r. unfold pollVideoResult in *.
destruct (pollLoop_requests server pollInterval maxAttempts
            (Z.to_nat maxAttempts) 1) as (_ & _ & _ & Hok).
{ destruct (Z.to_nat maxAttempts) eqn:E; [|lia]. cbn in Hr. done. }
destruct (Hok _ Hr) as (k & status & text & Hk & Hn & Hs & Ho & Hc & Hfirst).
exists (S k), status, text.
split; [lia|]. split; [done|]. split; [done|]. split; [done|].
split; [done|].
intros earlier status' text' result' He Hs' Ho'.
destruct (isCompleted (SoraVideoResponse.status result')) eqn:Ec; [|done].
destruct (Hfirst (earlier - 1)%nat result'); [lia|].
replace (1 + (earlier - 1))%nat with earlier by lia.
unfold pollOnce. rewrite Hs'.
assert ((500 <=? status')%nat = false) as ->.
{ unfold Response_ok in Ho'. apply Nat.leb_gt. 
  apply andb_true_iff in Ho' as [_ Hle]. apply Nat.leb_le in Hle. lia. }
cbn [andb]. by rewrite Ho', Ec.
Qed.

Lemma pollVideoResult_returns_first_completed_witness :
  exists result,
    poll_result (pollVideoResult recoveringVideo 15000 120) = Ok result /\
    requests (pollVideoResult recoveringVideo 15000 120) = 3%nat.
Proof.
eexists. split; [vm_compute; reflexivity|].
destruct (pollVideoResult_returns_first_completed recoveringVideo 15000 120
            _ eq_refl)
  as (attempt & status & text & Ha & Hn & Hs & Hrest).
rewrite Hn.
vm_compute in Hn. done.
Defined.



(** ** Validation of a loaded configuration *)

Lemma orElse_None {E : Type} (a b : option E) :
  a;;; b = None <-> a = None /\ b = None.
Proof. destruct a; cbn; [split; [done|by intros [? _]]|tauto]. Qed.

Lemma throwIf_None {E : Type} (c : bool) (e : E) :
  throwIf c e = None <-> c = false.
Proof. by destruct c. Qed.

Lemma outOfRange_None {E : Type} (x : option Z) (low high : Z) (e : E) :
  outOfRange x low high e = None <->
  forall v, x = Some v -> low <= v <= high.
Proof.
destruct x as [v|]; cbn; [|by split].
rewrite throwIf_None, orb_false_iff, !Z.ltb_ge. split.
- intros [H1 H2] v' [= <-]. lia.
- intros Hv. specialize (Hv v eq_refl). lia.
Qed.

Lemma isValidModel_asModel (model : string) :
  isValidModel model = true <-> is_Some (asModel model).
Proof.
unfold isValidModel, asModel, MODELS. cbn [existsb].
destruct (String.eqb model "sora-2"); [by split; eauto|].
destruct (String.eqb model "sora-2-pro"); [by split; eauto|].
split; [done|]. by intros [? ?].
Qed.

Lemma isValidSize_asSize (size : string) :
  isValidSize size = true <-> is_Some (asSize size).
Proof.
unfold isValidSize, asSize, SIZES. cbn [existsb find Size_literal].
repeat (destruct (String.eqb size _); [by split; eauto|]).
split; [done|]. by intros [? ?].
Qed.

(** The literal of a model or size is cast back to it. *)
Lemma asModel_literal (model : Model) :
  asModel (Model_literal model) = Some model.
Proof. by destruct model. Qed.

Lemma asSize_literal (size : Size) : asSize (Size_literal size) = Some size.
Proof. by destruct size. Qed.

Lemma asModel_inv (s : string) (model : Model) :
  asModel s = Some model -> s = Model_literal model.
Proof.
unfold asModel.
destruct (String.eqb_spec s "sora-2") as [->|_]; [by intros [= <-]|].
destruct (String.eqb_spec s "sora-2-pro") as [->|_]; [by intros [= <-]|].
done.
Qed.

(** A job that passes [validateJobConfig] is a [BatchJobConfig]. *)
Lemma validateJobConfig_typed (job : LoadedJob.t) :
  validateJobConfig job = None -> is_Some (asBatchJobConfig job).
Proof.
unfold validateJobConfig. cbv zeta.
rewrite !orElse_None. intros (Hprompt & Hmodel & Hsize & _).
apply throwIf_None, orb_false_iff in Hprompt as [Hprompt _].
unfold asBatchJobConfig.
destruct (LoadedJob.prompt job) as [prompt|]; [|done]. cbn [mbind option_bind].
assert (is_Some (asOptional asModel (LoadedJob.model job))) as [m ->].
{ destruct (LoadedJob.model job) as [model|]; cbn [asOptional];
    [|by eauto].
  apply throwIf_None, negb_false_iff, isValidModel_asModel in Hmodel
    as [m ->]. by eexists. }
assert (is_Some (asOptional asSize (LoadedJob.size job))) as [z ->].
{ destruct (LoadedJob.size job) as [size|]; cbn [asOptional];
    [|by eauto].
  apply throwIf_None, negb_false_iff, isValidSize_asSize in Hsize
    as [z ->]. by eexists. }
cbn. by eauto.
Qed.

Lemma validateJobs_None (jobs : list LoadedJob.t) (i : nat) :
  validateJobs jobs i = None <->
  Forall (fun job => validateJobConfig job = None) jobs.
Proof.
revert i. induction jobs as [|job jobs IH]; intros i; cbn.
- by split.
- rewrite Forall_cons. destruct (validateJobConfig job).
  + split; [done|]. by intros [? _].
  + rewrite IH. tauto.
Qed.

(** The loop reports the first job that fails its validation. *)
Lemma validateJobs_Some (jobs : list LoadedJob.t) (i : nat)
    (error : BatchConfigError) :
  validateJobs jobs i = Some error <->
  exists k job e,
    error = InvalidJob (i + k) e /\
    jobs !! k = Some job /\ validateJobConfig job = Some e /\
    forall j job', (j < k)%nat -> jobs !! j = Some job' ->
                   validateJobConfig job' = None.
Proof.
revert i. induction jobs as [|job jobs IH]; intros i; cbn.
- split; [done|]. by intros (k & job & e & _ & Hk & _).
- destruct (validateJobConfig job) as [e|] eqn:Ejob.
  + split.
    * intros [= <-]. exists 0%nat, job, e. rewrite Nat.add_0_r.
      repeat split; try done. intros j job' Hj. lia.
    * intros (k & job' & e' & -> & Hk & He & Hfirst).
      destruct k as [|k].
      -- cbn in Hk. injection Hk as <-. rewrite Nat.add_0_r. congruence.
      -- specialize (Hfirst 0%nat job ltac:(lia) eq_refl). congruence.
  + rewrite IH. split.
    * intros (k & job' & e' & -> & Hk & He & Hfirst).
      exists (S k), job', e'. split; [f_equal; lia|]. split; [done|].
      split; [done|]. intros [|j] job'' Hj Hjob.
      -- cbn in Hjob. by injection Hjob as <-.
      -- apply (Hfirst j); [lia|done].
    * intros (k & job' & e' & -> & Hk & He & Hfirst).
      destruct k as [|k].
      -- cbn in Hk. injection Hk as <-. congruence.
      -- exists k, job', e'. split; [f_equal; lia|]. split; [done|].
         split; [done|]. intros j job'' Hj Hjob.
         apply (Hfirst (S j)); [lia|done].
Qed.

Lemma or_int_range (x : option Z) (d low high : Z) :
  (forall v, x = Some v -> low <= v <= high) ->
  low <= d <= high -> 0 < low \/ high < 0 ->
  low <= or_int x d <= high /\ or_int x d = nullish x d.
Proof.
intros Hx Hd Hz. destruct x as [v|]; cbn; [|done].
specialize (Hx v eq_refl). destruct (Z.eqb_spec v 0); [lia|done].
Qed.

(** What [validateBatchConfig] has checked when it returns. *)
Lemma validateBatchConfig_None (loaded : LoadedConfig.t) :
  validateBatchConfig loaded = None ->
  exists jobs,
    LoadedConfig.jobs loaded = Some jobs /\
    (1 <= length jobs <= 100)%nat /\
    Forall (fun job => validateJobConfig job = None) jobs /\
    (forall v, LoadedConfig.max_concurrent loaded = Some v -> 1 <= v <= 5) /\
    (forall v, LoadedConfig.timeout loaded = Some v ->
               60000 <= v <= 3600000) /\
    (forall v, LoadedConfig.poll_interval loaded = Some v ->
               5000 <= v <= 60000) /\
    (forall rp, LoadedConfig.retry_policy loaded = Some rp ->
       (forall v, RetryPolicy.max_retries rp = Some v -> 0 <= v <= 5) /\
       (forall v, RetryPolicy.retry_delay_ms rp = Some v ->
                  100 <= v <= 60000)) /\
    (forall model, LoadedConfig.default_model loaded = Some model ->
                   isValidModel model = true) /\
    (forall size, LoadedConfig.default_size loaded = Some size ->
                  isValidSize size = true).
Proof.
unfold validateBatchConfig.
destruct (LoadedConfig.jobs loaded) as [jobs|] eqn:Ejobs; [|done].
rewrite !orElse_None, !throwIf_None, validateJobs_None, !outOfRange_None.
intros (Hmin & Hmax & Hjobs & Hconc & Htime & Hpoll & Hretry & Hmodel
        & Hsize).
apply Nat.ltb_ge in Hmin, Hmax.
unfold BATCH_LIMITS.min_jobs, BATCH_LIMITS.max_jobs in *.
exists jobs. split; [done|]. split; [lia|]. split; [done|].
split; [exact Hconc|]. split; [exact Htime|]. split; [exact Hpoll|].
split; [|split].
- intros rp Erp. rewrite Erp in Hretry.
  apply orElse_None in Hretry as [Hr Hd].
  rewrite outOfRange_None in Hr, Hd. by split.
- intros model Em. rewrite Em in Hmodel.
  by apply throwIf_None, negb_false_iff in Hmodel.
- intros size Ez. rewrite Ez in Hsize.
  by apply throwIf_None, negb_false_iff in Hsize.
Qed.

(** Settings within the limits of the file give [executeBatch] settings
    within the limits. *)
Lemma settings_within (config : BatchConfig.t) :
  (forall v, BatchConfig.max_concurrent config = Some v -> 1 <= v <= 5) ->
  (forall v, BatchConfig.timeout config = Some v ->
             60000 <= v <= 3600000) ->
  (forall v, BatchConfig.poll_interval config = Some v ->
             5000 <= v <= 60000) ->
  (forall rp, BatchConfig.retry_policy config = Some rp ->
     (forall v, RetryPolicy.max_retries rp = Some v -> 0 <= v <= 5) /\
     (forall v, RetryPolicy.retry_delay_ms rp = Some v ->
                100 <= v <= 60000)) ->
  1 <= maxConcurrent config <= 5 /\
  60000 <= timeout config <= 3600000 /\
  setTimeout_delay (timeout config) = timeout config /\
  5000 <= pollInterval config <= 60000 /\
  0 <= maxRetries (effectiveRetryPolicy config) <= 5 /\
  100 <= retryDelay (effectiveRetryPolicy config) <= 60000.
Proof.
intros Hconc Htime Hpoll Hretry.
unfold maxConcurrent, timeout, pollInterval, effectiveRetryPolicy.
cbn [maxRetries retryDelay].
destruct (or_int_range _ BATCH_DEFAULTS.max_concurrent _ _ Hconc)
  as [Hc _]; [by vm_compute|left; by vm_compute|].
destruct (or_int_range _ BATCH_DEFAULTS.timeout _ _ Htime)
  as [Ht _]; [by vm_compute|left; by vm_compute|].
destruct (or_int_range _ BATCH_DEFAULTS.poll_interval _ _ Hpoll)
  as [Hp _]; [by vm_compute|left; by vm_compute|].
split; [done|]. split; [done|].
split; [apply setTimeout_delay_id; lia|]. split; [done|].
destruct (BatchConfig.retry_policy config) as [rp|]; cbn.
- destruct (Hretry rp eq_refl) as [Hr Hd]. split.
  + destruct (RetryPolicy.max_retries rp) as [v|]; cbn;
      [by apply Hr|by vm_compute].
  + destruct (RetryPolicy.retry_delay_ms rp) as [v|]; cbn;
      [by apply Hd|by vm_compute].
- by vm_compute.
Qed.

(** A file that [validateBatchConfig] accepts has the type that
    [loadBatchConfig] casts it to. *)
Lemma validateBatchConfig_typed (loaded : LoadedConfig.t) :
  validateBatchConfig loaded = None ->
  exists jobs typed model size,
    LoadedConfig.jobs loaded = Some jobs /\
    mapM asBatchJobConfig jobs = Some typed /\
    asOptional asModel (LoadedConfig.default_model loaded) = Some model /\
    asOptional asSize (LoadedConfig.default_size loaded) = Some size.
Proof.
intros Hvalid.
destruct (validateBatchConfig_None loaded Hvalid)
  as (jobs & Ejobs & _ & Hjobs & _ & _ & _ & _ & Hmodel & Hsize).
assert (is_Some (mapM asBatchJobConfig jobs)) as [typed Htyped].
{ apply mapM_is_Some. eapply Forall_impl; [exact Hjobs|].
  intros job. apply validateJobConfig_typed. }
exists jobs, typed.
destruct (LoadedConfig.default_model loaded) as [model|];
  destruct (LoadedConfig.default_size loaded) as [size|]; cbn [asOptional].
- destruct (proj1 (isValidModel_asModel model) (Hmodel model eq_refl))
    as [m ->].
  destruct (proj1 (isValidSize_asSize size) (Hsize size eq_refl))
    as [z ->]. by do 2 eexists.
- destruct (proj1 (isValidModel_asModel model) (Hmodel model eq_refl))
    as [m ->]. by do 2 eexists.
- destruct (proj1 (isValidSize_asSize size) (Hsize size eq_refl))
    as [z ->]. by do 2 eexists.
- by do 2 eexists.
Qed.

(** X10.  A loaded configuration that [validateBatchConfig] accepts is a
    [BatchConfig] (every model and size is a member of its enumeration),
    it has between 1 and 100 jobs, and the settings that [executeBatch]
    then works with are within the limits: the concurrency in 1..5, the
    timeout in 60000..3600000 ms (so that [setTimeout] takes it as it
    is), the poll interval in 5000..60000 ms, at most 5 retries and a
    retry delay in 100..60000 ms. *)
Theorem validateBatchConfig_accepts_within_limits
    (loaded : LoadedConfig.t) :
  validateBatchConfig loaded = None ->
  exists config : BatchConfig.t,
    asBatchConfig loaded = Some config /\
    (1 <= length (BatchConfig.jobs config) <= 100)%nat /\
    1 <= maxConcurrent config <= 5 /\
    60000 <= timeout config <= 3600000 /\
    setTimeout_delay (timeout config) = timeout config /\
    5000 <= pollInterval config <= 60000 /\
    0 <= maxRetries (effectiveRetryPolicy config) <= 5 /\
    100 <= retryDelay (effectiveRetryPolicy config) <= 60000.
Proof.
intros Hvalid.
destruct (validateBatchConfig_None loaded Hvalid)
  as (jobs & Ejobs & Hlen & _ & Hconc & Htime & Hpoll & Hretry & _).
destruct (validateBatchConfig_typed loaded Hvalid)
  as (jobs' & typed & dm & dz & Ejobs' & Htyped & Hdm & Hdz).
rewrite Ejobs in Ejobs'. injection Ejobs' as <-.
eexists. split.
{ unfold asBatchConfig. rewrite Ejobs. cbn [mbind option_bind].
  rewrite Htyped. cbn [mbind option_bind]. rewrite Hdm, Hdz. done. }
split.
{ cbn [BatchConfig.jobs]. apply length_mapM in Htyped.
  by rewrite <- Htyped. }
by apply settings_within.
Qed.

Lemma validateBatchConfig_accepts_within_limits_witness :
  exists config,
    asBatchConfig
      (loadedBatch [loadedJob "a cat" None (Some 8%float)] None (Some 3))
    = Some config /\
    1 <= maxConcurrent config <= 5.
Proof.
destruct (validateBatchConfig_accepts_within_limits
            (loadedBatch [loadedJob "a cat" None (Some 8%float)] None
                         (Some 3)) eq_refl)
  as (config & Hconfig & _ & Hconc & _).
by exists config.
Defined.

(** X11.  [validateBatchConfig] reports a job exactly when the jobs are
    an array of 1 to 100 entries and that job fails [validateJobConfig]
    while every job before it passes: the first invalid job is the one
    reported, and it is reported whatever the settings of the batch
    are. *)
Theorem validateBatchConfig_reports_first_invalid_job
    (loaded : LoadedConfig.t) (index : nat) (error : JobConfigError) :
  validateBatchConfig loaded = Some (InvalidJob index error) <->
  exists jobs job,
    LoadedConfig.jobs loaded = Some jobs /\
    (1 <= length jobs <= 100)%nat /\
    jobs !! index = Some job /\
    validateJobConfig job = Some error /\
    forall j job', (j < index)%nat -> jobs !! j = Some job' ->
                   validateJobConfig job' = None.
Proof.
unfold validateBatchConfig.
destruct (LoadedConfig.jobs loaded) as [jobs|]; [|split; [done|]].
2: { by intros (jobs & job & Hj & _). }
unfold BATCH_LIMITS.min_jobs, BATCH_LIMITS.max_jobs.
destruct (Nat.ltb_spec (length jobs) 1) as [Hfew|Hmin]; cbn [throwIf orElse].
{ split; [done|]. intros (jobs' & job & [= <-] & Hlen & _). lia. }
destruct (Nat.ltb_spec 100 (length jobs)) as [Hmany|Hmax];
  cbn [throwIf orElse].
{ split; [done|]. intros (jobs' & job & [= <-] & Hlen & _). lia. }
destruct (validateJobs jobs 0) as [e|] eqn:Ejobs; cbn [orElse].
- apply validateJobs_Some in Ejobs
    as (k & job & e' & -> & Hk & He & Hfirst). cbn [Nat.add].
  split.
  + intros [= -> ->]. exists jobs, job. done.
  + intros (jobs' & job' & [= <-] & _ & Hi & Hie & Hifirst).
    destruct (Nat.lt_trichotomy k index) as [Hlt|[->|Hgt]].
    * specialize (Hifirst k job Hlt Hk). congruence.
    * congruence.
    * specialize (Hfirst index job' Hgt Hi). congruence.
- apply validateJobs_None in Ejobs. split.
  + intros Hsome. exfalso. revert Hsome.
    repeat match goal with
           | |- context [outOfRange ?x ?l ?h ?e] =>
               destruct (outOfRange x l h e) eqn:?; cbn [orElse]
           end;
    repeat match goal with
           | H : outOfRange ?x _ _ _ = Some _ |- _ =>
               destruct x; cbn in H;
               [unfold throwIf in H; destruct (_ || _); simplify_eq|done]
           end; try done.
    all: destruct (LoadedConfig.retry_policy loaded) as [rp|];
      cbn [orElse].
    all: repeat match goal with
           | |- context [outOfRange ?x ?l ?h ?e] =>
               let E := fresh in
               destruct (outOfRange x l h e) eqn:E; cbn [orElse];
               [destruct x; cbn in E;
                [unfold throwIf in E; destruct (_ || _); simplify_eq|done]|]
           end; try done.
    all: destruct (LoadedConfig.default_model loaded) as [model|];
      cbn [orElse]; [unfold throwIf; destruct (negb _); cbn [orElse]|];
      try done.
    all: destruct (LoadedConfig.default_size loaded) as [size|];
      [unfold throwIf; destruct (negb _)|]; done.
  + intros (jobs' & job & [= <-] & _ & Hi & Hie & _).
    rewrite Forall_forall in Ejobs.
    rewrite (Ejobs job) in Hie; [done|]. by eapply list_elem_of_lookup_2.
Qed.
(** ** Durations *)

(** A number equal to a finite number other than zero is that number. *)
Lemma float_eqb_finite (c x : float) (s : bool) (m : positive) (e : Z) :
  FloatOps.Prim2SF c = SpecFloat.S754_finite s m e ->
  (c =? x)%float = true -> x = c.
Proof.
intros Hc Heq. rewrite FloatAxioms.eqb_spec, Hc in Heq.
apply FloatAxioms.Prim2SF_inj. rewrite Hc.
unfold SpecFloat.SFeqb, SpecFloat.SFcompare in Heq.
destruct (FloatOps.Prim2SF x) as [s'|s'| |s' m' e']; try done;
  destruct s; try done; destruct s'; try done;
  destruct (Z.compare_spec e e') as [->| |]; try done;
  change (Pos.compare_cont Eq m m') with (Pos.compare m m') in Heq;
  destruct (Pos.compare_spec m m') as [->| |]; done.
Qed.

Lemma isValidDuration_inv (model : Model) (seconds : float) :
  isValidDuration model seconds = true -> In seconds (DURATIONS model).
Proof.
unfold isValidDuration. rewrite existsb_exists.
intros (allowed & Hin & Heq).
assert (seconds = allowed) as ->; [|done].
destruct model; cbn in Hin;
  repeat (destruct Hin as [<-|Hin];
          [by eapply float_eqb_finite; [vm_compute; reflexivity|]|]);
  done.
Qed.

Lemma asBatchJobConfig_inv (loaded : LoadedJob.t) (job : BatchJobConfig.t) :
  asBatchJobConfig loaded = Some job ->
  LoadedJob.prompt loaded = Some (BatchJobConfig.prompt job) /\
  asOptional asModel (LoadedJob.model loaded)
  = Some (BatchJobConfig.model job) /\
  asOptional asSize (LoadedJob.size loaded)
  = Some (BatchJobConfig.size job) /\
  LoadedJob.seconds loaded = BatchJobConfig.seconds job /\
  LoadedJob.output_path loaded = BatchJobConfig.output_path job /\
  LoadedJob.input_reference loaded = BatchJobConfig.input_reference job /\
  LoadedJob.remix_video_id loaded = BatchJobConfig.remix_video_id job.
Proof.
unfold asBatchJobConfig.
destruct (LoadedJob.prompt loaded) as [prompt|]; [|done].
cbn [mbind option_bind].
destruct (asOptional asModel _) as [model|]; [|done].
cbn [mbind option_bind].
destruct (asOptional asSize _) as [size|]; [|done].
cbn [mbind option_bind]. by intros [= <-].
Qed.

Lemma asBatchConfig_inv (loaded : LoadedConfig.t) (config : BatchConfig.t) :
  asBatchConfig loaded = Some config ->
  exists jobs,
    LoadedConfig.jobs loaded = Some jobs /\
    Forall2 (fun l j => asBatchJobConfig l = Some j) jobs
            (BatchConfig.jobs config) /\
    asOptional asModel (LoadedConfig.default_model loaded)
    = Some (BatchConfig.default_model config) /\
    LoadedConfig.default_seconds loaded
    = BatchConfig.default_seconds config /\
    LoadedConfig.max_concurrent loaded = BatchConfig.max_concurrent config /\
    LoadedConfig.timeout loaded = BatchConfig.timeout config /\
    LoadedConfig.poll_interval loaded = BatchConfig.poll_interval config /\
    LoadedConfig.retry_policy loaded = BatchConfig.retry_policy config.
Proof.
unfold asBatchConfig.
destruct (LoadedConfig.jobs loaded) as [jobs|]; [|done].
cbn [mbind option_bind].
destruct (mapM asBatchJobConfig jobs) as [typed|] eqn:Et; [|done].
cbn [mbind option_bind].
destruct (asOptional asModel _) as [model|]; [|done].
cbn [mbind option_bind].
destruct (asOptional asSize _) as [size|]; [|done].
cbn [mbind option_bind]. intros [= <-]. exists jobs.
split; [done|]. split; [by apply mapM_Some|]. done.
Qed.

Lemma asOptional_asModel_inv (x : option string) (model : option Model) :
  asOptional asModel x = Some model ->
  match model with
  | Some m => x = Some (Model_literal m)
  | None => x = None
  end.
Proof.
destruct x as [s|]; cbn [asOptional].
- destruct (asModel s) as [m|] eqn:E; [|done].
  intros [= <-]. by rewrite (asModel_inv _ _ E).
- by intros [= <-].
Qed.

(** The [seconds] of an accepted job are valid for the model of the job
    or else for [sora-2], and they are the duration of its call. *)
Lemma validateBatchConfig_duration_checked
    (loaded : LoadedConfig.t) (config : BatchConfig.t) (i : nat)
    (job : BatchJobConfig.t) (seconds : float) :
  validateBatchConfig loaded = None ->
  asBatchConfig loaded = Some config ->
  BatchConfig.jobs config !! i = Some job ->
  BatchJobConfig.seconds job = Some seconds ->
  effectiveSeconds job config = seconds /\
  (BatchJobConfig.model job = None ->
   isValidDuration sora_2 seconds = true) /\
  (forall model, BatchJobConfig.model job = Some model ->
     isValidDuration model seconds = true).
Proof.
intros Hvalid Htyped Hjob Hseconds.
destruct (asBatchConfig_inv _ _ Htyped) as (jobs & Ejobs & Hall & _).
unfold validateBatchConfig in Hvalid. rewrite Ejobs in Hvalid.
rewrite !orElse_None, validateJobs_None in Hvalid.
destruct Hvalid as (_ & _ & Hjobs & _).
destruct (Forall2_lookup_r _ _ _ _ _ Hall Hjob) as (lj & Hlj & Hcast).
rewrite Forall_forall in Hjobs.
specialize (Hjobs lj (list_elem_of_lookup_2 _ _ _ Hlj)).
destruct (asBatchJobConfig_inv _ _ Hcast)
  as (_ & Hmodel & _ & Hsec & _).
apply asOptional_asModel_inv in Hmodel.
unfold validateJobConfig in Hjobs. cbv zeta in Hjobs.
rewrite !orElse_None in Hjobs. destruct Hjobs as (_ & _ & _ & Hdur & _).
rewrite Hsec, Hseconds in Hdur.
assert (exists model,
          isValidDuration model seconds = true /\
          model = or_enum (BatchJobConfig.model job) sora_2)
  as (checked & Hchecked & Echecked).
{ destruct (BatchJobConfig.model job) as [m|].
  - rewrite Hmodel in Hdur. cbn [or_string truthy_string] in Hdur.
    assert (truthy_string (Some (Model_literal m)) = true) as Ht
      by (by destruct m).
    cbn [truthy_string] in Ht.
    destruct (Model_literal m) eqn:El; [done|]. rewrite <- El in Hdur.
    rewrite asModel_literal in Hdur.
    apply throwIf_None, negb_false_iff in Hdur. by exists m.
  - rewrite Hmodel in Hdur. cbn in Hdur.
    apply throwIf_None, negb_false_iff in Hdur. by exists sora_2. }
split.
{ unfold effectiveSeconds. rewrite Hseconds. cbn [or_number].
  apply isValidDuration_inv in Hchecked.
  destruct checked; cbn in Hchecked;
    repeat (destruct Hchecked as [<-|Hchecked]; [done|]); done. }
split.
- intros Em. rewrite Em in Echecked. by subst checked.
- intros model Em. rewrite Em in Echecked. by subst checked.
Qed.

(** X12.  What [validateBatchConfig] checks of a duration: the [seconds]
    of a job are validated against the model of the job itself or else
    against [sora-2], never against [default_model].  So for a job that
    states its model the duration that [executeBatch] passes on is valid
    for the model it passes on; but in a batch whose [default_model] is
    [sora-2-pro], every job accepted with [seconds] of its own and no
    model of its own is run with a duration that is not valid for its
    model: the durations of the two models are disjoint. *)
Theorem validateBatchConfig_duration_against_job_model
    (loaded : LoadedConfig.t) (config : BatchConfig.t) (i : nat)
    (job : BatchJobConfig.t) (seconds : float) :
  validateBatchConfig loaded = None ->
  asBatchConfig loaded = Some config ->
  BatchConfig.jobs config !! i = Some job ->
  BatchJobConfig.seconds job = Some seconds ->
  effectiveSeconds job config = seconds /\
  (forall model, BatchJobConfig.model job = Some model ->
     isValidDuration (effectiveModel job config)
                     (effectiveSeconds job config) = true) /\
  (BatchJobConfig.model job = None ->
   isValidDuration sora_2 seconds = true /\
   (BatchConfig.default_model config = Some sora_2_pro ->
    effectiveModel job config = sora_2_pro /\
    isValidDuration (effectiveModel job config)
                    (effectiveSeconds job config) = false)).
Proof.
intros Hvalid Htyped Hjob Hseconds.
destruct (validateBatchConfig_duration_checked loaded config i job seconds
            Hvalid Htyped Hjob Hseconds) as (Heff & Hnone & Hsome).
split; [done|]. rewrite Heff. split.
- intros model Em. unfold effectiveModel. rewrite Em. cbn [or_enum].
  by apply Hsome.
- intros Em. specialize (Hnone Em). split; [done|].
  intros Edefault. unfold effectiveModel. rewrite Em, Edefault.
  cbn [or_enum]. split; [done|].
  apply isValidDuration_inv in Hnone. cbn in Hnone.
  repeat (destruct Hnone as [<-|Hnone]; [by vm_compute|]). done.
Qed.

Lemma validateBatchConfig_duration_against_job_model_witness :
  exists config job,
    asBatchConfig
      (loadedBatch [loadedJob "a cat" None (Some 8%float)]
                   (Some "sora-2-pro") None)
    = Some config /\
    BatchConfig.jobs config !! 0%nat = Some job /\
    isValidDuration (effectiveModel job config)
                    (effectiveSeconds job config) = false.
Proof.
eexists _, _. split; [vm_compute; reflexivity|]. split; [reflexivity|].
refine (proj2 (proj2 (proj2 (proj2
          (validateBatchConfig_duration_against_job_model
             (loadedBatch [loadedJob "a cat" None (Some 8%float)]
                          (Some "sora-2-pro") None)
             _ 0 _ 8%float _ _ _ _)) _) _));
  reflexivity.
Defined.



(** ** Merging the configuration with the command line *)

Lemma or_int_or_int (x y : option Z) (d : Z) :
  d <> 0 -> or_int x (or_int (Some (or_int x (or_int y d))) d)
            = or_int x (or_int y d).
Proof.
intros Hd. unfold or_int.
destruct x as [v|], y as [w|];
  repeat match goal with
         | |- context [?a =? 0] => destruct (Z.eqb_spec a 0)
         end; congruence.
Qed.

Lemma or_int_or_int3 (x y z : option Z) (d : Z) :
  d <> 0 ->
  or_int x (or_int y (or_int (Some (or_int x (or_int y (or_int z d)))) d))
  = or_int x (or_int y (or_int z d)).
Proof.
intros Hd. unfold or_int.
destruct x as [u|], y as [v|], z as [w|];
  repeat match goal with
         | |- context [?a =? 0] => destruct (Z.eqb_spec a 0)
         end; congruence.
Qed.

Lemma or_string_or_string3 (x y z : option string) (d : string) :
  d <> "" ->
  or_string x (or_string y
                 (or_string (Some (or_string x (or_string y
                                                  (or_string z d)))) d))
  = or_string x (or_string y (or_string z d)).
Proof.
intros Hd. destruct d as [|c d]; [done|].
by destruct x as [[|? ?]|], y as [[|? ?]|], z as [[|? ?]|].
Qed.

Lemma or_number_or_number (x : option float) :
  or_number (Some (or_number x DEFAULT_SECONDS)) DEFAULT_SECONDS
  = or_number x DEFAULT_SECONDS.
Proof.
destruct x as [v|]; [|done]. cbn [or_number].
destruct (truthy_number v) eqn:E; [by rewrite E|done].
Qed.

Section MergeFacts.
Variables (parseInt : string -> option Z) (env : Env.t).

(** What [executeBatch] reads from a merged configuration: the settings
    it would read from the configuration itself, under the values of the
    environment, under those of the command line. *)
Lemma mergeBatchConfig_settings (config : BatchConfig.t)
    (options : CliOptions.t) :
  let merged := mergeBatchConfig parseInt env config options in
  maxConcurrent merged
  = or_int (CliOptions.maxConcurrent options) (maxConcurrent config) /\
  timeout merged = or_int (CliOptions.timeout options) (timeout config) /\
  pollInterval merged
  = or_int (CliOptions.pollInterval options)
      (or_int (envInt parseInt (Env.VIDEO_POLL_INTERVAL env))
              (pollInterval config)) /\
  maxPollAttempts merged
  = or_int (CliOptions.maxPollAttempts options)
      (or_int (envInt parseInt (Env.VIDEO_MAX_POLL_ATTEMPTS env))
              (maxPollAttempts config)) /\
  outputDir merged
  = or_string (CliOptions.outputDir options)
      (or_string (Env.OUTPUT_DIR env) (outputDir config)) /\
  effectiveRetryPolicy merged = effectiveRetryPolicy config /\
  BatchConfig.jobs merged = BatchConfig.jobs config.
Proof.
cbv zeta.
unfold maxConcurrent, timeout, pollInterval, maxPollAttempts, outputDir,
  mergeBatchConfig.
cbn [BatchConfig.max_concurrent BatchConfig.timeout
     BatchConfig.poll_interval BatchConfig.max_poll_attempts
     BatchConfig.output_dir BatchConfig.jobs].
repeat split.
- unfold or_int.
  destruct (CliOptions.maxConcurrent options) as [u|],
           (BatchConfig.max_concurrent config) as [v|];
    repeat match goal with
           | |- context [?a =? 0] => destruct (Z.eqb_spec a 0)
           end; try congruence; done.
- unfold or_int.
  destruct (CliOptions.timeout options) as [u|],
           (BatchConfig.timeout config) as [v|];
    repeat match goal with
           | |- context [?a =? 0] => destruct (Z.eqb_spec a 0)
           end; try congruence; done.
- unfold or_int.
  destruct (CliOptions.pollInterval options) as [u|],
           (envInt parseInt (Env.VIDEO_POLL_INTERVAL env)) as [w|],
           (BatchConfig.poll_interval config) as [v|];
    repeat match goal with
           | |- context [?a =? 0] => destruct (Z.eqb_spec a 0)
           end; try congruence; done.
- unfold or_int.
  destruct (CliOptions.maxPollAttempts options) as [u|],
           (envInt parseInt (Env.VIDEO_MAX_POLL_ATTEMPTS env)) as [w|],
           (BatchConfig.max_poll_attempts config) as [v|];
    repeat match goal with
           | |- context [?a =? 0] => destruct (Z.eqb_spec a 0)
           end; try congruence; done.
- by destruct (CliOptions.outputDir options) as [[|? ?]|],
              (Env.OUTPUT_DIR env) as [[|? ?]|],
              (BatchConfig.output_dir config) as [[|? ?]|].
Qed.

(** X14.  A configuration that was merged once is not changed by being
    merged again with the same options and environment. *)
Theorem mergeBatchConfig_idempotent (config : BatchConfig.t)
    (options : CliOptions.t) :
  mergeBatchConfig parseInt env
    (mergeBatchConfig parseInt env config options) options
  = mergeBatchConfig parseInt env config options.
Proof.
unfold mergeBatchConfig.
cbn [BatchConfig.jobs BatchConfig.retry_policy BatchConfig.output_dir
     BatchConfig.max_concurrent BatchConfig.timeout
     BatchConfig.poll_interval BatchConfig.max_poll_attempts
     BatchConfig.default_model BatchConfig.default_size
     BatchConfig.default_seconds or_enum].
rewrite !or_int_or_int, !or_int_or_int3, or_string_or_string3,
  or_number_or_number by done.
reflexivity.
Qed.

(** X15.  Merging and the defaults of [executeBatch] commute: from a
    merged configuration [executeBatch] reads, for each setting, the
    value of the command line if it has one, else that of the environment
    (for the poll settings and the output directory), else the value it
    would have read from the configuration itself.  The jobs and the
    retry policy are untouched.  No value that comes from the command
    line or the environment is checked against the limits: any integer
    other than 0 given as [maxConcurrent] becomes the number of
    permits. *)
Theorem mergeBatchConfig_precedence (config : BatchConfig.t)
    (options : CliOptions.t) :
  let merged := mergeBatchConfig parseInt env config options in
  maxConcurrent merged
  = or_int (CliOptions.maxConcurrent options) (maxConcurrent config) /\
  timeout merged = or_int (CliOptions.timeout options) (timeout config) /\
  pollInterval merged
  = or_int (CliOptions.pollInterval options)
      (or_int (envInt parseInt (Env.VIDEO_POLL_INTERVAL env))
              (pollInterval config)) /\
  maxPollAttempts merged
  = or_int (CliOptions.maxPollAttempts options)
      (or_int (envInt parseInt (Env.VIDEO_MAX_POLL_ATTEMPTS env))
              (maxPollAttempts config)) /\
  outputDir merged
  = or_string (CliOptions.outputDir options)
      (or_string (Env.OUTPUT_DIR env) (outputDir config)) /\
  effectiveRetryPolicy merged = effectiveRetryPolicy config /\
  BatchConfig.jobs merged = BatchConfig.jobs config /\
  (forall n, n <> 0 -> CliOptions.maxConcurrent options = Some n ->
     Semaphore.permits (Semaphore.new (maxConcurrent merged)) = n).
Proof.
cbv zeta.
destruct (mergeBatchConfig_settings config options)
  as (Hc & Ht & Hp & Ha & Ho & Hr & Hj).
repeat split; try done.
intros n Hn En. cbn [Semaphore.new Semaphore.permits].
rewrite Hc, En. cbn. by destruct (Z.eqb_spec n 0).
Qed.

(** X16.  A configuration that passed [validateBatchConfig] stays within
    the limits when it is merged, for every setting that neither the
    command line nor the environment overrides. *)
Theorem mergeBatchConfig_keeps_validated_limits (loaded : LoadedConfig.t)
    (config : BatchConfig.t) (options : CliOptions.t) :
  validateBatchConfig loaded = None ->
  asBatchConfig loaded = Some config ->
  let merged := mergeBatchConfig parseInt env config options in
  (1 <= length (BatchConfig.jobs merged) <= 100)%nat /\
  0 <= maxRetries (effectiveRetryPolicy merged) <= 5 /\
  100 <= retryDelay (effectiveRetryPolicy merged) <= 60000 /\
  (or_int (CliOptions.maxConcurrent options) 0 = 0 ->
   1 <= maxConcurrent merged <= 5) /\
  (or_int (CliOptions.timeout options) 0 = 0 ->
   60000 <= timeout merged <= 3600000) /\
  (or_int (CliOptions.pollInterval options) 0 = 0 ->
   or_int (envInt parseInt (Env.VIDEO_POLL_INTERVAL env)) 0 = 0 ->
   5000 <= pollInterval merged <= 60000).
Proof.
intros Hvalid Htyped merged.
destruct (validateBatchConfig_None loaded Hvalid)
  as (jobs & Ejobs & Hlen & _ & Hconc & Htime & Hpoll & Hretry & _).
destruct (asBatchConfig_inv _ _ Htyped)
  as (jobs' & Ejobs' & Hall & _ & _ & Ec' & Et' & Ep' & Er').
rewrite Ejobs in Ejobs'. injection Ejobs' as <-.
apply Forall2_length in Hall.
rewrite Ec' in Hconc. rewrite Et' in Htime. rewrite Ep' in Hpoll.
rewrite Er' in Hretry.
destruct (settings_within config Hconc Htime Hpoll Hretry)
  as (Hc & Ht & _ & Hp & Hr & Hd).
assert (1 <= length (BatchConfig.jobs config) <= 100)%nat as Hjobs
  by lia.
destruct (mergeBatchConfig_settings config options)
  as (Ec & Et & Ep & _ & _ & Er & Ej).
fold merged in Ec, Et, Ep, Er, Ej. rewrite Ec, Et, Ep, Er, Ej.
assert (forall x d, or_int x 0 = 0 -> or_int x d = d) as Hnone.
{ intros [v|] d; cbn; [|done]. by destruct (Z.eqb_spec v 0). }
repeat split; try done; try lia.
all: intros; rewrite ?Hnone by done; lia.
Qed.
End MergeFacts.

Lemma mergeBatchConfig_precedence_witness :
  let options :=
    {| CliOptions.outputDir := None; CliOptions.format := None;
       CliOptions.timeout := None; CliOptions.maxConcurrent := Some 50;
       CliOptions.pollInterval := None; CliOptions.maxPollAttempts := None;
       CliOptions.estimateOnly := None; CliOptions.allowAnyPath := None |} in
  Semaphore.permits
    (Semaphore.new
       (maxConcurrent
          (mergeBatchConfig (fun _ => None) emptyEnv threeJobs options)))
  = 50.
Proof.
intros options.
refine (proj2 (proj2 (proj2 (proj2 (proj2 (proj2 (proj2
          (mergeBatchConfig_precedence (fun _ => None) emptyEnv threeJobs
             options))))))) 50 _ _); [lia|reflexivity].
Defined.

Lemma mergeBatchConfig_keeps_validated_limits_witness :
  exists config,
    asBatchConfig
      (loadedBatch [loadedJob "a cat" None (Some 8%float)] None (Some 3))
    = Some config /\
    1 <= maxConcurrent
           (mergeBatchConfig (fun _ => None) emptyEnv config noCliOptions)
      <= 5.
Proof.
eexists. split; [vm_compute; reflexivity|].
refine (proj1 (proj2 (proj2 (proj2
          (mergeBatchConfig_keeps_validated_limits (fun _ => None) emptyEnv
             (loadedBatch [loadedJob "a cat" None (Some 8%float)] None
                          (Some 3))
             _ noCliOptions _ _)))) _); reflexivity.
Defined.

(** ** The event loop: timing and order of admission *)

Section Punctual.
Context `{PathLib}.
Variables (config : BatchConfig.t) (options : BatchExecutionOptions.t)
          (startedAt : Z) (files : gset string).

Lemma punctual_same (s s1 : State) :
  now s1 = now s -> coordinator s1 = coordinator s ->
  deadlineTimer s1 = deadlineTimer s -> graceTimer s1 = graceTimer s ->
  punctual config startedAt s -> punctual config startedAt s1.
Proof. unfold punctual. by intros -> -> -> ->. Qed.

Lemma punctual_finalize (s : State) :
  startedAt <= now s
  <= startedAt + setTimeout_delay (timeout config) + 5000 ->
  punctual config startedAt (finalize config startedAt s).
Proof.
intros Hnow. split; [cbn; lia|]. unfold finalize. cbn [coordinator].
destruct (calculateTotalCost _ _); [|done]. cbn. lia.
Qed.

Lemma punctual_settleJob (index : nat) (phase : Phase) (s : State) :
  timed s -> punctual config startedAt s ->
  punctual config startedAt (settleJob config startedAt index phase s).
Proof.
intros Ht Hp.
destruct (releaseSlot_frame index phase s)
  as (_ & _ & _ & _ & Hcoord & Hn & _ & Hd & Hg).
pose proof (punctual_same s _ Hn Hcoord Hd Hg Hp) as Hp1.
unfold settleJob. revert Hcoord Hn Hp1.
generalize (releaseSlot index phase s). intros s1 Hcoord Hn Hp1.
destruct (coordinator s1) eqn:Ec; try done.
assert (startedAt <= now s1
        <= startedAt + setTimeout_delay (timeout config) + 5000) as Hnow.
{ unfold timed in Ht. rewrite <- Hcoord in Ht.
  destruct Ht as (_ & _ & due & Hdue & Hle).
  destruct Hp as [Hs Hp]. rewrite <- Hcoord in Hp. rewrite Hp in Hdue.
  injection Hdue as <-. lia. }
destruct phase;
  try (destruct (forallb isFulfilled _);
       [by apply punctual_finalize|done]).
split; [apply Hp1|done].
Qed.

Lemma punctual_step (e : Event) (s s' : State) :
  timed s -> punctual config startedAt s ->
  step config options startedAt e s = Some s' ->
  punctual config startedAt s'.
Proof.
intros Ht Hp Hstep. apply step_inv in Hstep.
destruct e as [|index instant|index executor| |].
- destruct Hstep as (index & rest & job & _ & _ & _ & ->).
  unfold resumeJob. read_state.
  destruct (timedOut s); [by apply punctual_settleJob|].
  destruct (resolveOutputPath job index _ _);
    [exact Hp|by apply punctual_settleJob].
- destruct Hstep as (outputPath & uniquePath & _ & Hm & _ & ->).
  apply mayRunAt_inv in Hm as (_ & Hle & _).
  destruct Hp as [Hnow Hp]. split; [read_state; lia|]. by read_state.
- destruct Hstep as (uniquePath & jobStartTime & job & _ & _ & Hm & ->).
  apply mayRunAt_inv in Hm as (_ & Hle & Hdl & Hgr).
  destruct Hp as [Hnow Hp]. apply punctual_settleJob.
  + unfold timed in *. read_state.
    destruct (coordinator s); try done.
    * destruct Ht as (Hto & Hg & due & Hdue & _).
      split; [done|]. split; [done|]. exists due. split; [done|].
      by apply Hdl.
    * destruct Ht as (Hto & Hd & due & Hdue & _).
      split; [done|]. split; [done|]. exists due. split; [done|].
      by apply Hgr.
  + split; [read_state; lia|]. by read_state.
- destruct Hstep as (due & Hdue & Hm & ->).
  apply mayRunAt_inv in Hm as (_ & Hle & _).
  destruct Hp as [Hnow Hp]. split; [read_state; lia|]. read_state.
  destruct (coordinator s); try done.
  rewrite Hp in Hdue. by injection Hdue as <-.
- destruct Hstep as (due & Hdue & Hm & ->).
  apply mayRunAt_inv in Hm as (_ & Hle & _).
  destruct Hp as [Hnow Hp]. unfold timed in Ht.
  destruct (coordinator s) eqn:Ec.
  + destruct Ht as (_ & Hnone & _). congruence.
  + rewrite Hp in Hdue. injection Hdue as <-.
    apply punctual_finalize. cbn.
    pose proof (setTimeout_delay_pos (timeout config)). lia.
  + congruence.
  + congruence.
Qed.

Lemma punctual_initial :
  punctual config startedAt (initial config startedAt files).
Proof.
unfold initial. destruct (launch config) as [[sem micro] phs].
destruct (forallb isFulfilled phs); [|by split].
unfold finalize. split; [done|]. cbn [coordinator].
destruct (calculateTotalCost _ _); [|done].
cbn. pose proof (setTimeout_delay_pos (timeout config)). lia.
Qed.

Lemma run_punctual (trace : list Event) (s : State) :
  run config options startedAt files trace = Some s ->
  punctual config startedAt s.
Proof.
intros Hrun.
apply (run_invariant config options startedAt files
         (fun s => sound config options s /\ punctual config startedAt s)
         (conj (sound_initial config options startedAt files)
               punctual_initial)) in Hrun; [by destruct Hrun|].
intros e s0 s1 [Hs Hp] Hstep. split; [by eapply sound_step|].
eapply punctual_step; [apply Hs|done..].
Qed.
End Punctual.

(** X17.  [executeBatch] returns in time: on the clock of the model, the
    result is returned no later than the timeout (as [setTimeout] takes
    it) plus the 5000 ms of grace after the start, [started_at] is the
    instant of the call and [total_duration_ms] is the difference of
    [finished_at] and [started_at], which is not negative. *)
Theorem executeBatch_returns_in_time `{PathLib}
    (config : BatchConfig.t) (options : BatchExecutionOptions.t)
    (startedAt : Z) (files : gset string) (trace : list Event) (s : State)
    (r : BatchResult.t) :
  run config options startedAt files trace = Some s ->
  coordinator s = Returned r ->
  BatchResult.started_at r = startedAt /\
  BatchResult.total_duration_ms r
  = BatchResult.finished_at r - BatchResult.started_at r /\
  0 <= BatchResult.total_duration_ms r
    <= setTimeout_delay (timeout config) + 5000 /\
  (1 <= timeout config <= 2147483647 ->
   BatchResult.total_duration_ms r <= timeout config + 5000).
Proof.
intros Hrun Hr.
destruct (run_punctual config options startedAt files trace s Hrun)
  as [_ Hp].
rewrite Hr in Hp. destruct Hp as (Hs & Hf & Hd).
rewrite Hs, Hd. repeat split; try lia.
intros Ht. rewrite setTimeout_delay_id in Hf by done. lia.
Qed.

Lemma executeBatch_returns_in_time_witness :
  exists s r,
    run shortDeadline sampleOptions 0 ∅ deadlinePassed = Some s /\
    coordinator s = Returned r /\
    BatchResult.total_duration_ms r <= 100 + 5000.
Proof.
eexists _, _. split; [vm_compute; reflexivity|]. split; [reflexivity|].
refine (proj2 (proj2 (proj2
          (executeBatch_returns_in_time shortDeadline sampleOptions 0 ∅
             deadlinePassed _ _ _ _))) _);
  [vm_compute; reflexivity|reflexivity|by vm_compute].
Defined.

Section InOrder.
Context `{PathLib}.
Variables (config : BatchConfig.t) (options : BatchExecutionOptions.t)
          (startedAt : Z) (files : gset string).

Lemma inOrder_release (s s1 : State) :
  semaphore s1 = (Semaphore.release (semaphore s)).1 ->
  inOrder config s -> inOrder config s1.
Proof.
intros Hsem (m & Hm & Hq). unfold inOrder. rewrite Hsem.
unfold Semaphore.release. rewrite Hq.
destruct (length (BatchConfig.jobs config) - m)%nat as [|k] eqn:Ek;
  cbn [seq fst Semaphore.queue].
- exists m. by rewrite Ek.
- exists (S m). split; [lia|]. f_equal. lia.
Qed.

Lemma inOrder_same (s s1 : State) :
  semaphore s1 = semaphore s -> inOrder config s -> inOrder config s1.
Proof. unfold inOrder. by intros ->. Qed.

Lemma inOrder_step (e : Event) (s s' : State) :
  inOrder config s -> step config options startedAt e s = Some s' ->
  inOrder config s'.
Proof.
intros Ho Hstep. apply step_inv in Hstep.
destruct e as [|index instant|index executor| |].
- destruct Hstep as (index & rest & job & _ & _ & _ & ->).
  unfold resumeJob. read_state.
  destruct (timedOut s).
  { eapply inOrder_release; [|exact Ho].
    by destruct (settleJob_frame config startedAt index Fulfilled
                   (pushResult
                      (cancelledResult index (BatchJobConfig.prompt job)
                         "Batch timed out before job started")
                      (dequeue rest s))) as (-> & _). }
  destruct (resolveOutputPath job index _ _) as [outputPath|message].
  + by eapply inOrder_same; [|exact Ho].
  + eapply inOrder_release; [|exact Ho].
    by destruct (settleJob_frame config startedAt index (Rejected message)
                   (dequeue rest s)) as (-> & _).
- destruct Hstep as (outputPath & uniquePath & _ & _ & _ & ->).
  by eapply inOrder_same; [|exact Ho].
- destruct Hstep as (uniquePath & jobStartTime & job & _ & _ & _ & ->).
  eapply inOrder_release; [|exact Ho].
  match goal with
  | |- semaphore (settleJob _ _ _ _ ?s0) = _ =>
      by destruct (settleJob_frame config startedAt index Fulfilled s0)
        as (-> & _)
  end.
- destruct Hstep as (due & _ & _ & ->). by eapply inOrder_same; [|exact Ho].
- destruct Hstep as (due & _ & _ & ->). by eapply inOrder_same; [|exact Ho].
Qed.

Lemma launch_inOrder (n : nat) :
  let '(sem, micro, phs) :=
    fold_left launchJob (seq 0 n)
              (Semaphore.new (maxConcurrent config), [], []) in
  exists m, (m <= n)%nat /\ Semaphore.queue sem = seq m (n - m).
Proof.
induction n as [|n IH]; [by exists 0%nat|].
pose proof (launch_coherent config n) as Hl.
rewrite seq_S, fold_left_app. cbn [fold_left Nat.add].
destruct (fold_left launchJob (seq 0 n) _) as [[sem micro] phs].
destruct IH as (m & Hm & Hq).
destruct Hl as [(_ & _ & _ & _ & _ & _ & Hwait & _) _].
unfold launchJob, Semaphore.acquire.
destruct (0 <? Semaphore.permits sem) eqn:Ep; cbn [Semaphore.queue].
- apply Z.ltb_lt in Ep. exists (S n). split; [done|].
  rewrite Nat.sub_diag. cbn [seq].
  destruct (Semaphore.queue sem) as [|x q]; [done|].
  specialize (Hwait ltac:(done)). lia.
- exists m. split; [lia|]. rewrite Hq.
  replace (S n - m)%nat with (S (n - m)) by lia.
  rewrite seq_S. do 2 f_equal. lia.
Qed.

Lemma inOrder_initial : inOrder config (initial config startedAt files).
Proof.
pose proof (launch_inOrder (length (BatchConfig.jobs config))) as Hl.
unfold initial, launch.
destruct (fold_left launchJob _ _) as [[sem micro] phs].
by destruct (forallb isFulfilled phs).
Qed.

Lemma run_inOrder (trace : list Event) (s : State) :
  run config options startedAt files trace = Some s -> inOrder config s.
Proof.
apply (run_invariant config options startedAt files (inOrder config)).
- apply inOrder_initial.
- intros e s0 s1. apply inOrder_step.
Qed.
End InOrder.

(** X18.  Jobs are admitted in the order of the batch: at every moment
    the jobs still waiting for a slot are the last jobs of the batch, so
    no job acquires its slot before a job that precedes it, and the slot
    that a finishing job releases goes to the waiting job of least
    index. *)
Theorem executeBatch_admits_in_order `{PathLib}
    (config : BatchConfig.t) (options : BatchExecutionOptions.t)
    (startedAt : Z) (files : gset string) (trace : list Event) (s : State) :
  run config options startedAt files trace = Some s ->
  (forall j j',
     phases s !! j = Some Waiting ->
     (j <= j' < length (BatchConfig.jobs config))%nat ->
     phases s !! j' = Some Waiting) /\
  (forall waiter,
     (Semaphore.release (semaphore s)).2 = Some waiter ->
     phases s !! waiter = Some Waiting /\
     forall j, phases s !! j = Some Waiting -> (waiter <= j)%nat).
Proof.
intros Hrun.
destruct (run_inOrder config options startedAt files trace s Hrun)
  as (m & Hm & Hq).
destruct (run_sound config options startedAt files trace s Hrun)
  as ((_ & _ & _ & _ & Hwaiting & _) & _).
assert (forall j, phases s !! j = Some Waiting <->
                  (m <= j < length (BatchConfig.jobs config))%nat) as Hw.
{ intros j. rewrite <- Hwaiting, Hq, elem_of_seq. lia. }
split.
- intros j j' Hj Hjj. apply Hw. apply Hw in Hj. lia.
- intros waiter. unfold Semaphore.release. rewrite Hq.
  destruct (length (BatchConfig.jobs config) - m)%nat as [|k] eqn:Ek;
    cbn [seq snd]; [done|].
  intros [= <-]. split; [apply Hw; lia|].
  intros j Hj. apply Hw in Hj. lia.
Qed.

Lemma executeBatch_admits_in_order_witness :
  exists s,
    run threeJobs sampleOptions 0 ∅ twoExecuting = Some s /\
    phases s !! 2%nat = Some Waiting.
Proof.
eexists. split; [vm_compute; reflexivity|].
refine (proj1 (executeBatch_admits_in_order threeJobs sampleOptions 0 ∅
                 twoExecuting _ _) 2%nat 2%nat _ _);
  [vm_compute; reflexivity|reflexivity|by vm_compute].
Defined.

(** ** Output paths *)

Section OutputPaths.
Context `{PathLib}.

Lemma resolveOutputPath_Throw (job : BatchJobConfig.t) (index : nat)
    (outputDir : string) (allowAnyPath : bool) (message : string) :
  resolveOutputPath job index outputDir allowAnyPath = Throw message <->
  absoluteOutput job = true /\ allowAnyPath = false /\
  startsWith (nullish (BatchJobConfig.output_path job) "")
             (path_resolve outputDir) = false /\
  message = "Job " +:+ pretty (index + 1)%nat +:+
            ": absolute output_path must be within output_dir. Use --allow-any-path to override.".
Proof.
unfold resolveOutputPath, absoluteOutput.
destruct (truthy_string (BatchJobConfig.output_path job)); cbn [andb];
  [|split; [done|by intros [? _]]].
destruct (path_isAbsolute _); [|split; [done|by intros [? _]]].
destruct allowAnyPath; cbn [negb andb];
  [split; [done|by intros (_ & ? & _)]|].
destruct (startsWith _ _); cbn [negb].
- split; [done|]. by intros (_ & _ & ? & _).
- split; [by intros [= <-]|]. by intros (_ & _ & _ & ->).
Qed.
End OutputPaths.

(** X19.  The containment check of [resolveOutputPath] is a test on the
    text of the path.  It throws exactly for an absolute [output_path]
    that does not begin with the resolved output directory, [allowAnyPath]
    being off.  A relative [output_path] is never refused but joined to
    the output directory as it is, and an absolute one is accepted
    unchanged whenever it begins with the text of the resolved output
    directory, whatever follows: a sibling directory whose name extends
    that of the output directory, or steps back through "..". *)
Theorem resolveOutputPath_containment_is_textual `{PathLib}
    (job : BatchJobConfig.t) (index : nat) (outputDir : string)
    (allowAnyPath : bool) :
  let output_path := nullish (BatchJobConfig.output_path job) "" in
  (forall message,
     resolveOutputPath job index outputDir allowAnyPath = Throw message <->
     absoluteOutput job = true /\ allowAnyPath = false /\
     startsWith output_path (path_resolve outputDir) = false /\
     message = "Job " +:+ pretty (index + 1)%nat +:+
               ": absolute output_path must be within output_dir. Use --allow-any-path to override.") /\
  (truthy_string (BatchJobConfig.output_path job) = true ->
   path_isAbsolute output_path = false ->
   resolveOutputPath job index outputDir allowAnyPath
   = Ok (path_join outputDir output_path)) /\
  (forall rest,
     absoluteOutput job = true ->
     output_path = path_resolve outputDir +:+ rest ->
     resolveOutputPath job index outputDir allowAnyPath = Ok output_path) /\
  (truthy_string (BatchJobConfig.output_path job) = false ->
   resolveOutputPath job index outputDir allowAnyPath
   = Ok (path_join outputDir (generatedName job index))).
Proof.
cbv zeta. split; [apply resolveOutputPath_Throw|].
unfold resolveOutputPath, absoluteOutput, generatedName.
split; [by intros -> ->|]. split.
- intros rest [Ht Ha]%andb_true_iff Hrest. rewrite Ht, Ha, Hrest.
  by rewrite startsWith_app, andb_false_r.
- by intros ->.
Qed.

Lemma resolveOutputPath_containment_is_textual_witness :
  resolveOutputPath
    (sampleJob "a cat" (Some "/work/out-takes/../../etc/clip.mp4")) 0
    "out" false
  = Ok "/work/out-takes/../../etc/clip.mp4".
Proof.
refine (proj1 (proj2 (proj2
          (resolveOutputPath_containment_is_textual
             (sampleJob "a cat" (Some "/work/out-takes/../../etc/clip.mp4"))
             0 "out" false))) "-takes/../../etc/clip.mp4" _ _);
  reflexivity.
Defined.

(** X20.  [generateUniqueFilePath] returns the path itself when no file
    has that name; otherwise it returns the candidate
    [dir/base_counter.ext] with the least counter from 1 on for which no
    file exists.  Called again on its result, with the files unchanged,
    it returns the result as it is. *)
Theorem generateUniqueFilePath_least_counter `{PathLib}
    (fs : gset string) (filePath uniquePath : string) :
  generateUniqueFilePath fs filePath = Some uniquePath ->
  (((filePath ∉ fs) /\ uniquePath = filePath) \/
   ((filePath ∈ fs) /\
    exists counter,
      (1 <= counter)%nat /\
      uniquePath = candidatePath filePath counter /\
      (forall c, (1 <= c < counter)%nat -> candidatePath filePath c ∈ fs))) /\
  (uniquePath ∉ fs) /\
  generateUniqueFilePath fs uniquePath = Some uniquePath.
Proof.
intros Hu.
assert (uniquePath ∉ fs) as Hfree.
{ revert Hu. unfold generateUniqueFilePath, fileExists.
  case_bool_decide as Hin; cbn [negb]; [|by intros [= <-]].
  generalize 1%nat (S (size fs)). intros counter probes. revert counter.
  induction probes as [|probes IH]; intros counter; [done|].
  cbn [probeCounter]. unfold fileExists.
  case_bool_decide as Hc; [apply IH|by intros [= <-]]. }
split; [|split; [done|]].
- revert Hu. unfold generateUniqueFilePath, fileExists.
  case_bool_decide as Hin; cbn [negb]; [|intros [= <-]; by left].
  intros Hu. right. split; [done|].
  assert (forall probes start,
            probeCounter fs filePath probes start = Some uniquePath ->
            exists counter,
              (start <= counter)%nat /\
              uniquePath = candidatePath filePath counter /\
              forall c, (start <= c < counter)%nat ->
                        candidatePath filePath c ∈ fs) as Hgen.
  { induction probes as [|probes IH]; intros start; [done|].
    cbn [probeCounter]. unfold fileExists.
    case_bool_decide as Hc.
    - intros Hp. destruct (IH _ Hp) as (counter & Hle & -> & Hbelow).
      exists counter. split; [lia|]. split; [done|].
      intros c Hcc. destruct (decide (c = start)) as [->|Hne]; [done|].
      apply Hbelow. lia.
    - intros [= <-]. exists start. split; [done|]. split; [done|].
      intros c Hcc. lia. }
  apply (Hgen _ _ Hu).
- unfold generateUniqueFilePath, fileExists.
  by case_bool_decide.
Qed.

Lemma generateUniqueFilePath_least_counter_witness :
  generateUniqueFilePath ({[ "out/clip.mp4" ]} : gset string) "out/clip.mp4"
  = Some "out/clip_1.mp4" /\
  generateUniqueFilePath ({[ "out/clip.mp4" ]} : gset string)
                         "out/clip_1.mp4"
  = Some "out/clip_1.mp4".
Proof.
split; [by vm_compute|].
apply (generateUniqueFilePath_least_counter
         ({[ "out/clip.mp4" ]} : gset string) "out/clip.mp4").
by vm_compute.
Defined.

(** X21.  [executeBatch] throws only over an absolute output path: when
    [allowAnyPath] is on, or no job has an absolute [output_path], no
    run of the batch ends in a throw, and every run can be brought to the
    [return] by the microtasks and the two timers alone. *)
Theorem executeBatch_never_throws_without_absolute_paths `{PathLib}
    (config : BatchConfig.t) (options : BatchExecutionOptions.t)
    (startedAt : Z) (files : gset string) (trace : list Event) (s : State) :
  allowAnyPath options = true \/
  Forall (fun job => absoluteOutput job = false) (BatchConfig.jobs config) ->
  run config options startedAt files trace = Some s ->
  (forall message, coordinator s <> Threw message) /\
  exists (rest : list Event) (s' : State) (r : BatchResult.t),
    Forall isInternal rest /\
    run config options startedAt files (trace ++ rest) = Some s' /\
    coordinator s' = Returned r.
Proof.
intros Hpaths Hrun.
assert (forall message, ~ pathError config options message) as Hnone.
{ intros message (i & job & Hjob & Hthrow).
  apply resolveOutputPath_Throw in Hthrow as (Habs & Hallow & _).
  destruct Hpaths as [Hany|Hrel]; [congruence|].
  rewrite Forall_forall in Hrel.
  rewrite (Hrel job) in Habs; [done|]. by eapply list_elem_of_lookup_2. }
pose proof (run_sound _ _ _ _ _ _ Hrun) as Hs. split.
- intros message Hc. destruct Hs as (_ & _ & Ha & _).
  unfold accounted in Ha. rewrite Hc in Ha. by apply (Hnone message).
- destruct (can_return config options startedAt s Hs Hnone)
    as (rest & s' & r & Hint & Hrest & Hr).
  exists rest, s', r. split; [done|]. split; [|done].
  unfold run in *. by rewrite runFrom_app, Hrun.
Qed.

Lemma executeBatch_never_throws_without_absolute_paths_witness :
  exists s,
    run threeJobs sampleOptions 0 ∅ threeJobsTrace = Some s /\
    forall message, coordinator s <> Threw message.
Proof.
eexists. split; [vm_compute; reflexivity|].
refine (proj1 (executeBatch_never_throws_without_absolute_paths threeJobs
                 sampleOptions 0 ∅ threeJobsTrace _ _ _)).
- right. by repeat constructor.
- vm_compute. reflexivity.
Defined.

Lemma length_string_app (a b : string) :
  String.length (a +:+ b) = (String.length a + String.length b)%nat.
Proof.
induction a as [|c a IH]; [done|].
change (S (String.length (a +:+ b))
        = S (String.length a + String.length b)). by rewrite IH.
Qed.

Lemma string_app_inv_tail (a b t : string) : a +:+ t = b +:+ t -> a = b.
Proof.
revert b. induction a as [|c a IH]; intros [|d b] Hab.
- done.
- apply (f_equal String.length) in Hab.
  change ("" +:+ t) with t in Hab.
  change (String d b +:+ t) with (String d (b +:+ t)) in Hab.
  cbn [String.length] in Hab. rewrite length_string_app in Hab. lia.
- apply (f_equal String.length) in Hab.
  change ("" +:+ t) with t in Hab.
  change (String c a +:+ t) with (String c (a +:+ t)) in Hab.
  cbn [String.length] in Hab. rewrite length_string_app in Hab. lia.
- change (String c (a +:+ t) = String d (b +:+ t)) in Hab.
  injection Hab as -> Hab. f_equal. by apply IH.
Qed.

(** X22.  The generated file names of different jobs differ: the name
    that [resolveOutputPath] makes up for a job without [output_path]
    determines the index of the job, so within a batch no two such jobs
    are given the same name in the output directory. *)
Theorem generatedName_determines_index (job job' : BatchJobConfig.t)
    (index index' : nat) :
  generatedName job index = generatedName job' index' -> index = index'.
Proof.
unfold generatedName. intros Hname.
assert (forall (x : string) (n n' : nat),
          x +:+ "_" +:+ pretty (n + 1)%nat +:+ ".mp4"
          = x +:+ "_" +:+ pretty (n' + 1)%nat +:+ ".mp4" -> n = n')
  as Hsame.
{ intros x n n' Heq.
  apply (inj (String.app x)), (inj (String.app "_")) in Heq.
  apply string_app_inv_tail, (inj pretty) in Heq. lia. }
destruct (truthy_string (BatchJobConfig.remix_video_id job)),
         (truthy_string (BatchJobConfig.remix_video_id job')),
         (truthy_string (BatchJobConfig.input_reference job)),
         (truthy_string (BatchJobConfig.input_reference job'));
  cbv beta iota in Hname;
  first [exact (Hsame _ _ _ Hname) | discriminate Hname].
Qed.

Lemma generatedName_determines_index_witness :
  generatedName eightSecondJob 0 = "generated_1.mp4" /\
  (generatedName eightSecondJob 0 = generatedName eightSecondJob 0 ->
   0%nat = 0%nat).
Proof.
split; [by vm_compute|].
apply (generatedName_determines_index eightSecondJob eightSecondJob 0 0).
Defined.

(** ** Costs *)

(** X23.  The price per second depends on the size only through the test
    for "720" or "480" in its text: [sora-2] costs 0.1 at every size, and
    [sora-2-pro] costs 0.3 at 1280x720, 720x1280 and 480x480 and 0.5 at
    the three other sizes; its [default] price is never used. *)
Theorem pricePerSecond_table (model : Model) (size : Size) :
  pricePerSecond model size
  = match model, size with
    | sora_2, _ => 0.1%float
    | sora_2_pro, (size_1280x720 | size_720x1280 | size_480x480) =>
        0.3%float
    | sora_2_pro, _ => 0.5%float
    end.
Proof. by destruct model, size; vm_compute. Qed.



Lemma jobs_by_kind (jobs : list BatchJobConfig.t) :
  (length (filter (fun job => jobKind job = text_to_video) jobs)
   + (length (filter (fun job => jobKind job = image_to_video) jobs)
      + (length (filter (fun job => jobKind job = remix) jobs) + 0))
   = length jobs)%nat.
Proof.
induction jobs as [|job jobs IH]; [done|].
rewrite !filter_cons. destruct (jobKind job);
  repeat case_decide; try done; cbn [length]; lia.
Qed.

Lemma kind_occurs (jobs : list BatchJobConfig.t) (kind : JobKind) :
  (0 < length (filter (fun job => jobKind job = kind) jobs))%nat <->
  kind ∈ map jobKind jobs.
Proof.
induction jobs as [|job jobs IH].
- cbn. split; [lia|by intros ?%elem_of_nil].
- rewrite filter_cons. cbn [map]. rewrite elem_of_cons.
  case_decide as Hk; cbn [length].
  + split; [by left|lia].
  + rewrite IH. split; [by right|]. by intros [?|?].
Qed.

(** X25.  The breakdown of an estimate lists the kinds of job that occur
    in the batch, text-to-video first, then image-to-video, then remix,
    each once with the number of its jobs; the counts add up to
    [total_jobs].  For a batch without jobs the breakdown is empty and
    both ends of the estimate are 0. *)
Theorem estimateBatchCost_breakdown_counts (config : BatchConfig.t) :
  let estimate := estimateBatchCost config in
  let jobs := BatchConfig.jobs config in
  map (fun item => (CostBreakdownItem.type item,
                    CostBreakdownItem.count item))
      (CostEstimate.breakdown estimate)
  = map (fun kind =>
           (kind, length (filter (fun job => jobKind job = kind) jobs)))
        (filter (fun kind => kind ∈ map jobKind jobs)
                [text_to_video; image_to_video; remix]) /\
  foldr (fun item sum => (CostBreakdownItem.count item + sum)%nat) 0%nat
        (CostEstimate.breakdown estimate)
  = CostEstimate.total_jobs estimate /\
  (jobs = [] ->
   CostEstimate.breakdown estimate = [] /\
   CostEstimate.estimated_min estimate = 0%float /\
   CostEstimate.estimated_max estimate = 0%float).
Proof.
intros estimate jobs. subst estimate. unfold estimateBatchCost.
destruct (tallyJob_fold config jobs emptyTally)
  as (_ & _ & _ & H4 & H5 & H6).
fold jobs. cbv zeta in H4, H5, H6.
cbn [CostEstimate.breakdown CostEstimate.total_jobs
     CostEstimate.estimated_min CostEstimate.estimated_max].
rewrite H4, H5, H6. cbn [emptyTally textToVideoCount imageToVideoCount
                         remixCount Nat.add].
pose proof (jobs_by_kind jobs) as Hsum.
pose proof (kind_occurs jobs text_to_video) as Ht.
pose proof (kind_occurs jobs image_to_video) as Hi.
pose proof (kind_occurs jobs remix) as Hr.
split; [|split].
- assert (forall kind cost,
            map (fun item => (CostBreakdownItem.type item,
                              CostBreakdownItem.count item))
                (breakdownItem kind
                   (length (filter (fun job => jobKind job = kind) jobs))
                   cost)
            = map (fun kind =>
                     (kind,
                      length (filter (fun job => jobKind job = kind) jobs)))
                  (filter (fun kind => kind ∈ map jobKind jobs) [kind]))
    as Hitem.
  { intros kind cost. unfold breakdownItem.
    rewrite filter_cons, filter_nil.
    pose proof (kind_occurs jobs kind) as Hk.
    destruct (Nat.ltb_spec 0
                (length (filter (fun job => jobKind job = kind) jobs)));
      case_decide as Hd; try done; [tauto|].
    apply Hk in Hd. lia. }
  rewrite !map_app, !Hitem.
  change [text_to_video; image_to_video; remix]
    with ([text_to_video] ++ [image_to_video] ++ [remix]).
  by rewrite !filter_app, !map_app.
- unfold breakdownItem.
  repeat match goal with
         | |- context [(0 <? ?n)%nat] => destruct (Nat.ltb_spec 0 n)
         end; cbn; lia.
- intros Hnil. rewrite Hnil. by vm_compute.
Qed.

(** ** The exit code of the batch command *)

Lemma countStatus_zero (status : JobStatus)
    (results : list BatchJobResult.t) :
  countStatus status results = 0%nat <->
  Forall (fun r => BatchJobResult.status r <> status) results.
Proof.
unfold countStatus. induction results as [|r results IH].
- split; [constructor|done].
- rewrite filter_cons, Forall_cons. case_decide as Hs; cbn [length].
  + split; [lia|]. by intros [? _].
  + rewrite IH. tauto.
Qed.

(** [parseArgs] exits with 1 only. *)
Lemma parseArgs_loop_exit (parseInt : string -> option Z) (n : nat) :
  forall (args : list string) (result : ParsedArgs.t) (code : Z),
    (length args <= n)%nat ->
    parseArgs_loop parseInt args result = Exit code -> code = 1.
Proof.
induction n as [|n IH]; intros args result code Hn.
{ destruct args; [done|cbn [length] in Hn; lia]. }
destruct args as [|arg rest]; [done|]. cbn [parseArgs_loop length] in *.
assert (forall value r c,
          valueCase parseInt arg value r = Exit c -> c = 1) as Hvalue.
{ intros value r c. unfold valueCase.
  repeat (case_match; try done); by intros [= <-]. }
assert (forall r c, flagCase arg r = Exit c -> c = 1) as Hflag.
{ intros r c. unfold flagCase.
  repeat (case_match; try done); by intros [= <-]. }
destruct (takesValue arg).
- destruct rest as [|value rest].
  + apply Hvalue.
  + destruct (valueCase parseInt arg (Some value) result)
      as [c|result'] eqn:Ev.
    * intros [= <-]. by eapply Hvalue.
    * apply IH. cbn [length] in Hn. lia.
- destruct (flagCase arg result) as [c|result'] eqn:Ef.
  + intros [= <-]. by eapply Hflag.
  + apply IH. lia.
Qed.

Lemma parseArgs_exit (parseInt : string -> option Z) (args : list string)
    (code : Z) :
  parseArgs parseInt args = Exit code -> code = 1.
Proof. apply (parseArgs_loop_exit parseInt (length args)). lia. Qed.

(** After [executeBatch], [main] exits with 0 exactly for a returned
    result in which every job is completed. *)
Lemma exitCode_completed `{PathLib}
    (config : BatchConfig.t) (options : BatchExecutionOptions.t)
    (startedAt : Z) (files : gset string) (trace : list Event) (s : State) :
  run config options startedAt files trace = Some s ->
  exitCode (coordinator s) = Some 0 <->
  exists r,
    coordinator s = Returned r /\
    Forall (fun outcome => BatchJobResult.status outcome = completed)
           (BatchResult.results r).
Proof.
intros Hrun.
destruct (run_sound _ _ _ _ _ _ Hrun) as (_ & _ & Ha & _).
unfold accounted in Ha.
destruct (coordinator s) as [| |r|message] eqn:Ec; cbn [exitCode].
1, 2, 4: split; [done|]; by intros (r & Hr & _).
destruct Ha as (_ & _ & _ & Ef & Ecn & _).
rewrite Ef, Ecn. split.
- intros Hexit. exists r. split; [done|].
  assert (countStatus failed (BatchResult.results r) = 0%nat
          /\ countStatus cancelled (BatchResult.results r) = 0%nat)
    as [Hf Hc].
  { destruct (Nat.ltb_spec 0 (countStatus failed (BatchResult.results r))),
             (Nat.ltb_spec 0
                (countStatus cancelled (BatchResult.results r)));
      cbn [orb] in Hexit; try done. lia. }
  apply countStatus_zero in Hf, Hc.
  rewrite Forall_forall in *. intros outcome Ho.
  specialize (Hf outcome Ho). specialize (Hc outcome Ho).
  by destruct (BatchJobResult.status outcome).
- intros (r' & [= <-] & Hall).
  assert (countStatus failed (BatchResult.results r) = 0%nat) as ->.
  { apply countStatus_zero. eapply Forall_impl; [exact Hall|].
    by intros outcome ->. }
  assert (countStatus cancelled (BatchResult.results r) = 0%nat) as ->.
  { apply countStatus_zero. eapply Forall_impl; [exact Hall|].
    by intros outcome ->. }
  done.
Qed.

(** X26.  The batch command exits with 0 in exactly four cases, and only
    if [parseArgs] has not exited with 1 for an unknown option or a
    [--format] other than text and json: [--version] is given; [--help]
    is given; [--estimate-only] is given with a path to a file that
    loads and that [validateBatchConfig] accepts (no API key is needed
    and [executeBatch] is not called); or, with a path, an API key and
    such a file, [executeBatch] has returned a result in which every job
    is completed.  Otherwise it exits with 1, also when one job failed or
    was cancelled or [executeBatch] threw; it exits with nothing else,
    and it has not exited only while [executeBatch] has not ended. *)
Theorem main_exit_code `{PathLib} (parseInt : string -> option Z)
    (env : Env.t) (args : list string) (apiKey : option string)
    (rawConfig : Result LoadedConfig.t)
    (startedAt : Z) (files : gset string) (trace : list Event) (s : State) :
  (forall config options,
     main_start parseInt env args apiKey rawConfig
     = Continue (config, options) ->
     run config options startedAt files trace = Some s) ->
  (main parseInt env args apiKey rawConfig (coordinator s) = Some 0 <->
   exists parsed,
     parseArgs parseInt args = Continue parsed /\
     (ParsedArgs.showVersion parsed = true \/
      ParsedArgs.showHelp parsed = true \/
      truthy_string (ParsedArgs.configPath parsed) = true /\
      exists raw,
        rawConfig = Ok raw /\ validateBatchConfig raw = None /\
        (estimateOnly (ParsedArgs.options parsed) = true \/
         truthy_string apiKey = true /\
         exists r,
           coordinator s = Returned r /\
           Forall (fun outcome => BatchJobResult.status outcome = completed)
                  (BatchResult.results r)))) /\
  (forall code,
     main parseInt env args apiKey rawConfig (coordinator s) = Some code ->
     code = 0 \/ code = 1) /\
  (main parseInt env args apiKey rawConfig (coordinator s) = None ->
   coordinator s = Racing \/ coordinator s = Grace).
Proof.
intros Hrun. unfold main.
destruct (main_start parseInt env args apiKey rawConfig)
  as [code|[config options]] eqn:Estart.
- (* the command exits before it calls [executeBatch] *)
  clear Hrun. split; [|split]; [| |done].
  2: { intros ? [= <-]. revert Estart. unfold main_start, prepareBatch.
       destruct (parseArgs parseInt args) as [c|parsed] eqn:Eparse.
       { intros [= <-]. right. by eapply parseArgs_exit. }
       repeat (case_match; try done); intros [= <-]; by auto. }
  unfold main_start in Estart.
  destruct (parseArgs parseInt args) as [c|parsed] eqn:Eparse.
  { injection Estart as ->. apply parseArgs_exit in Eparse as ->.
    split; [done|]. by intros (? & ? & _). }
  destruct (ParsedArgs.showVersion parsed) eqn:Eversion.
  { injection Estart as <-. split; [|done]. intros _. exists parsed.
    by auto. }
  destruct (ParsedArgs.showHelp parsed) eqn:Ehelp; cbn [orb] in Estart.
  { injection Estart as <-. split; [|done]. intros _. exists parsed.
    by auto. }
  split.
  + (* exit code 0: only the estimate is left *)
    intros [= ->]. exists parsed. split; [done|]. right. right.
    destruct (truthy_string (ParsedArgs.configPath parsed)); [|done].
    split; [done|]. cbn [negb] in Estart. unfold prepareBatch in Estart.
    destruct (negb (truthy_string apiKey)
              && negb (estimateOnly (ParsedArgs.options parsed)));
      [done|].
    destruct rawConfig as [raw|]; [|done]. exists raw. split; [done|].
    destruct (validateBatchConfig raw); [done|]. split; [done|]. left.
    destruct (asBatchConfig raw); [|done].
    by destruct (estimateOnly (ParsedArgs.options parsed)).
  + intros (? & [= <-] & [?|[?|(Epath & raw & -> & Evalid & Hq)]]);
      [congruence|congruence|].
    rewrite Epath in Estart. cbn [negb] in Estart.
    unfold prepareBatch in Estart. rewrite Evalid in Estart.
    destruct (validateBatchConfig_typed raw Evalid)
      as (jobs & typed & dm & dz & Ejobs & Htyped & Hdm & Hdz).
    assert (is_Some (asBatchConfig raw)) as [config Econfig].
    { unfold asBatchConfig. rewrite Ejobs. cbn [mbind option_bind].
      rewrite Htyped. cbn [mbind option_bind]. rewrite Hdm, Hdz.
      by eexists. }
    rewrite Econfig in Estart.
    destruct Hq as [Eonly|[Ekey _]].
    * rewrite Eonly, andb_false_r in Estart. congruence.
    * rewrite Ekey in Estart. cbn [negb andb] in Estart.
      destruct (estimateOnly (ParsedArgs.options parsed)); congruence.
- (* the command calls [executeBatch] *)
  specialize (Hrun _ _ eq_refl). unfold main_start in Estart.
  destruct (parseArgs parseInt args) as [c|parsed] eqn:Eparse; [done|].
  destruct (ParsedArgs.showVersion parsed) eqn:Eversion; [done|].
  destruct (ParsedArgs.showHelp parsed) eqn:Ehelp; cbn [orb] in Estart;
    [done|].
  destruct (truthy_string (ParsedArgs.configPath parsed)) eqn:Epath;
    cbn [negb] in Estart; [|done].
  unfold prepareBatch in Estart.
  destruct (estimateOnly (ParsedArgs.options parsed)) eqn:Eonly.
  { rewrite andb_false_r in Estart. by repeat case_match. }
  rewrite andb_true_r in Estart.
  destruct (truthy_string apiKey) eqn:Ekey; cbn [negb] in Estart; [|done].
  destruct rawConfig as [raw|]; [|done].
  destruct (validateBatchConfig raw) eqn:Evalid; [done|].
  split; [|split].
  + rewrite (exitCode_completed _ _ _ _ _ _ Hrun). split.
    * intros Hall. exists parsed. split; [done|]. right. right.
      split; [done|]. exists raw. by auto.
    * intros (? & [= <-] & [?|[?|(_ & ? & [= <-] & _ & [?|[_ Hall]])]]);
        [congruence|congruence|congruence|done].
  + intros code. destruct (coordinator s) as [| |r|?]; cbn [exitCode];
      try done; [|by intros [= <-]; right].
    intros [= <-]. destruct (_ || _); [by right|by left].
  + destruct (coordinator s); cbn [exitCode]; by auto.
Qed.

Lemma main_exit_code_witness :
  let parseInt := fun _ : string => @None Z in
  let rawConfig := Ok (loadedBatch [loadedJob "a cat" None None]
                                   None (Some 1)) in
  let trace :=
    [RunMicrotask; PathResolved 0 3; JobSettled 0 (steadyExecutor 9000)] in
  exists s,
    (forall config options,
       main_start parseInt emptyEnv ["batch.json"] (Some "sk-1") rawConfig
       = Continue (config, options) ->
       run config options 0 ∅ trace = Some s) /\
    main parseInt emptyEnv ["batch.json"] (Some "sk-1") rawConfig
         (coordinator s) = Some 0.
Proof.
intros parseInt rawConfig trace. eexists. split.
{ intros config options [= <- <-]. vm_compute. reflexivity. }
refine (proj2 (proj1 (main_exit_code parseInt emptyEnv ["batch.json"]
                        (Some "sk-1") rawConfig 0 ∅ trace _ _)) _).
{ intros config options [= <- <-]. vm_compute. reflexivity. }
eexists. split; [reflexivity|]. right. right. split; [reflexivity|].
eexists. split; [reflexivity|]. split; [reflexivity|]. right.
split; [reflexivity|].
eexists. split; [vm_compute; reflexivity|]. by repeat constructor.
Defined.

(** ** A semaphore without permits *)

Section Idle.
Context `{PathLib}.
Variables (config : BatchConfig.t) (options : BatchExecutionOptions.t)
          (startedAt : Z) (files : gset string).
Hypothesis blocked : maxConcurrent config < 0.

Lemma launch_blocked (n : nat) :
  fold_left launchJob (seq 0 n)
            (Semaphore.new (maxConcurrent config), [], [])
  = ({| Semaphore.permits := maxConcurrent config;
        Semaphore.queue := seq 0 n |}, [], replicate n Waiting).
Proof.
induction n as [|n IH]; [done|].
rewrite seq_S, fold_left_app, IH. cbn [fold_left Nat.add].
unfold launchJob, Semaphore.acquire. cbn [Semaphore.permits].
destruct (Z.ltb_spec 0 (maxConcurrent config)); [lia|].
cbn [Semaphore.queue]. f_equal.
change (S n) with (1 + n)%nat.
by rewrite Nat.add_comm, replicate_add.
Qed.

Lemma idle_initial : idle config (initial config startedAt files).
Proof.
unfold initial, launch. rewrite launch_blocked.
assert (Forall (fun p => p = Waiting)
               (replicate (length (BatchConfig.jobs config)) Waiting))
  as Hall by (by apply Forall_replicate).
destruct (forallb isFulfilled _) eqn:Eall; [|done].
match goal with
| |- idle _ (finalize _ _ ?s0) =>
    destruct (finalize_wellFormed config startedAt s0)
      as (r & Hr & _ & Hres & _)
end.
{ cbn. by rewrite length_replicate. }
{ split; [constructor|]. by intros r ?%elem_of_nil. }
split; [done|]. split; [done|]. rewrite Hr, Hres.
by apply finalResults_nothing_recorded.
Qed.

Lemma idle_step (e : Event) (s s' : State) :
  sound config options s -> idle config s ->
  step config options startedAt e s = Some s' ->
  idle config s' /\ (e = DeadlineFired \/ e = GraceElapsed).
Proof.
intros (Hs & Ht & Ha & _) (Hm & Hph & Hc) Hstep. apply step_inv in Hstep.
rewrite Forall_forall in Hph.
assert (forall i p, phases s !! i = Some p -> p = Waiting) as Hwait.
{ intros i p Hi. apply Hph. by eapply list_elem_of_lookup_2. }
destruct e as [|index instant|index executor| |].
- destruct Hstep as (index & rest & job & Em & _). congruence.
- destruct Hstep as (outputPath & uniquePath & Ep & _).
  by specialize (Hwait _ _ Ep).
- destruct Hstep as (uniquePath & jobStartTime & job & Ep & _).
  by specialize (Hwait _ _ Ep).
- destruct Hstep as (due & _ & _ & ->). split; [|by left].
  split; [done|]. split; [by apply Forall_forall|]. read_state.
  by destruct (coordinator s).
- destruct Hstep as (due & Hdue & _ & ->). split; [|by right].
  unfold timed in Ht. unfold accounted in Ha.
  destruct (coordinator s) eqn:Ec; try congruence.
  { destruct Ht as (_ & Hnone & _). congruence. }
  destruct (finalize_wellFormed config startedAt (endGrace due s))
    as (r & Hr & _ & Hres & _); [apply Hs|exact Ha|].
  split; [done|]. split; [by apply Forall_forall|]. rewrite Hr, Hres.
  by apply finalResults_nothing_recorded.
Qed.

Lemma run_idle (trace : list Event) (s : State) :
  run config options startedAt files trace = Some s ->
  idle config s /\
  Forall (fun e => e = DeadlineFired \/ e = GraceElapsed) trace.
Proof.
unfold run.
assert (forall trace s0 s,
          sound config options s0 -> idle config s0 ->
          runFrom config options startedAt s0 trace = Some s ->
          idle config s /\
          Forall (fun e => e = DeadlineFired \/ e = GraceElapsed) trace)
  as Hgen.
{ clear trace s. induction trace as [|e trace IH]; intros s0 s Hs Hi Hrun.
  - cbn in Hrun. injection Hrun as <-. by split.
  - cbn in Hrun.
    destruct (step config options startedAt e s0) as [s1|] eqn:E; [|done].
    destruct (idle_step e s0 s1 Hs Hi E) as [Hi1 He].
    destruct (IH s1 s) as [Hi2 Hall];
      [by eapply sound_step|done|done|].
    split; [done|by constructor]. }
apply Hgen; [apply sound_initial|apply idle_initial].
Qed.
End Idle.

(** X27.  A negative concurrency starts nothing.  When the concurrency
    that [executeBatch] works with is below zero (a value that only the
    validation of the configuration file rules out), no job ever acquires
    a slot: the only tasks that the event loop can run are the two
    timers, every job stays suspended in [acquire], [executeBatch] does
    not throw, and the result it returns after the timeout and the grace
    window reports every job as cancelled with "Batch timed out or
    cancelled". *)
Theorem executeBatch_negative_concurrency_starts_nothing `{PathLib}
    (config : BatchConfig.t) (options : BatchExecutionOptions.t)
    (startedAt : Z) (files : gset string) (trace : list Event) (s : State) :
  maxConcurrent config < 0 ->
  run config options startedAt files trace = Some s ->
  Forall (fun e => e = DeadlineFired \/ e = GraceElapsed) trace /\
  Forall (fun p => p = Waiting) (phases s) /\
  (forall message, coordinator s <> Threw message) /\
  (forall r, coordinator s = Returned r ->
     BatchResult.results r
     = imap (fun i job =>
               cancelledResult i (BatchJobConfig.prompt job)
                               "Batch timed out or cancelled")
            (BatchConfig.jobs config)).
Proof.
intros Hneg Hrun.
destruct (run_idle config options startedAt files Hneg trace s Hrun)
  as [(_ & Hph & Hc) Hall].
split; [done|]. split; [done|]. split.
- intros message Hm. by rewrite Hm in Hc.
- intros r Hr. by rewrite Hr in Hc.
Qed.

Lemma executeBatch_negative_concurrency_starts_nothing_witness :
  let config :=
    sampleBatch [sampleJob "a cat" None] (Some (-1)) (Some 100) in
  exists s r,
    run config sampleOptions 0 ∅ [DeadlineFired; GraceElapsed] = Some s /\
    coordinator s = Returned r /\
    BatchResult.results r
    = [cancelledResult 0 "a cat" "Batch timed out or cancelled"].
Proof.
intros config. eexists _, _. split; [vm_compute; reflexivity|].
split; [reflexivity|].
refine (proj2 (proj2 (proj2
          (executeBatch_negative_concurrency_starts_nothing config
             sampleOptions 0 ∅ [DeadlineFired; GraceElapsed] _ _ _))) _ _);
  [by vm_compute|vm_compute; reflexivity|reflexivity].
Defined.

(** ** A batch without jobs *)

Section Stable.
Context `{PathLib}.
Variables (config : BatchConfig.t) (options : BatchExecutionOptions.t)
          (startedAt : Z).

(** Once [executeBatch] has returned, no task changes what it
    returned. *)
Lemma Returned_stable (e : Event) (s s' : State) (r : BatchResult.t) :
  timed s -> coordinator s = Returned r ->
  step config options startedAt e s = Some s' ->
  coordinator s' = Returned r.
Proof.
intros Ht Hr Hstep. apply step_inv in Hstep.
assert (forall index phase s0,
          coordinator s0 = Returned r ->
          coordinator (settleJob config startedAt index phase s0)
          = Returned r) as Hsettle.
{ intros index phase s0 Hs0.
  pose proof (settleJob_coordinator config startedAt index phase s0) as Hc.
  by rewrite Hs0 in Hc. }
destruct e as [|index instant|index executor| |].
- destruct Hstep as (index & rest & job & _ & _ & _ & ->).
  unfold resumeJob. read_state.
  destruct (timedOut s); [by apply Hsettle|].
  destruct (resolveOutputPath job index _ _); [done|by apply Hsettle].
- by destruct Hstep as (outputPath & uniquePath & _ & _ & _ & ->).
- destruct Hstep as (uniquePath & jobStartTime & job & _ & _ & _ & ->).
  by apply Hsettle.
- destruct Hstep as (due & _ & _ & ->). read_state. by rewrite Hr.
- destruct Hstep as (due & Hdue & _ & ->).
  unfold timed in Ht. rewrite Hr in Ht. congruence.
Qed.
End Stable.

(** X28.  [executeBatch] on a batch without jobs returns at once, before
    any timer fires: the result has [total = 0], no outcomes, a duration
    of 0 and a cost of 0, and it is the result of every run. *)
Theorem executeBatch_empty_batch `{PathLib}
    (config : BatchConfig.t) (options : BatchExecutionOptions.t)
    (startedAt : Z) (files : gset string) (trace : list Event) (s : State) :
  BatchConfig.jobs config = [] ->
  run config options startedAt files trace = Some s ->
  coordinator s
  = Returned {| BatchResult.total := 0;
                BatchResult.succeeded := 0;
                BatchResult.failed := 0;
                BatchResult.cancelled := 0;
                BatchResult.results := [];
                BatchResult.started_at := startedAt;
                BatchResult.finished_at := startedAt;
                BatchResult.total_duration_ms := 0;
                BatchResult.estimated_cost := 0%float |}.
Proof.
intros Hjobs Hrun.
apply (run_invariant config options startedAt files
         (fun s => sound config options s /\
                   coordinator s
                   = Returned
                       {| BatchResult.total := 0;
                          BatchResult.succeeded := 0;
                          BatchResult.failed := 0;
                          BatchResult.cancelled := 0;
                          BatchResult.results := [];
                          BatchResult.started_at := startedAt;
                          BatchResult.finished_at := startedAt;
                          BatchResult.total_duration_ms := 0;
                          BatchResult.estimated_cost := 0%float |}))
  in Hrun; [by destruct Hrun| |].
- split; [apply sound_initial|].
  unfold initial, launch, finalize. rewrite Hjobs. cbn.
  by rewrite Z.sub_diag.
- intros e s0 s1 [Hs Hr] Hstep. split; [by eapply sound_step|].
  eapply Returned_stable; [apply Hs|done..].
Qed.

Lemma executeBatch_empty_batch_witness :
  exists r,
    coordinator (initial (sampleBatch [] None None) 0 ∅) = Returned r /\
    BatchResult.total r = 0%nat.
Proof.
eexists. split;
  [apply (executeBatch_empty_batch (sampleBatch [] None None) sampleOptions
            0 ∅ [] _ eq_refl eq_refl)
  |reflexivity].
Defined.
